(** * Correlation engine of the Syntx Telegram service

    A shallow embedding of [backend/src/telegram/syntxService.ts]: the marker
    that is embedded into every outbound prompt and parsed back from inbound
    text, the registry of pending jobs, the reserved-id cache, the two
    matching phases of a poll cycle, the timeout sweep and the poll loop.

    Conventions.
    - A JavaScript string is the list of its UTF-16 code units ([jsstring]).
    - A JavaScript number that holds a message id, a timestamp or a counter is
      an integer ([Z]); [Infinity] in the fallback search is [None].
    - [Map<string, PendingJobInfo>] is the list of its values in insertion
      order (every [set] of the source uses [job.jobId] as key);
      [Set<number>] is a [gset Z].
    - An [await] is a point where other tasks of the process run: the
      awaited call comes back with the list of background events that
      happened meanwhile and with its answer, or it rejects.
    - Logging is left out, and so is the part of [sendPromptToSyntx] that
      downloads the matched video: neither touches the state of the
      correlation engine.  The identity of a job object is the number of
      its promise. *)

From Stdlib Require Import ZArith NArith Lia String Ascii.
From stdpp Require Import base tactics option list gmap sets.

Local Open Scope Z_scope.

(** ** JavaScript strings *)

Definition jsstring := list N.

(** The code units of an ASCII literal. *)
Definition lit (s : string) : jsstring :=
  map N_of_ascii (list_ascii_of_string s).

(** The class [\s] of a regular expression without the [u] flag, which is
    also the set [String.prototype.trim] strips: WhiteSpace and
    LineTerminator of ECMAScript. *)
Definition isWhiteSpace (c : N) : bool :=
  ((9 <=? c) && (c <=? 13) || (c =? 32) || (c =? 160) || (c =? 5760)
   || (8192 <=? c) && (c <=? 8202) || (c =? 8232) || (c =? 8233)
   || (c =? 8239) || (c =? 8287) || (c =? 12288) || (c =? 65279))%N.

Fixpoint trimStart (s : jsstring) : jsstring :=
  match s with
  | c :: s' => if isWhiteSpace c then trimStart s' else s
  | [] => []
  end.

Definition trimEnd (s : jsstring) : jsstring :=
  reverse (trimStart (reverse s)).

(** [String.prototype.trim]. *)
Definition trim (s : jsstring) : jsstring := trimEnd (trimStart s).

(** [parts.join(sep)]. *)
Fixpoint join (sep : jsstring) (parts : list jsstring) : jsstring :=
  match parts with
  | [] => []
  | [p] => p
  | p :: rest => p ++ sep ++ join sep rest
  end.

(** ** The job marker *)

Definition LF : N := 10%N.
Definition RBRACKET : N := 93%N.

(** [addJobIdToPrompt]: the prompt, an empty line, then [[JOB_ID: <jobId>]]. *)
Definition addJobIdToPrompt (prompt jobId : jsstring) : jsstring :=
  let marker := lit "[JOB_ID: " ++ jobId ++ lit "]" in
  prompt ++ [LF; LF] ++ marker.

(** *** A backtracking matcher for [/\[JOB_ID:\s*([^\]]+)\]/] *)

(** The literal part of a pattern: [Some rest] when [s] starts with [p]. *)
Fixpoint stripPrefix (p s : jsstring) : option jsstring :=
  match p, s with
  | [], _ => Some s
  | a :: p', b :: s' => if (a =? b)%N then stripPrefix p' s' else None
  | _ :: _, [] => None
  end.

(** A greedy quantifier over a character class, [cls*]: it takes the
    longest run first and gives characters back one at a time while the
    continuation [k] (the rest of the pattern) fails.  [k] receives the
    characters taken and the remaining input. *)
Fixpoint greedyStar {A} (cls : N -> bool) (s : jsstring)
    (k : jsstring -> jsstring -> option A) : option A :=
  match s with
  | c :: s' =>
      if cls c then
        match greedyStar cls s' (fun taken rest => k (c :: taken) rest) with
        | Some a => Some a
        | None => k [] s
        end
      else k [] s
  | [] => k [] s
  end.

(** [cls+]: one character of the class, then [cls*]. *)
Definition greedyPlus {A} (cls : N -> bool) (s : jsstring)
    (k : jsstring -> jsstring -> option A) : option A :=
  match s with
  | c :: s' =>
      if cls c then greedyStar cls s' (fun taken rest => k (c :: taken) rest)
      else None
  | [] => None
  end.

Definition notRBracket (c : N) : bool := negb (c =? RBRACKET)%N.

(** The end of the pattern, [\]] after capture group 1. *)
Definition closeBracket (group rest : jsstring) : option jsstring :=
  match rest with
  | c :: _ => if (c =? RBRACKET)%N then Some group else None
  | [] => None
  end.

(** [\s*([^\]]+)\]], what follows the literal [[JOB_ID:]. *)
Definition matchTail (r0 : jsstring) : option jsstring :=
  greedyStar isWhiteSpace r0 (fun _ r1 => greedyPlus notRBracket r1 closeBracket).

(** The pattern anchored at the start of [s]; the result is capture group 1. *)
Definition matchMarkerAt (s : jsstring) : option jsstring :=
  match stripPrefix (lit "[JOB_ID:") s with
  | None => None
  | Some r0 => matchTail r0
  end.

(** [text.match(re)] for a pattern without the [g] flag: the match at the
    leftmost position that has one. *)
Fixpoint regexSearch (text : jsstring) : option jsstring :=
  match matchMarkerAt text with
  | Some group => Some group
  | None =>
      match text with
      | [] => None
      | _ :: text' => regexSearch text'
      end
  end.

(** [extractJobIdFromText]: [null] is [None]. *)
Definition extractJobIdFromText (text : jsstring) : option jsstring :=
  match regexSearch text with
  | Some group => Some (trim group)
  | None => None
  end.

(** ** Inbound messages *)

(** What [isVideoMessage] looks at in [message.media]. *)
Inductive DocumentAttribute :=
| DocumentAttributeVideo
| DocumentAttributeOther.

Inductive TypeDocument :=
| Document (attributes : list DocumentAttribute)
| DocumentEmpty.

Inductive MediaKind :=
| MessageMediaDocument (document : option TypeDocument)
| MessageMediaOther.

(** [media.caption]: a string, an object with a [text] property (whose value
    may be missing or empty), or anything else. *)
Inductive Caption :=
| CaptionString (s : jsstring)
| CaptionObject (text : option jsstring)
| CaptionOther.

Record MessageMedia := {
  media_kind : MediaKind;
  media_caption : Caption;
}.

(** [message.date]: seconds as a number, a [Date], or something else. *)
Inductive RawDate :=
| DateSeconds (secs : Z)
| DateObject (ms : Z)
| DateOther.

(** The fields of [Api.Message] the service reads. *)
Record Message := {
  msg_id : Z;
  msg_message : option jsstring;
  msg_media : option MessageMedia;
  msg_date : RawDate;
}.

Definition getMessageFullText (m : Message) : jsstring :=
  let parts1 := match msg_message m with Some s => [s] | None => [] end in
  let parts2 :=
    match msg_media m with
    | Some media =>
        match media_caption media with
        | CaptionString s => [s]
        | CaptionObject (Some t) => [t]
        | CaptionObject None => [[]]
        | CaptionOther => []
        end
    | None => []
    end in
  trim (join (lit " ") (parts1 ++ parts2)).

Definition isVideoAttribute (a : DocumentAttribute) : bool :=
  match a with DocumentAttributeVideo => true | DocumentAttributeOther => false end.

Definition isVideoMessage (m : Message) : bool :=
  match msg_media m with
  | None => false
  | Some media =>
      match media_kind media with
      | MessageMediaDocument (Some (Document attributes)) =>
          existsb isVideoAttribute attributes
      | _ => false
      end
  end.

Record VideoMessageInfo := {
  info_message : Message;
  info_text : jsstring;
  info_jobIdMark : option jsstring;
  info_dateMs : Z;
}.

(** [!info.jobIdMark]: [null] and the empty string are falsy. *)
Definition noMark (info : VideoMessageInfo) : bool :=
  match info_jobIdMark info with
  | None | Some [] => true
  | Some (_ :: _) => false
  end.

(** The body of the loop of [filterVideoMessages]; [now] is [Date.now()]. *)
Definition videoMessageInfo (now : Z) (m : Message) : VideoMessageInfo :=
  let text := getMessageFullText m in
  {| info_message := m;
     info_text := text;
     info_jobIdMark := extractJobIdFromText text;
     info_dateMs := match msg_date m with
                    | DateSeconds secs => secs * 1000
                    | DateObject ms => ms
                    | DateOther => now
                    end |}.

Fixpoint filterVideoMessages (now : Z) (messages : list Message)
    : list VideoMessageInfo :=
  match messages with
  | [] => []
  | m :: rest =>
      if isVideoMessage m
      then videoMessageInfo now m :: filterVideoMessages now rest
      else filterVideoMessages now rest
  end.

(** ** Jobs, results and the registry *)

(** [MatchingMethod] of [models/videoJob]: the two values the service uses,
    ["jobId"] and ["timestamp"]. *)
Inductive MatchingMethod := ByJobId | ByTimestamp.

Record MatchingResult := {
  res_message : Message;
  res_matchingMethod : MatchingMethod;
  res_totalMessagesScanned : Z;
}.

(** [PendingJobInfo].  [resolve] and [reject] are the two functions of the
    promise created at registration; [promise] is the identity of that
    promise, and calling them is recorded in the trace (see [Effect]). *)
Record PendingJobInfo := {
  jobId : jsstring;
  requestMessageId : Z;
  jobCreatedAt : Z;
  sentAt : Z;
  deadline : Z;
  pollCount : Z;
  promise : nat;
}.

(** [Map.prototype.get], [set] (an existing key keeps its place) and
    [delete]. *)
Fixpoint Map_get (k : jsstring) (m : list PendingJobInfo) : option PendingJobInfo :=
  match m with
  | [] => None
  | j :: m' => if decide (jobId j = k) then Some j else Map_get k m'
  end.

Fixpoint Map_set (j : PendingJobInfo) (m : list PendingJobInfo) : list PendingJobInfo :=
  match m with
  | [] => [j]
  | x :: m' => if decide (jobId x = jobId j) then j :: m' else x :: Map_set j m'
  end.

Fixpoint Map_delete (k : jsstring) (m : list PendingJobInfo) : list PendingJobInfo :=
  match m with
  | [] => []
  | x :: m' => if decide (jobId x = k) then Map_delete k m' else x :: Map_delete k m'
  end.

(** ** Configuration *)

Record Config := {
  POLL_INTERVAL_MS : Z;
  FALLBACK_POLLS_THRESHOLD : Z;
  FALLBACK_WINDOW_MS : Z;
}.

(** The values used when the environment sets none. *)
Definition defaultConfig : Config :=
  {| POLL_INTERVAL_MS := 7000;
     FALLBACK_POLLS_THRESHOLD := 3;
     FALLBACK_WINDOW_MS := 2 * 60 * 1000 |}.

Definition DEFAULT_TIMEOUT_MS : Z := 30 * 60 * 1000.

(** ** Effects and the environment *)

(** What the service does to the outside, newest first in [trace]:
    a batch [getMessages] returned, a call of [reserveSyntaxMessageId] with
    its answer ([None]: the call rejected), a call of a job's [resolve], a
    call of a job's [reject]. *)
Inductive Effect :=
| Fetched (batch : list Message)
| Claimed (messageId : Z) (job : jsstring) (method : MatchingMethod) (answer : option bool)
| Resolved (p : nat) (result : MatchingResult)
| Rejected (p : nat) (job : jsstring).

(** The arguments of [waitForVideoViaPoller]. *)
Record JobRequest := {
  req_jobId : jsstring;
  req_requestMessageId : Z;
  req_jobCreatedAt : Z;
  req_sentAt : Z;
}.

(** What other tasks of the process do while the poll loop is suspended:
    [sendPromptToSyntx] stores the client and the chat; the part of
    [waitForVideoViaPoller] after its await registers a job;
    [ensureAssignmentsCache] receives the reserved ids; time passes. *)
Inductive Background :=
| ClientAcquired
| Registration (req : JobRequest)
| CacheWarmed (ids : list Z)
| Elapse (ms : N).

(** An awaited call: what ran meanwhile and the answer ([None]: rejection). *)
Record Await (A : Type) := {
  during : list Background;
  answer : option A;
}.
Arguments during {A} _.
Arguments answer {A} _.

(** ** Process state *)

(** The module-level variables ([clientReady]: [currentClient] and
    [currentChat] are both set), then the environment ([clock] is
    [Date.now()]; [store] holds the answers to the coming calls of
    [reserveSyntaxMessageId]) and the bookkeeping of the model
    ([loops]: live instances of [pollLoop]; [nextPromise]: promises created
    so far; [trace]). *)
Record State := {
  pendingJobs : list PendingJobInfo;
  reservedMessageIds : gset Z;
  clientReady : bool;
  pollerRunning : bool;
  assignmentsCacheLoaded : bool;
  totalMessagesScanned : Z;
  clock : Z;
  store : list (Await bool);
  loops : nat;
  nextPromise : nat;
  trace : list Effect;
}.

Definition initialState : State :=
  {| pendingJobs := []; reservedMessageIds := ∅; clientReady := false;
     pollerRunning := false; assignmentsCacheLoaded := false;
     totalMessagesScanned := 0; clock := 0; store := []; loops := 0;
     nextPromise := 0; trace := [] |}.

Definition set_pendingJobs (v : list PendingJobInfo) (s : State) : State :=
  {| pendingJobs := v; reservedMessageIds := reservedMessageIds s;
     clientReady := clientReady s; pollerRunning := pollerRunning s;
     assignmentsCacheLoaded := assignmentsCacheLoaded s;
     totalMessagesScanned := totalMessagesScanned s; clock := clock s;
     store := store s; loops := loops s; nextPromise := nextPromise s;
     trace := trace s |}.

Definition set_reservedMessageIds (v : gset Z) (s : State) : State :=
  {| pendingJobs := pendingJobs s; reservedMessageIds := v;
     clientReady := clientReady s; pollerRunning := pollerRunning s;
     assignmentsCacheLoaded := assignmentsCacheLoaded s;
     totalMessagesScanned := totalMessagesScanned s; clock := clock s;
     store := store s; loops := loops s; nextPromise := nextPromise s;
     trace := trace s |}.

Definition set_clientReady (v : bool) (s : State) : State :=
  {| pendingJobs := pendingJobs s; reservedMessageIds := reservedMessageIds s;
     clientReady := v; pollerRunning := pollerRunning s;
     assignmentsCacheLoaded := assignmentsCacheLoaded s;
     totalMessagesScanned := totalMessagesScanned s; clock := clock s;
     store := store s; loops := loops s; nextPromise := nextPromise s;
     trace := trace s |}.

(** [pollerRunning = v], with the number of live loop instances after it. *)
Definition set_poller (v : bool) (n : nat) (s : State) : State :=
  {| pendingJobs := pendingJobs s; reservedMessageIds := reservedMessageIds s;
     clientReady := clientReady s; pollerRunning := v;
     assignmentsCacheLoaded := assignmentsCacheLoaded s;
     totalMessagesScanned := totalMessagesScanned s; clock := clock s;
     store := store s; loops := n; nextPromise := nextPromise s;
     trace := trace s |}.

Definition set_assignmentsCacheLoaded (v : bool) (s : State) : State :=
  {| pendingJobs := pendingJobs s; reservedMessageIds := reservedMessageIds s;
     clientReady := clientReady s; pollerRunning := pollerRunning s;
     assignmentsCacheLoaded := v;
     totalMessagesScanned := totalMessagesScanned s; clock := clock s;
     store := store s; loops := loops s; nextPromise := nextPromise s;
     trace := trace s |}.

Definition set_totalMessagesScanned (v : Z) (s : State) : State :=
  {| pendingJobs := pendingJobs s; reservedMessageIds := reservedMessageIds s;
     clientReady := clientReady s; pollerRunning := pollerRunning s;
     assignmentsCacheLoaded := assignmentsCacheLoaded s;
     totalMessagesScanned := v; clock := clock s;
     store := store s; loops := loops s; nextPromise := nextPromise s;
     trace := trace s |}.

Definition set_clock (v : Z) (s : State) : State :=
  {| pendingJobs := pendingJobs s; reservedMessageIds := reservedMessageIds s;
     clientReady := clientReady s; pollerRunning := pollerRunning s;
     assignmentsCacheLoaded := assignmentsCacheLoaded s;
     totalMessagesScanned := totalMessagesScanned s; clock := v;
     store := store s; loops := loops s; nextPromise := nextPromise s;
     trace := trace s |}.

Definition set_store (v : list (Await bool)) (s : State) : State :=
  {| pendingJobs := pendingJobs s; reservedMessageIds := reservedMessageIds s;
     clientReady := clientReady s; pollerRunning := pollerRunning s;
     assignmentsCacheLoaded := assignmentsCacheLoaded s;
     totalMessagesScanned := totalMessagesScanned s; clock := clock s;
     store := v; loops := loops s; nextPromise := nextPromise s;
     trace := trace s |}.

Definition set_nextPromise (v : nat) (s : State) : State :=
  {| pendingJobs := pendingJobs s; reservedMessageIds := reservedMessageIds s;
     clientReady := clientReady s; pollerRunning := pollerRunning s;
     assignmentsCacheLoaded := assignmentsCacheLoaded s;
     totalMessagesScanned := totalMessagesScanned s; clock := clock s;
     store := store s; loops := loops s; nextPromise := v;
     trace := trace s |}.

(** Append an effect to the trace. *)
Definition emit (e : Effect) (s : State) : State :=
  {| pendingJobs := pendingJobs s; reservedMessageIds := reservedMessageIds s;
     clientReady := clientReady s; pollerRunning := pollerRunning s;
     assignmentsCacheLoaded := assignmentsCacheLoaded s;
     totalMessagesScanned := totalMessagesScanned s; clock := clock s;
     store := store s; loops := loops s; nextPromise := nextPromise s;
     trace := e :: trace s |}.

(** ** Asynchronous computations *)

(** A computation reads and updates the process state and either completes
    with a value or throws; the state at the throw is kept, as it is when
    [pollLoop] catches the error of [pollOnce]. *)
Inductive Completion (A : Type) :=
| Normal (a : A)
| Thrown.
Arguments Normal {A} a.
Arguments Thrown {A}.

Definition Async (A : Type) : Type := State -> Completion A * State.

#[global] Instance Async_ret : MRet Async := λ A a s, (Normal a, s).

#[global] Instance Async_bind : MBind Async := λ A B f m s,
  match m s with
  | (Normal a, s') => f a s'
  | (Thrown, s') => (Thrown, s')
  end.

Definition gets {A} (f : State -> A) : Async A := λ s, (Normal (f s), s).
Definition modify (f : State -> State) : Async unit := λ s, (Normal tt, f s).

(** ** Registration and the background *)

(** [ensurePolling]: a no-op while the flag is set; otherwise the flag is set
    and one more instance of [pollLoop] is started. *)
Definition ensurePolling (s : State) : State :=
  if pollerRunning s then s else set_poller true (S (loops s)) s.

(** [waitForVideoViaPoller]: it throws before its await when the client or
    the chat is missing; after the await a fresh job with a fresh promise is
    stored under its id and [ensurePolling] is called. *)
Definition waitForVideoViaPoller (req : JobRequest) (s : State) : State :=
  if clientReady s then
    let pendingJob :=
      {| jobId := req_jobId req;
         requestMessageId := req_requestMessageId req;
         jobCreatedAt := req_jobCreatedAt req;
         sentAt := req_sentAt req;
         deadline := clock s + DEFAULT_TIMEOUT_MS;
         pollCount := 0;
         promise := nextPromise s |} in
    ensurePolling
      (set_pendingJobs (Map_set pendingJob (pendingJobs s))
         (set_nextPromise (S (nextPromise s)) s))
  else s.

(** The part of [ensureAssignmentsCache] after its await. *)
Definition ensureAssignmentsCache (ids : list Z) (s : State) : State :=
  set_assignmentsCacheLoaded true
    (set_reservedMessageIds (list_to_set ids ∪ reservedMessageIds s) s).

Definition background (b : Background) (s : State) : State :=
  match b with
  | ClientAcquired => set_clientReady true s
  | Registration req => waitForVideoViaPoller req s
  | CacheWarmed ids => ensureAssignmentsCache ids s
  | Elapse ms => set_clock (clock s + Z.of_N ms) s
  end.

Fixpoint backgrounds (bs : list Background) (s : State) : State :=
  match bs with
  | [] => s
  | b :: bs' => backgrounds bs' (background b s)
  end.

(** ** The external calls of a poll cycle *)

(** [currentClient.getMessages(currentChat, {limit: 100})]. *)
Definition getMessages (w : Await (list Message)) : Async (list Message) := λ s,
  let s' := backgrounds (during w) s in
  match answer w with
  | Some batch => (Normal batch, emit (Fetched batch) s')
  | None => (Thrown, s')
  end.

(** [reserveSyntaxMessageId] of [firebase/syntaxAssignmentsService]: the
    next answer of the store; a store with no answer left rejects. *)
Definition reserveSyntaxMessageId (messageId : Z) (job : jsstring)
    (method : MatchingMethod) : Async bool := λ s,
  match store s with
  | [] => (Thrown, emit (Claimed messageId job method None) s)
  | w :: rest =>
      let s' := backgrounds (during w) (set_store rest s) in
      match answer w with
      | Some b => (Normal b, emit (Claimed messageId job method (Some b)) s')
      | None => (Thrown, emit (Claimed messageId job method None) s')
      end
  end.

(** ** Matching *)

Definition reservedAdd (messageId : Z) : Async unit :=
  modify (λ s, set_reservedMessageIds ({[messageId]} ∪ reservedMessageIds s) s).

Definition pendingDelete (k : jsstring) : Async unit :=
  modify (λ s, set_pendingJobs (Map_delete k (pendingJobs s)) s).

Definition attemptAssignment (job : PendingJobInfo)
    (messageInfo : VideoMessageInfo) (method : MatchingMethod) : Async unit :=
  let messageId := msg_id (info_message messageInfo) in
  cached ← gets (λ s, bool_decide (messageId ∈ reservedMessageIds s));
  if cached : bool then mret tt
  else
    reserved ← reserveSyntaxMessageId messageId (jobId job) method;
    if reserved : bool then
      reservedAdd messageId;;
      pendingDelete (jobId job);;
      total ← gets totalMessagesScanned;
      modify (emit (Resolved (promise job)
                      {| res_message := info_message messageInfo;
                         res_matchingMethod := method;
                         res_totalMessagesScanned := total |}))
    else
      reservedAdd messageId.

(** Phase A. *)
Fixpoint matchMessagesByJobId (videoMessages : list VideoMessageInfo) : Async unit :=
  match videoMessages with
  | [] => mret tt
  | info :: rest =>
      (if noMark info then mret tt
       else
         match info_jobIdMark info with
         | None => mret tt
         | Some mark =>
             pending ← gets (λ s, Map_get mark (pendingJobs s));
             match pending with
             | None => mret tt
             | Some job => attemptAssignment job info ByJobId
             end
         end);;
      matchMessagesByJobId rest
  end.

Definition bumpPollCount (job : PendingJobInfo) : PendingJobInfo :=
  {| jobId := jobId job; requestMessageId := requestMessageId job;
     jobCreatedAt := jobCreatedAt job; sentAt := sentAt job;
     deadline := deadline job; pollCount := pollCount job + 1;
     promise := promise job |}.

Definition fallbackReady (cfg : Config) (job : PendingJobInfo) : bool :=
  pollCount job >=? FALLBACK_POLLS_THRESHOLD cfg.

(** [collectFallbackReadyJobs]: every pending job is counted once more, and
    those that reach the threshold are returned in registry order. *)
Definition collectFallbackReadyJobs (cfg : Config) : Async (list PendingJobInfo) := λ s,
  let jobs := map bumpPollCount (pendingJobs s) in
  (Normal (List.filter (fallbackReady cfg) jobs), set_pendingJobs jobs s).

(** [job.sentAt || job.jobCreatedAt]: zero is falsy. *)
Definition targetTimestamp (job : PendingJobInfo) : Z :=
  if sentAt job =? 0 then jobCreatedAt job else sentAt job.

(** The inner loop of [processFallbackMatches].  [best] is [selected] with
    its position in [candidates] and [bestDiff]; [None] is the initial
    [selected = null], [bestDiff = Infinity]. *)
Fixpoint selectClosest (window : Z) (reserved : gset Z) (target : Z) (i : nat)
    (candidates : list VideoMessageInfo) (best : option (nat * VideoMessageInfo * Z))
    : option (nat * VideoMessageInfo * Z) :=
  match candidates with
  | [] => best
  | candidate :: rest =>
      let best' :=
        if bool_decide (msg_id (info_message candidate) ∈ reserved) then best
        else
          let diff := Z.abs (info_dateMs candidate - target) in
          if (diff <=? window)
             && match best with None => true | Some (_, _, bestDiff) => diff <? bestDiff end
          then Some (i, candidate, diff)
          else best in
      selectClosest window reserved target (S i) rest best'
  end.

(** The candidate the fallback proposes to [job]. *)
Definition selectFallback (cfg : Config) (reserved : gset Z)
    (candidates : list VideoMessageInfo) (job : PendingJobInfo)
    : option (nat * VideoMessageInfo * Z) :=
  selectClosest (FALLBACK_WINDOW_MS cfg) reserved (targetTimestamp job) 0 candidates None.

(** The loop over the fallback-ready jobs; [candidates.splice(.., 1)]
    removes the selected candidate at its position. *)
Fixpoint fallbackLoop (cfg : Config) (candidates : list VideoMessageInfo)
    (fallbackJobs : list PendingJobInfo) : Async unit :=
  match fallbackJobs with
  | [] => mret tt
  | job :: rest =>
      reserved ← gets reservedMessageIds;
      match selectFallback cfg reserved candidates job with
      | None => fallbackLoop cfg candidates rest
      | Some (i, selected, _) =>
          attemptAssignment job selected ByTimestamp;;
          fallbackLoop cfg (delete i candidates) rest
      end
  end.

(** Phase B. *)
Definition processFallbackMatches (cfg : Config)
    (videoMessages : list VideoMessageInfo) (fallbackJobs : list PendingJobInfo)
    : Async unit :=
  match fallbackJobs with
  | [] => mret tt
  | _ :: _ =>
      match List.filter noMark videoMessages with
      | [] => mret tt
      | candidates => fallbackLoop cfg candidates fallbackJobs
      end
  end.

(** ** The timeout sweep *)

Definition timeoutJob (job : PendingJobInfo) (s : State) : State :=
  emit (Rejected (promise job) (jobId job))
    (set_pendingJobs (Map_delete (jobId job) (pendingJobs s)) s).

(** [pendingJobs.forEach] of [checkPendingTimeouts] over the entries
    [jobs]; deleting the entry being visited leaves the others in place. *)
Fixpoint sweep (now : Z) (jobs : list PendingJobInfo) (s : State) : State :=
  match jobs with
  | [] => s
  | job :: rest =>
      sweep now rest (if now >? deadline job then timeoutJob job s else s)
  end.

Definition checkPendingTimeouts : Async unit := λ s,
  (Normal tt, sweep (clock s) (pendingJobs s) s).

(** ** One poll cycle and the loop *)

Definition pollOnce (cfg : Config) (fetch : Await (list Message)) : Async unit :=
  ready ← gets clientReady;
  if negb ready then mret tt
  else
    messages ← getMessages fetch;
    modify (λ s, set_totalMessagesScanned
                   (totalMessagesScanned s + Z.of_nat (length messages)) s);;
    now ← gets clock;
    let videoMessages := filterVideoMessages now messages in
    matchMessagesByJobId videoMessages;;
    fallbackReadyJobs ← collectFallbackReadyJobs cfg;
    processFallbackMatches cfg videoMessages fallbackReadyJobs;;
    checkPendingTimeouts.

(** What the outside gives one cycle: the answer of [getMessages] and the
    answers of the reservation store, in call order. *)
Record Cycle := {
  fetch : Await (list Message);
  claims : list (Await bool);
}.

(** One turn of the [while] of [pollLoop], taken by the live instance when
    its [delay] is over: with a job pending it runs [pollOnce] inside
    [try]/[catch]; with none it clears [pollerRunning] and ends. *)
Definition pollLoopTurn (cfg : Config) (c : Cycle) (s : State) : State :=
  match loops s with
  | O => s
  | S n =>
      match pendingJobs s with
      | [] => set_poller false n s
      | _ :: _ => snd (pollOnce cfg (fetch c) (set_store (claims c) s))
      end
  end.

(** An error that escapes [pollLoop]: the instance ends and the handler
    [.catch] of [ensurePolling] only logs it.  The code never takes this
    step: every call of [pollLoop] that can reject is inside its [try], and
    what is outside ([console.error], the timer of [delay]) does not throw.
    The step is kept so that the invariants of a run are known to hold even
    then; what is said of the flag [pollerRunning] is said of the runs
    without it. *)
Definition pollLoopCrash (s : State) : State :=
  match loops s with
  | O => s
  | S n => set_poller (pollerRunning s) n s
  end.

(** ** Runs of the process *)

Inductive Event :=
| Outside (b : Background)
| LoopTurn (c : Cycle)
| LoopCrash.

Definition step (cfg : Config) (e : Event) (s : State) : State :=
  match e with
  | Outside b => background b s
  | LoopTurn c => pollLoopTurn cfg c s
  | LoopCrash => pollLoopCrash s
  end.

Fixpoint run (cfg : Config) (events : list Event) (s : State) : State :=
  match events with
  | [] => s
  | e :: rest => run cfg rest (step cfg e s)
  end.

(** ** The download of the matched video *)

(** The end of [sendPromptToSyntx], from the first [downloadMedia] to the
    [return]; [filePath] is the path the function computed for the file. *)
Module Download.

(** [SyntxResult]. *)
Record SyntxResult := {
  localPath : jsstring;
  requestMessageId : Z;
  videoMessageId : Z;
  matchingMethod : MatchingMethod;
  totalMessagesScanned : Z;
}.

(** The files, by path: the bytes each one holds. *)
Abbreviation Files := (gmap jsstring (list N)).

(** An awaited call during which the files change: [went] is what the call,
    and whatever else ran before it came back, did to the files; [came] is
    the value it resolved with, [None] when it rejected. *)
Record FileAwait (A : Type) := {
  went : Files → Files;
  came : option A;
}.
Arguments went {A} _ _.
Arguments came {A} _.

(** What the outside gives one download: [downloadMedia] with an
    [outputFile]; the files after [delay(500)]; [downloadMedia] without
    [outputFile], whose value is a buffer or has no [length]; and whether
    [writeFileSync] throws. *)
Record Answers := {
  fileMode : FileAwait unit;
  settle : Files → Files;
  bufferMode : FileAwait (option (list N));
  writeThrows : bool;
}.

(** The message of [bufferError]: the one the function throws itself, or
    another. *)
Inductive BufferReason := BufferIsEmpty | OtherReason.

(** The errors the end of the function throws; [NoSuchFile] is the error of
    [statSync] on a path that does not exist. *)
Inductive DownloadError :=
| FailedToDownload (fileId : Z) (reason : BufferReason)
| DownloadedFileIsEmpty (filePath : jsstring)
| NoSuchFile.

(** The [try] block: [inr] is the state in which its [catch] is entered. *)
Definition tryFileMode (o : Answers) (filePath : jsstring) (files : Files)
    : Files + Files :=
  let files1 := went (fileMode o) files in
  match came (fileMode o) with
  | Some _ =>
      let files2 := settle o files1 in
      match files2 !! filePath with
      | Some _ => inl files2
      | None => inr files2
      end
  | None => inr files1
  end.

(** The inner [try] block, in the [catch] of the first. *)
Definition tryBufferMode (o : Answers) (filePath : jsstring) (files : Files)
    : BufferReason + Files :=
  let files1 := went (bufferMode o) files in
  match came (bufferMode o) with
  | Some (Some (b :: buffer)) =>
      if writeThrows o then inl OtherReason
      else inr (<[filePath := b :: buffer]> files1)
  | Some (Some []) | Some None => inl BufferIsEmpty
  | None => inl OtherReason
  end.

(** [fs.statSync(filePath)], the check of the size, and the result. *)
Definition checkAndReturn (filePath : jsstring) (actualRequestMessageId : Z)
    (matched : MatchingResult) (files : Files)
    : DownloadError + SyntxResult * Files :=
  match files !! filePath with
  | None => inl NoSuchFile
  | Some [] => inl (DownloadedFileIsEmpty filePath)
  | Some (_ :: _) =>
      inr ({| localPath := filePath;
              requestMessageId := actualRequestMessageId;
              videoMessageId := msg_id (res_message matched);
              matchingMethod := res_matchingMethod matched;
              totalMessagesScanned := res_totalMessagesScanned matched |},
           files)
  end.

Definition download (o : Answers) (filePath : jsstring) (actualRequestMessageId : Z)
    (matched : MatchingResult) (files : Files)
    : DownloadError + SyntxResult * Files :=
  match tryFileMode o filePath files with
  | inl files' => checkAndReturn filePath actualRequestMessageId matched files'
  | inr files' =>
      match tryBufferMode o filePath files' with
      | inl reason => inl (FailedToDownload (msg_id (res_message matched)) reason)
      | inr files'' => checkAndReturn filePath actualRequestMessageId matched files''
      end
  end.

End Download.


(** * Notions used in the statements *)

(** A marker opening [[JOB_ID:] somewhere in [s] that no later [']'] of [s]
    closes. *)
Fixpoint hasUnclosedMarker (s : jsstring) : bool :=
  match stripPrefix (lit "[JOB_ID:") s with
  | Some r => if forallb notRBracket r then true
              else match s with [] => false | _ :: s' => hasUnclosedMarker s' end
  | None => match s with [] => false | _ :: s' => hasUnclosedMarker s' end
  end.

(** The longest prefix of [s] without [']'], and what follows it. *)
Fixpoint runNotRBracket (s : jsstring) : jsstring :=
  match s with
  | c :: s' => if notRBracket c then c :: runNotRBracket s' else []
  | [] => []
  end.

Fixpoint afterRun (s : jsstring) : jsstring :=
  match s with
  | c :: s' => if notRBracket c then afterRun s' else s
  | [] => []
  end.

(** [s] neither starts nor ends with a character that [trim] strips. *)
Definition noOuterWhiteSpace (s : jsstring) : bool :=
  negb (from_option isWhiteSpace false (head s))
  && negb (from_option isWhiteSpace false (last s)).

(** The distance in time between a candidate and a reference time. *)
Definition timeDiff (target : Z) (c : VideoMessageInfo) : Z :=
  Z.abs (info_dateMs c - target).

Definition unreserved (reserved : gset Z) (c : VideoMessageInfo) : Prop :=
  msg_id (info_message c) ∉ reserved.

(** The candidates phase B starts from: the artifact-bearing messages of the
    batch that carry no marker. *)
Definition fallbackPool (now : Z) (messages : list Message) : list VideoMessageInfo :=
  List.filter noMark (filterVideoMessages now messages).

(** A video message with a text and a date in seconds, and a job request,
    for the examples. *)
Definition exampleVideo (i : Z) (text : string) (secs : Z) : Message :=
  {| msg_id := i;
     msg_message := Some (lit text);
     msg_media :=
       Some {| media_kind := MessageMediaDocument (Some (Document [DocumentAttributeVideo]));
               media_caption := CaptionOther |};
     msg_date := DateSeconds secs |}.

Definition exampleJob (id : string) (created sent due : Z) (polls : Z) (p : nat)
    : PendingJobInfo :=
  {| jobId := lit id; requestMessageId := 1; jobCreatedAt := created;
     sentAt := sent; deadline := due; pollCount := polls; promise := p |}.

(** A candidate the fallback may take: not cached as reserved and inside the
    window around the reference time. *)
Definition eligible (window : Z) (reserved : gset Z) (target : Z)
    (c : VideoMessageInfo) : Prop :=
  unreserved reserved c ∧ timeDiff target c ≤ window.

(** What the search of [selectClosest] keeps: [best] is the first among the
    closest eligible candidates of [seen]. *)
Definition bestOf (window : Z) (reserved : gset Z) (target : Z)
    (seen : list VideoMessageInfo) (best : option (nat * VideoMessageInfo * Z)) : Prop :=
  match best with
  | None => ∀ c, c ∈ seen → ¬ eligible window reserved target c
  | Some (k, c, d) =>
      seen !! k = Some c ∧ d = timeDiff target c ∧ eligible window reserved target c
      ∧ (∀ j c', seen !! j = Some c' → unreserved reserved c' →
                 d ≤ timeDiff target c')
      ∧ (∀ j c', seen !! j = Some c' → unreserved reserved c' →
                 (j < k)%nat → d < timeDiff target c')
  end.

(** The job and the two unmarked videos of the reference-time example: the
    job was sent at 1 000 ms and created (by the caller's clock) at
    500 000 ms; the first video is dated 1 000 ms, the second 500 000 ms. *)
Definition lateCreatedJob : PendingJobInfo :=
  exampleJob "late" 500000 1000 2000000 3 0.

Definition lateCreatedBatch : list Message :=
  [exampleVideo 11 "first" 1; exampleVideo 12 "second" 500].

(** The boundary example: a job sent at 1 000 ms, a video dated exactly
    [FALLBACK_WINDOW_MS] later and one dated a second after that. *)
Definition boundaryJob : PendingJobInfo := exampleJob "edge" 500 1000 2000000 3 0.

Definition atBoundary : VideoMessageInfo := videoMessageInfo 0 (exampleVideo 21 "edge" 121).

Definition pastBoundary : VideoMessageInfo := videoMessageInfo 0 (exampleVideo 22 "late" 122).

(** A background event that stores a job under the id [k]. *)
Definition registers (k : jsstring) (b : Background) : Prop :=
  match b with
  | Registration req => req_jobId req = k
  | _ => False
  end.

(** A process with a client, a running loop and the jobs [jobs] pending, at
    time [now]; and an awaited call during which nothing else happens. *)
Definition exampleState (jobs : list PendingJobInfo) (now : Z) : State :=
  set_clock now
    (set_nextPromise (length jobs)
       (set_poller true 1 (set_clientReady true (set_pendingJobs jobs initialState)))).

Definition quiet {A} (a : A) : Await A := {| during := []; answer := Some a |}.

(** A job one poll short of the threshold at the start of a cycle, and an
    unmarked video dated a second after the job was sent. *)
Definition nearlyReadyJob : PendingJobInfo := exampleJob "c" 900 1000 2000000 2 0.

Definition unmarkedVideo : Message := exampleVideo 31 "your video" 2.

(** ** Readings of the trace *)

(** The promises settled so far, resolved or rejected. *)
Fixpoint settledPromises (t : list Effect) : list nat :=
  match t with
  | [] => []
  | Resolved p _ :: t' => p :: settledPromises t'
  | Rejected p _ :: t' => p :: settledPromises t'
  | _ :: t' => settledPromises t'
  end.

(** The message ids jobs were resolved with. *)
Fixpoint resolvedMessageIds (t : list Effect) : list Z :=
  match t with
  | [] => []
  | Resolved _ r :: t' => msg_id (res_message r) :: resolvedMessageIds t'
  | _ :: t' => resolvedMessageIds t'
  end.

(** The message ids put to the reservation store that came back with an
    answer, won or lost. *)
Fixpoint answeredClaimIds (t : list Effect) : list Z :=
  match t with
  | [] => []
  | Claimed messageId _ _ (Some _) :: t' => messageId :: answeredClaimIds t'
  | _ :: t' => answeredClaimIds t'
  end.

(** The number of messages fetched so far. *)
Fixpoint fetchedCount (t : list Effect) : Z :=
  match t with
  | [] => 0
  | Fetched batch :: t' => Z.of_nat (length batch) + fetchedCount t'
  | _ :: t' => fetchedCount t'
  end.

(** Every resolution carries the number of messages fetched before it. *)
Fixpoint totalsCumulative (t : list Effect) : Prop :=
  match t with
  | [] => True
  | Resolved _ r :: t' =>
      res_totalMessagesScanned r = fetchedCount t' ∧ totalsCumulative t'
  | _ :: t' => totalsCumulative t'
  end.

(** The state in which an awaited call to the reservation store comes back:
    the answer is consumed and the background events have run. *)
Definition afterAwait (w : Await bool) (rest : list (Await bool)) (s : State) : State :=
  backgrounds (during w) (set_store rest s).

Definition addReserved (messageId : Z) (s : State) : State :=
  set_reservedMessageIds ({[messageId]} ∪ reservedMessageIds s) s.

Definition dropPending (k : jsstring) (s : State) : State :=
  set_pendingJobs (Map_delete k (pendingJobs s)) s.

(** The result delivered to a job resolved with [info] in state [s]. *)
Definition resultFor (info : VideoMessageInfo) (method : MatchingMethod) (s : State)
    : MatchingResult :=
  {| res_message := info_message info;
     res_matchingMethod := method;
     res_totalMessagesScanned := totalMessagesScanned s |}.

(** ** Invariants of a run *)

(** The registry and the settlements: ids and promises of pending jobs are
    pairwise distinct, every promise in use was created, no promise is
    settled twice and no pending job is settled. *)
Record InvSettle (s : State) : Prop := {
  inv_ids : NoDup (map jobId (pendingJobs s));
  inv_promises : NoDup (map promise (pendingJobs s));
  inv_pending_created : ∀ j, j ∈ pendingJobs s → (promise j < nextPromise s)%nat;
  inv_settled_created : ∀ p, p ∈ settledPromises (trace s) → (p < nextPromise s)%nat;
  inv_settled_once : NoDup (settledPromises (trace s));
  inv_pending_unsettled : ∀ j, j ∈ pendingJobs s → promise j ∉ settledPromises (trace s);
}.

(** The reservations: an id the store answered for, and an id a job was
    resolved with, is in the cache, and neither occurs twice. *)
Record InvClaim (s : State) : Prop := {
  inv_answered_cached : ∀ id, id ∈ answeredClaimIds (trace s) → id ∈ reservedMessageIds s;
  inv_answered_once : NoDup (answeredClaimIds (trace s));
  inv_resolved_cached : ∀ id, id ∈ resolvedMessageIds (trace s) → id ∈ reservedMessageIds s;
  inv_resolved_once : NoDup (resolvedMessageIds (trace s));
}.

(** The counter: it is the number of messages fetched, and so was it at
    every resolution. *)
Record InvCount (s : State) : Prop := {
  inv_total : totalMessagesScanned s = fetchedCount (trace s);
  inv_totals : totalsCumulative (trace s);
}.

(** The loop: at most one instance is alive, and none while the flag is
    clear. *)
Record InvLoop (s : State) : Prop := {
  inv_one_loop : (loops s ≤ 1)%nat;
  inv_idle : pollerRunning s = false → loops s = 0%nat;
}.

Record Inv (s : State) : Prop := {
  inv_settle : InvSettle s;
  inv_claim : InvClaim s;
  inv_count : InvCount s;
  inv_loop : InvLoop s;
}.

(** A job object that may still be settled: its promise was created and is
    not settled, and an entry of the registry with that promise is stored
    under the job's id. *)
Record Fresh (job : PendingJobInfo) (s : State) : Prop := {
  fresh_unsettled : promise job ∉ settledPromises (trace s);
  fresh_created : (promise job < nextPromise s)%nat;
  fresh_entry : ∀ j, j ∈ pendingJobs s → promise j = promise job → jobId j = jobId job;
}.

(** [s1] is [s] after an awaited call: the answers left to the store may
    have changed and background events have run. *)
Definition afterBackground (s s1 : State) : Prop :=
  ∃ bs v, s1 = backgrounds bs (set_store v s).

(** What only grows along a run: the counter, the trace (at its newest
    end), the cache, the clock and the number of promises; and the client,
    once stored, stays. *)
Record Grows (s s' : State) : Prop := {
  grows_total : totalMessagesScanned s ≤ totalMessagesScanned s';
  grows_trace : ∃ new, trace s' = new ++ trace s;
  grows_reserved : reservedMessageIds s ⊆ reservedMessageIds s';
  grows_clock : clock s ≤ clock s';
  grows_promise : (nextPromise s ≤ nextPromise s')%nat;
  grows_client : clientReady s = true → clientReady s' = true;
}.

(** ** Example runs *)

Definition exampleRequest (id : string) (created sent : Z) : JobRequest :=
  {| req_jobId := lit id; req_requestMessageId := 1;
     req_jobCreatedAt := created; req_sentAt := sent |}.

(** A text message without media. *)
Definition exampleNote (i : Z) (text : string) : Message :=
  {| msg_id := i; msg_message := Some (lit text); msg_media := None;
     msg_date := DateSeconds 1 |}.

(** Job [a1] is registered and a first cycle fetches two notes; then job
    [b1] is registered and a second cycle fetches a video marked for [b1] and
    a video marked for [a1]; the store grants both claims. *)
Definition twoJobsRun : list Event :=
  [ Outside ClientAcquired;
    Outside (Elapse 1000);
    Outside (Registration (exampleRequest "a1" 900 1000));
    LoopTurn {| fetch := quiet [exampleNote 1 "hello"; exampleNote 2 "wait"];
                claims := [] |};
    Outside (Elapse 1000);
    Outside (Registration (exampleRequest "b1" 1900 2000));
    LoopTurn {| fetch := quiet [exampleVideo 7 "done [JOB_ID: b1]" 3;
                                exampleVideo 8 "done [JOB_ID: a1]" 3];
                claims := [quiet true; quiet true] |} ].



(** A registration starts the loop, a cycle resolves the job, and the next
    turn finds no job pending and ends the loop. *)
Definition exitedRun : list Event :=
  [ Outside ClientAcquired;
    Outside (Registration (exampleRequest "a1" 900 1000));
    LoopTurn {| fetch := quiet [exampleVideo 8 "done [JOB_ID: a1]" 3];
                claims := [quiet true] |};
    LoopTurn {| fetch := quiet []; claims := [] |} ].

(** ** Following one job through a cycle *)

(** No task that runs during the call registers a job under the id [k]. *)
Definition quietAwait {A} (k : jsstring) (w : Await A) : Prop :=
  Forall (λ b, ¬ registers k b) (during w).

Definition quietStore (k : jsstring) (answers : list (Await bool)) : Prop :=
  Forall (quietAwait k) answers.

(** The entry stored under the job's id is this job, its poll count apart. *)
Definition Pending (job : PendingJobInfo) (s : State) : Prop :=
  ∃ j, Map_get (jobId job) (pendingJobs s) = Some j
       ∧ promise j = promise job ∧ deadline j = deadline job.

(** Since the state [s0] the job was settled, resolved with a match or
    rejected for its timeout, and nothing is stored under its id. *)
Definition Done (job : PendingJobInfo) (s0 s : State) : Prop :=
  Map_get (jobId job) (pendingJobs s) = None
  ∧ ∃ new, trace s = new ++ trace s0
           ∧ ((∃ r, Resolved (promise job) r ∈ new)
              ∨ Rejected (promise job) (jobId job) ∈ new).

(** The job is followed from [s0] to [s]: through calls that registered
    nothing under its id it is still pending or it is done. *)
Record Tracked (job : PendingJobInfo) (s0 s : State) : Prop := {
  tracked_grows : Grows s0 s;
  tracked_quiet : quietStore (jobId job) (store s);
  tracked_state : Pending job s ∨ Done job s0 s;
}.

(** A job whose deadline has passed at time 5 000 ms, and a video marked
    for it. *)
Definition expiredJob : PendingJobInfo := exampleJob "d" 900 1000 4000 0 0.

Definition markedForExpired : Message := exampleVideo 41 "here [JOB_ID: d]" 3.

(** A job registered at time 0, so due at 1 800 000 ms, in a process whose
    clock shows 1 900 000 ms. *)
Definition overdueState : State :=
  run defaultConfig
    [ Outside ClientAcquired;
      Outside (Registration (exampleRequest "d" 900 1000));
      Outside (Elapse 1900000) ]
    initialState.

Definition overdueJob : PendingJobInfo := exampleJob "d" 900 1000 1800000 0 0.

(** ** Notions for the further properties *)

(** The characters the pattern captures from a non-empty run [r] of
    characters other than [']'] that a [']'] follows: the run without its
    leading white space, or its last character when it is all white space. *)
Fixpoint captureOf (r : jsstring) : jsstring :=
  match r with
  | [] => []
  | c :: r' =>
      if isWhiteSpace c
      then match r' with [] => [c] | _ :: _ => captureOf r' end
      else r
  end.

(** The jobs the sweep rejects at time [now], and those it keeps. *)
Definition overdue (now : Z) (job : PendingJobInfo) : bool := now >? deadline job.

Definition rejection (job : PendingJobInfo) : Effect :=
  Rejected (promise job) (jobId job).

(** ** What a state knows of one promise *)

(** The promise [p] was created, and every entry of the registry that holds
    it satisfies [P]. *)
Record About (p : nat) (P : PendingJobInfo → Prop) (s : State) : Prop := {
  about_created : (p < nextPromise s)%nat;
  about_pending : ∀ x, x ∈ pendingJobs s → promise x = p → P x;
}.

(** Every effect since the trace [t0] satisfies [Q]. *)
Definition Since (t0 : list Effect) (Q : Effect → Prop) (s : State) : Prop :=
  ∃ new, trace s = new ++ t0 ∧ Forall Q new.

(** The effects of one call of [attemptAssignment]. *)
Definition attemptEffect (job : PendingJobInfo) (info : VideoMessageInfo)
    (method : MatchingMethod) (e : Effect) : Prop :=
  match e with
  | Claimed i k m _ =>
      i = msg_id (info_message info) ∧ k = jobId job ∧ m = method
  | Resolved p r =>
      p = promise job ∧ res_message r = info_message info
      ∧ res_matchingMethod r = method
  | _ => False
  end.

(** The effect settles the promise [p]. *)
Definition settles (p : nat) (e : Effect) : Prop :=
  match e with
  | Resolved q _ | Rejected q _ => q = p
  | _ => False
  end.

(** A promise no call settles any more: it was created, no entry of the
    registry holds it, and it has not been settled since [t0]. *)
Definition Abandoned (p : nat) (t0 : list Effect) (s : State) : Prop :=
  About p (λ _, False) s ∧ Since t0 (λ e, ¬ settles p e) s.

(** The effect is neither a call to the store for the message [id] nor a
    resolution with it. *)
Definition notAbout (id : Z) (e : Effect) : Prop :=
  match e with
  | Claimed i _ _ _ => i ≠ id
  | Resolved _ r => msg_id (res_message r) ≠ id
  | _ => True
  end.

(** The message [id] is cached as reserved and has been left alone since
    [t0]. *)
Definition Untouched (id : Z) (t0 : list Effect) (s : State) : Prop :=
  id ∈ reservedMessageIds s ∧ Since t0 (notAbout id) s.

(** The promise [p] belongs to a job due at [d], and since [t0] it has not
    been rejected unless the clock has passed [d]. *)
Definition NotEarly (p : nat) (d : Z) (t0 : list Effect) (s : State) : Prop :=
  About p (λ x, deadline x = d) s
  ∧ (d < clock s ∨ Since t0 (λ e, ∀ k, e ≠ Rejected p k) s).

(** The number of turns of the loop among the events. *)
Fixpoint turns (events : list Event) : Z :=
  match events with
  | [] => 0
  | LoopTurn _ :: rest => 1 + turns rest
  | _ :: rest => turns rest
  end.

(** The promise [p] belongs to a job counted at most [c] times, and since
    [t0] it has been resolved by its marker only. *)
Definition Counted (p : nat) (c : Z) (t0 : list Effect) (s : State) : Prop :=
  About p (λ x, pollCount x ≤ c) s
  ∧ Since t0 (λ e, ∀ r, e = Resolved p r → res_matchingMethod r = ByJobId) s.

(** The process of [overdueState] before time passes: job [d] was
    registered at time 0 and is not yet due. *)
Definition registeredState : State :=
  run defaultConfig
    [ Outside ClientAcquired;
      Outside (Registration (exampleRequest "d" 900 1000)) ]
    initialState.

(** The job id the text of a message is marked with. *)
Definition markerOf (m : Message) : option jsstring :=
  extractJobIdFromText (getMessageFullText m).

(** What lets a cycle bind the message [m] to the job id [k] by [method]:
    by job id, the marker of [m] names [k]; by timestamp, [m] carries no
    marker, or an empty one. *)
Definition justifies (method : MatchingMethod) (k : jsstring) (m : Message) : Prop :=
  match method with
  | ByJobId => k ≠ [] ∧ markerOf m = Some k
  | ByTimestamp => markerOf m = None ∨ markerOf m = Some []
  end.

(** The effects the phases of a cycle may have on the batch it fetched. *)
Definition cycleEffect (batch : list Message) (e : Effect) : Prop :=
  match e with
  | Fetched _ => False
  | Claimed i k method _ =>
      ∃ m, m ∈ batch ∧ isVideoMessage m = true ∧ msg_id m = i ∧ justifies method k m
  | Resolved _ r =>
      res_message r ∈ batch ∧ isVideoMessage (res_message r) = true
      ∧ ∃ k, justifies (res_matchingMethod r) k (res_message r)
  | Rejected _ _ => True
  end.

(** What a resolution with [r] owes to a job stored under [k] whose
    reference time is [target]. *)
Definition matches (cfg : Config) (k : jsstring) (target : Z) (r : MatchingResult)
    : Prop :=
  isVideoMessage (res_message r) = true
  ∧ match res_matchingMethod r with
    | ByJobId => markerOf (res_message r) = Some k
    | ByTimestamp =>
        (markerOf (res_message r) = None ∨ markerOf (res_message r) = Some [])
        ∧ ∃ now, timeDiff target (videoMessageInfo now (res_message r))
                 ≤ FALLBACK_WINDOW_MS cfg
    end.

(** The promise [p] belongs to a job stored under [k] with reference time
    [target], and every resolution of it since [t0] matches that job. *)
Definition Served (cfg : Config) (p : nat) (k : jsstring) (target : Z)
    (t0 : list Effect) (s : State) : Prop :=
  About p (λ x, jobId x = k ∧ targetTimestamp x = target) s
  ∧ Since t0 (λ e, ∀ r, e = Resolved p r → matches cfg k target r) s.

(** The loop is alive and flagged as running. *)
Definition Alive (s : State) : Prop :=
  loops s = 1%nat ∧ pollerRunning s = true.

(** A message with a video whose body is the outbound content of a job. *)
Definition echoVideo (i : Z) (prompt id : jsstring) : Message :=
  {| msg_id := i;
     msg_message := Some (addJobIdToPrompt prompt id);
     msg_media :=
       Some {| media_kind := MessageMediaDocument (Some (Document [DocumentAttributeVideo]));
               media_caption := CaptionString (lit "enjoy") |};
     msg_date := DateSeconds 3 |}.

(** A download whose file mode throws and whose buffer mode gives three
    bytes; the match it is for, and the result it returns. *)
Definition fileModeThrows : Download.Answers :=
  {| Download.fileMode := {| Download.went := id; Download.came := None |};
     Download.settle := id;
     Download.bufferMode :=
       {| Download.went := id; Download.came := Some (Some [1; 2; 3]%N) |};
     Download.writeThrows := false |}.

Definition exampleMatch : MatchingResult :=
  {| res_message := exampleVideo 7 "done [JOB_ID: a1]" 3;
     res_matchingMethod := ByJobId;
     res_totalMessagesScanned := 2 |}.

Definition exampleResult : Download.SyntxResult :=
  {| Download.localPath := lit "downloads/a1.mp4";
     Download.requestMessageId := 11;
     Download.videoMessageId := 7;
     Download.matchingMethod := ByJobId;
     Download.totalMessagesScanned := 2 |}.

(** A turn of the loop on one video marked for job [d], in which [during]
    is what happens while [getMessages] is awaited and [claim] is the answer
    of the store to the one claim. *)
Definition markedTurn (during : list Background) (claim : Await bool) : Cycle :=
  {| fetch := {| during := during;
                 answer := Some [exampleVideo 7 "done [JOB_ID: d]" 3] |};
     claims := [claim] |}.

(** * Properties *)

(** ** The marker *)

Example extract_plain :
  extractJobIdFromText (lit "video ready [JOB_ID:   a1 ] enjoy") = Some (lit "a1").
Proof. reflexivity. Qed.

Example extract_blank :
  extractJobIdFromText (lit "[JOB_ID:   ]") = Some [].
Proof. reflexivity. Qed.

Example extract_none :
  extractJobIdFromText (lit "[JOB_ID:]") = None.
Proof. reflexivity. Qed.


Lemma stripPrefix_app (p s : jsstring) : stripPrefix p (p ++ s) = Some s.
Proof.
  induction p as [|a p IH]; simpl; [done|].
  by rewrite N.eqb_refl.
Qed.

Lemma stripPrefix_LF (p s t : jsstring) :
  LF ∉ p → stripPrefix p s = None → stripPrefix p (s ++ LF :: t) = None.
Proof.
  revert s. induction p as [|a p IH]; intros s Hp Hs; simpl in *; [done|].
  apply not_elem_of_cons in Hp as [Ha Hp].
  destruct s as [|b s]; simpl.
  - destruct (N.eqb_spec a LF); [congruence | done].
  - destruct (a =? b)%N; [by apply IH | done].
Qed.

Lemma stripPrefix_Some_app (p s r t : jsstring) :
  stripPrefix p s = Some r → stripPrefix p (s ++ t) = Some (r ++ t).
Proof.
  revert s. induction p as [|a p IH]; intros s Hs; simpl in *.
  - by simplify_eq.
  - destruct s as [|b s]; [done|]. simpl.
    destruct (a =? b)%N; [by apply IH | done].
Qed.

Lemma isWhiteSpace_notRBracket (c : N) : isWhiteSpace c = true → notRBracket c = true.
Proof.
  unfold notRBracket. destruct (N.eqb_spec c RBRACKET) as [->|]; [|done].
  by vm_compute.
Qed.

Lemma closeBracket_notRBracket (g : jsstring) (c : N) (s : jsstring) :
  notRBracket c = true → closeBracket g (c :: s) = None.
Proof.
  unfold notRBracket, closeBracket. by destruct (c =? RBRACKET)%N.
Qed.

Lemma closeBracket_afterRun (g s : jsstring) :
  closeBracket g (afterRun s) = match afterRun s with [] => None | _ => Some g end.
Proof.
  induction s as [|c s IH]; simpl; [done|].
  destruct (notRBracket c) eqn:Hc; [done|].
  unfold notRBracket in Hc. simpl. by destruct (c =? RBRACKET)%N.
Qed.

Lemma greedyStar_cons {A} (cls : N → bool) (c : N) (s : jsstring)
    (k : jsstring → jsstring → option A) :
  greedyStar cls (c :: s) k
  = if cls c then
      match greedyStar cls s (λ taken rest, k (c :: taken) rest) with
      | Some a => Some a
      | None => k [] (c :: s)
      end
    else k [] (c :: s).
Proof. reflexivity. Qed.

(** Against a closing bracket only the longest run of [[^\]]] can succeed, so
    the greedy search ends at it. *)
Lemma greedyStar_run (f : jsstring → jsstring) (s : jsstring) :
  greedyStar notRBracket s (λ taken rest, closeBracket (f taken) rest)
  = closeBracket (f (runNotRBracket s)) (afterRun s).
Proof.
  revert f. induction s as [|c s IH]; intros f; simpl; [done|].
  destruct (notRBracket c) eqn:Hc; [|done].
  rewrite (IH (λ taken, f (c :: taken))).
  destruct (closeBracket _ (afterRun s)); [done|].
  exact (closeBracket_notRBracket (f []) c s Hc).
Qed.

Lemma greedyPlus_run (s : jsstring) :
  greedyPlus notRBracket s closeBracket
  = match runNotRBracket s with
    | [] => None
    | g => closeBracket g (afterRun s)
    end.
Proof.
  destruct s as [|c s]; simpl; [done|].
  destruct (notRBracket c); [|done].
  apply (greedyStar_run (λ taken, c :: taken)).
Qed.

(** The tail of the pattern fails exactly when no character stands between
    the opening and the next [']'], or when there is no [']'] at all. *)
Lemma matchTail_None (r0 : jsstring) :
  matchTail r0 = None ↔ runNotRBracket r0 = [] ∨ afterRun r0 = [].
Proof.
  unfold matchTail. induction r0 as [|c r IH]; simpl; [intuition congruence|].
  destruct (isWhiteSpace c) eqn:Hws.
  - rewrite (isWhiteSpace_notRBracket c Hws).
    destruct (greedyStar isWhiteSpace r _) eqn:Hin.
    + split; [done|]. intros [?|Hr]; [done|].
      assert (Some j = None) as ?; [|done]. apply IH. by right.
    + rewrite (greedyStar_run (λ taken, c :: taken)), closeBracket_afterRun.
      destruct (afterRun r); intuition congruence.
  - destruct (notRBracket c) eqn:Hc; [|intuition congruence].
    rewrite (greedyStar_run (λ taken, c :: taken)), closeBracket_afterRun.
    destruct (afterRun r); intuition congruence.
Qed.

Lemma runNotRBracket_app (j t : jsstring) :
  forallb notRBracket j = true →
  runNotRBracket (j ++ RBRACKET :: t) = j ∧ afterRun (j ++ RBRACKET :: t) = RBRACKET :: t.
Proof.
  induction j as [|c j IH]; simpl; [done|].
  intros [Hc Hj]%andb_prop. rewrite Hc.
  destruct (IH Hj) as [-> ->]. done.
Qed.

Lemma afterRun_nil_forallb (r : jsstring) :
  afterRun r = [] ↔ forallb notRBracket r = true.
Proof.
  induction r as [|c r IH]; simpl; [done|].
  destruct (notRBracket c); simpl; [done|]. split; done.
Qed.

Lemma runNotRBracket_nil_app (r t : jsstring) :
  r ≠ [] → runNotRBracket r = [] → runNotRBracket (r ++ t) = [].
Proof.
  destruct r as [|c r]; [done|]. simpl. by destruct (notRBracket c).
Qed.

(** The marker itself, read at its opening bracket. *)
Lemma matchMarkerAt_marker (jobId : jsstring) :
  jobId ≠ [] →
  forallb notRBracket jobId = true →
  (∀ c, head jobId = Some c → isWhiteSpace c = false) →
  matchMarkerAt (lit "[JOB_ID: " ++ jobId ++ lit "]") = Some jobId.
Proof.
  intros Hne Hnb Hhd. destruct jobId as [|c j]; [done|].
  change (lit "[JOB_ID: ") with (lit "[JOB_ID:" ++ [32%N]).
  unfold matchMarkerAt. rewrite <- app_assoc, stripPrefix_app.
  unfold matchTail. simpl app.
  rewrite greedyStar_cons. change (isWhiteSpace 32%N) with true. cbv iota.
  rewrite greedyStar_cons, (Hhd c eq_refl). cbv beta iota.
  rewrite greedyPlus_run.
  change (c :: j ++ lit "]") with ((c :: j) ++ RBRACKET :: []).
  destruct (runNotRBracket_app (c :: j) [] Hnb) as [-> ->]. done.
Qed.

(** A position of the prompt that matches nothing and opens no unclosed
    marker still matches nothing when the marker is appended. *)
Lemma matchMarkerAt_extend (s t : jsstring) :
  matchMarkerAt s = None →
  (∀ r, stripPrefix (lit "[JOB_ID:") s = Some r → forallb notRBracket r = false) →
  matchMarkerAt (s ++ LF :: t) = None.
Proof.
  unfold matchMarkerAt. intros Hm Hclosed.
  destruct (stripPrefix (lit "[JOB_ID:") s) as [r|] eqn:Hs.
  - rewrite (stripPrefix_Some_app _ _ _ _ Hs).
    specialize (Hclosed r eq_refl).
    apply matchTail_None in Hm as [Hrun|Hafter].
    + apply matchTail_None. left. apply runNotRBracket_nil_app; [|done].
      intros ->. done.
    + apply afterRun_nil_forallb in Hafter. congruence.
  - rewrite stripPrefix_LF; [done| |done]. vm_compute.
    repeat (apply not_elem_of_cons; split; [done|]). apply not_elem_of_nil.
Qed.

Lemma regexSearch_cons (c : N) (text : jsstring) :
  regexSearch (c :: text)
  = match matchMarkerAt (c :: text) with
    | Some group => Some group
    | None => regexSearch text
    end.
Proof. reflexivity. Qed.

Lemma hasUnclosedMarker_cons (c : N) (s : jsstring) :
  hasUnclosedMarker (c :: s)
  = match stripPrefix (lit "[JOB_ID:") (c :: s) with
    | Some r => if forallb notRBracket r then true else hasUnclosedMarker s
    | None => hasUnclosedMarker s
    end.
Proof. reflexivity. Qed.

Lemma regexSearch_extend (prompt t : jsstring) :
  regexSearch prompt = None →
  hasUnclosedMarker prompt = false →
  regexSearch (prompt ++ LF :: t) = regexSearch (LF :: t).
Proof.
  induction prompt as [|c p IH]; intros Hs Hu; [reflexivity|].
  rewrite regexSearch_cons in Hs.
  destruct (matchMarkerAt (c :: p)) eqn:Hm; [done|].
  assert (hasUnclosedMarker p = false
          ∧ ∀ r, stripPrefix (lit "[JOB_ID:") (c :: p) = Some r →
                 forallb notRBracket r = false) as [Hu' Hcl].
  { rewrite hasUnclosedMarker_cons in Hu.
    destruct (stripPrefix (lit "[JOB_ID:") (c :: p)) as [r|].
    - destruct (forallb notRBracket r) eqn:Hr; [done|].
      split; [done|]. by intros ? [= <-].
    - split; [done|]. intros; done. }
  change ((c :: p) ++ LF :: t) with (c :: (p ++ LF :: t)).
  rewrite regexSearch_cons.
  change (c :: (p ++ LF :: t)) with ((c :: p) ++ LF :: t).
  rewrite (matchMarkerAt_extend _ _ Hm Hcl). by apply IH.
Qed.

Lemma trim_id (s : jsstring) :
  (∀ c, head s = Some c → isWhiteSpace c = false) →
  (∀ c, last s = Some c → isWhiteSpace c = false) →
  trim s = s.
Proof.
  intros Hh Hl. unfold trim, trimEnd.
  assert (∀ l : jsstring, (∀ c, head l = Some c → isWhiteSpace c = false) →
                          trimStart l = l) as Hstart.
  { intros [|c l] H; [done|]. simpl. by rewrite (H c eq_refl). }
  rewrite (Hstart s Hh), Hstart, reverse_involutive; [done|].
  intros c. rewrite head_reverse. apply Hl.
Qed.

Lemma regexSearch_here (s g : jsstring) :
  matchMarkerAt s = Some g → regexSearch s = Some g.
Proof.
  intros H. destruct s as [|c s]; [done|].
  by rewrite regexSearch_cons, H.
Qed.

(** C9 as stated fails: the prompt [[JOB_ID:] holds no marker (the
    extraction finds none in it), the job id [x] is non-empty, has no [']']
    and no outer white space, and yet the id read back from the outbound
    content is [[JOB_ID: x], because the unclosed opening of the prompt is
    closed by the bracket of the appended marker. *)
Lemma marker_roundtrip_unclosed_opening_counterexample :
  extractJobIdFromText (lit "[JOB_ID:") = None
  ∧ lit "x" ≠ []
  ∧ forallb notRBracket (lit "x") = true
  ∧ noOuterWhiteSpace (lit "x") = true
  ∧ extractJobIdFromText (addJobIdToPrompt (lit "[JOB_ID:") (lit "x"))
    = Some (lit "[JOB_ID: x")
  ∧ extractJobIdFromText (addJobIdToPrompt (lit "[JOB_ID:") (lit "x"))
    ≠ Some (lit "x").
Proof. repeat split; done. Qed.

(** C9 (amended): for every prompt in which the extraction finds no marker
    and in which every opening [[JOB_ID:] is followed by a [']'] further on in
    the prompt, and for every non-empty job id without [']'] and without
    leading or trailing white space, the id extracted from
    [addJobIdToPrompt prompt jobId] is exactly that job id. *)
Theorem marker_roundtrip (prompt jobId : jsstring) :
  extractJobIdFromText prompt = None →
  hasUnclosedMarker prompt = false →
  jobId ≠ [] →
  forallb notRBracket jobId = true →
  noOuterWhiteSpace jobId = true →
  extractJobIdFromText (addJobIdToPrompt prompt jobId) = Some jobId.
Proof.
  intros Hnone Hclosed Hne Hnb [Hhd Hlast]%andb_prop.
  assert (regexSearch prompt = None) as Hsearch.
  { unfold extractJobIdFromText in Hnone. by destruct (regexSearch prompt). }
  assert (∀ c, head jobId = Some c → isWhiteSpace c = false) as Hhd'.
  { intros c Hc. rewrite Hc in Hhd. simpl in Hhd. by destruct (isWhiteSpace c). }
  assert (∀ c, last jobId = Some c → isWhiteSpace c = false) as Hlast'.
  { intros c Hc. rewrite Hc in Hlast. simpl in Hlast. by destruct (isWhiteSpace c). }
  unfold extractJobIdFromText, addJobIdToPrompt. cbv zeta.
  change (prompt ++ [LF; LF] ++ ?m) with (prompt ++ LF :: LF :: m).
  rewrite (regexSearch_extend prompt _ Hsearch Hclosed).
  rewrite !regexSearch_cons.
  change (matchMarkerAt (LF :: LF :: ?m)) with (@None jsstring).
  change (matchMarkerAt (LF :: ?m)) with (@None jsstring). cbv iota.
  rewrite (regexSearch_here (lit "[JOB_ID: " ++ jobId ++ lit "]") jobId)
    by by apply matchMarkerAt_marker.
  by rewrite trim_id.
Qed.

Lemma marker_roundtrip_witness :
  extractJobIdFromText (addJobIdToPrompt (lit "a cat [JOB_ID:] on a mat") (lit "job 7"))
  = Some (lit "job 7").
Proof. apply marker_roundtrip; reflexivity || (by vm_compute). Defined.

(** ** Fallback selection *)

Section selection.
Context (window : Z) (reserved : gset Z) (target : Z).

(** One step of the search. *)
Lemma selectClosest_cons i c rest best :
  selectClosest window reserved target i (c :: rest) best
  = selectClosest window reserved target (S i) rest
      (if bool_decide (msg_id (info_message c) ∈ reserved) then best
       else if (timeDiff target c <=? window)
               && match best with
                  | None => true
                  | Some (_, _, bestDiff) => timeDiff target c <? bestDiff
                  end
            then Some (i, c, timeDiff target c)
            else best).
Proof. reflexivity. Qed.

Lemma lookup_snoc_inv (seen : list VideoMessageInfo) c j c' :
  (seen ++ [c]) !! j = Some c' →
  seen !! j = Some c' ∨ (j = length seen ∧ c' = c).
Proof.
  intros Hj. apply lookup_app_Some in Hj as [?|[? Hj]]; [by left|right].
  apply list_lookup_singleton_Some in Hj as [? ->]. split; [lia|done].
Qed.

(** A candidate that is skipped leaves [best] as it is. *)
Lemma bestOf_skip seen c best :
  bestOf window reserved target seen best →
  (eligible window reserved target c →
   match best with
   | None => False
   | Some (_, _, d) => d ≤ timeDiff target c
   end) →
  bestOf window reserved target (seen ++ [c]) best.
Proof.
  intros Hbest Hc. destruct best as [[[k b] d]|]; simpl in *.
  - destruct Hbest as (Hk & Hd & Hel & Hmin & Hfirst).
    pose proof (lookup_lt_Some _ _ _ Hk) as Hlt.
    split_and!; [by apply lookup_app_l_Some|done|done| |].
    + intros j c' [Hj|[-> ->]]%lookup_snoc_inv Hun; [by eapply Hmin|].
      destruct (Z.le_gt_cases (timeDiff target c) window) as [Hle|Hgt].
      * by apply Hc.
      * destruct Hel as [_ ?]. lia.
    + intros j c' [Hj|[-> ->]]%lookup_snoc_inv Hun Hjk; [by eapply Hfirst|lia].
  - intros c' [?|Hx%list_elem_of_singleton]%elem_of_app; [by apply Hbest|subst c'].
    intros Hel. by apply Hc.
Qed.

(** A candidate that is taken is strictly closer than [best]. *)
Lemma bestOf_take seen c best :
  bestOf window reserved target seen best →
  eligible window reserved target c →
  match best with None => True | Some (_, _, d) => timeDiff target c < d end →
  bestOf window reserved target (seen ++ [c]) (Some (length seen, c, timeDiff target c)).
Proof.
  intros Hbest Hel Hlt. simpl.
  split_and!; [by apply list_lookup_middle|done|done| |].
  - intros j c' [Hj|[-> ->]]%lookup_snoc_inv Hun; [|lia].
    destruct best as [[[k b] d]|]; simpl in *.
    + destruct Hbest as (_ & _ & _ & Hmin & _). specialize (Hmin _ _ Hj Hun). lia.
    + destruct (Z.le_gt_cases (timeDiff target c') window) as [Hle|Hgt].
      * destruct (Hbest c'); [by eapply list_elem_of_lookup_2|done].
      * destruct Hel as [_ ?]. lia.
  - intros j c' [Hj|[-> ->]]%lookup_snoc_inv Hun Hjk; [|lia].
    destruct best as [[[k b] d]|]; simpl in *.
    + destruct Hbest as (_ & _ & _ & Hmin & _). specialize (Hmin _ _ Hj Hun). lia.
    + destruct (Z.le_gt_cases (timeDiff target c') window) as [Hle|Hgt].
      * destruct (Hbest c'); [by eapply list_elem_of_lookup_2|done].
      * destruct Hel as [_ ?]. lia.
Qed.

Lemma bestOf_step seen c best :
  bestOf window reserved target seen best →
  bestOf window reserved target (seen ++ [c])
    (if bool_decide (msg_id (info_message c) ∈ reserved) then best
     else if (timeDiff target c <=? window)
             && match best with
                | None => true
                | Some (_, _, bestDiff) => timeDiff target c <? bestDiff
                end
          then Some (length seen, c, timeDiff target c)
          else best).
Proof.
  intros Hbest. case_bool_decide as Hres.
  { apply bestOf_skip; [done|]. intros [Hun _]. by destruct Hun. }
  destruct (timeDiff target c <=? window) eqn:Hw; simpl.
  - apply Z.leb_le in Hw.
    assert (eligible window reserved target c) as Hel by done.
    destruct best as [[[k b] d]|].
    + destruct (timeDiff target c <? d) eqn:Hc.
      * apply Z.ltb_lt in Hc. by apply (bestOf_take seen c (Some (k, b, d))).
      * apply Z.ltb_ge in Hc. by apply bestOf_skip.
    + by apply (bestOf_take seen c None).
  - apply Z.leb_gt in Hw. apply bestOf_skip; [done|]. intros [_ ?]. lia.
Qed.

Lemma selectClosest_bestOf seen rest best :
  bestOf window reserved target seen best →
  bestOf window reserved target (seen ++ rest) (selectClosest window reserved target (length seen) rest best).
Proof.
  revert seen best. induction rest as [|c rest IH]; intros seen best Hbest.
  - by rewrite app_nil_r.
  - rewrite selectClosest_cons.
    replace (seen ++ c :: rest) with ((seen ++ [c]) ++ rest) by by rewrite <- app_assoc.
    replace (S (length seen)) with (length (seen ++ [c]))
      by (rewrite length_app; simpl; lia).
    apply IH. by apply bestOf_step.
Qed.
End selection.

Lemma filterVideoMessages_elem (now : Z) (messages : list Message) (c : VideoMessageInfo) :
  c ∈ filterVideoMessages now messages →
  isVideoMessage (info_message c) = true ∧ info_message c ∈ messages.
Proof.
  induction messages as [|m ms IH]; simpl; [by intros ?%elem_of_nil|].
  destruct (isVideoMessage m) eqn:Hm.
  - intros [->|Hc]%elem_of_cons.
    + split; [done|]. apply elem_of_cons. by left.
    + destruct (IH Hc). split; [done|]. apply elem_of_cons. by right.
  - intros Hc. destruct (IH Hc). split; [done|]. apply elem_of_cons. by right.
Qed.

Lemma fallbackPool_elem (now : Z) (messages : list Message) (c : VideoMessageInfo) :
  c ∈ fallbackPool now messages →
  isVideoMessage (info_message c) = true ∧ noMark c = true.
Proof.
  unfold fallbackPool. rewrite list_elem_of_In, filter_In, <- list_elem_of_In.
  intros [[? _]%filterVideoMessages_elem ?]. done.
Qed.

(** The fallback search started from nothing returns the first among the
    closest eligible candidates. *)
Lemma selectFallback_bestOf (cfg : Config) (reserved : gset Z)
    (candidates : list VideoMessageInfo) (job : PendingJobInfo) :
  bestOf (FALLBACK_WINDOW_MS cfg) reserved (targetTimestamp job) candidates
    (selectFallback cfg reserved candidates job).
Proof.
  apply (selectClosest_bestOf _ _ _ [] candidates None).
  by intros c ?%elem_of_nil.
Qed.

(** What the loop of phase B does with one job. *)
Lemma fallbackLoop_cons (cfg : Config) (candidates : list VideoMessageInfo)
    (job : PendingJobInfo) (rest : list PendingJobInfo) :
  fallbackLoop cfg candidates (job :: rest)
  = (reserved ← gets reservedMessageIds;
     match selectFallback cfg reserved candidates job with
     | None => fallbackLoop cfg candidates rest
     | Some (i, selected, _) =>
         attemptAssignment job selected ByTimestamp;;
         fallbackLoop cfg (delete i candidates) rest
     end).
Proof. reflexivity. Qed.

(** C1 as stated fails: the reference time is not [max(sentAt, createdAt)].
    For a job sent at 1 000 ms with a creation time of 500 000 ms the
    fallback selects the video dated 1 000 ms, which is 499 000 ms away from
    the maximum of the two times and so outside the window around it, and
    passes over the video dated 500 000 ms, which is the closest to that
    maximum. *)
Lemma fallback_reference_time_counterexample :
  let pool := fallbackPool 0 lateCreatedBatch in
  let reference := Z.max (sentAt lateCreatedJob) (jobCreatedAt lateCreatedJob) in
  (∃ first second, pool = [first; second]
     ∧ selectFallback defaultConfig ∅ pool lateCreatedJob = Some (0%nat, first, 0)
     ∧ FALLBACK_WINDOW_MS defaultConfig < timeDiff reference first
     ∧ unreserved ∅ second
     ∧ timeDiff reference second = 0).
Proof.
  eexists _, _. split; [reflexivity|].
  split; [by vm_compute|]. split; [by vm_compute|].
  split; [|by vm_compute]. unfold unreserved. apply not_elem_of_empty.
Qed.

(** C1 (amended): in phase B the candidate selected for a fallback-ready job
    is an artifact-bearing candidate without marker that is not cached as
    reserved, whose timestamp is the closest to the reference time
    [sentAt || createdAt] (the send time, or the creation time when the send
    time is 0) among the unreserved candidates of the pool, the first such in
    batch order, and it is selected only if its absolute time difference is
    within [FALLBACK_WINDOW_MS]; no candidate is selected only when every
    unreserved candidate is outside the window. *)
Theorem fallback_selects_closest (cfg : Config) (reserved : gset Z) (now : Z)
    (messages : list Message) (candidates : list VideoMessageInfo)
    (job : PendingJobInfo) :
  sublist candidates (fallbackPool now messages) →
  match selectFallback cfg reserved candidates job with
  | Some (i, selected, bestDiff) =>
      candidates !! i = Some selected
      ∧ isVideoMessage (info_message selected) = true
      ∧ noMark selected = true
      ∧ unreserved reserved selected
      ∧ bestDiff = timeDiff (targetTimestamp job) selected
      ∧ bestDiff ≤ FALLBACK_WINDOW_MS cfg
      ∧ (∀ j c, candidates !! j = Some c → unreserved reserved c →
                bestDiff ≤ timeDiff (targetTimestamp job) c)
      ∧ (∀ j c, candidates !! j = Some c → unreserved reserved c →
                (j < i)%nat → bestDiff < timeDiff (targetTimestamp job) c)
  | None =>
      ∀ c, c ∈ candidates → unreserved reserved c →
           FALLBACK_WINDOW_MS cfg < timeDiff (targetTimestamp job) c
  end.
Proof.
  intros Hsub. pose proof (selectFallback_bestOf cfg reserved candidates job) as Hbest.
  destruct (selectFallback cfg reserved candidates job) as [[[i selected] bestDiff]|];
    simpl in Hbest.
  - destruct Hbest as (Hi & Hd & [Hun Hw] & Hmin & Hfirst).
    assert (selected ∈ fallbackPool now messages) as [? ?]%fallbackPool_elem.
    { eapply elem_of_sublist; [|done]. by eapply list_elem_of_lookup_2. }
    split_and!; try done. lia.
  - intros c Hc Hun. destruct (Z.le_gt_cases (timeDiff (targetTimestamp job) c)
                                 (FALLBACK_WINDOW_MS cfg)) as [Hle|Hgt]; [|lia].
    destruct (Hbest c Hc). done.
Qed.

Lemma fallback_selects_closest_witness :
  match selectFallback defaultConfig ∅ (fallbackPool 0 lateCreatedBatch) lateCreatedJob with
  | Some (i, selected, bestDiff) =>
      fallbackPool 0 lateCreatedBatch !! i = Some selected
      ∧ isVideoMessage (info_message selected) = true
      ∧ noMark selected = true
      ∧ unreserved ∅ selected
      ∧ bestDiff = timeDiff (targetTimestamp lateCreatedJob) selected
      ∧ bestDiff ≤ FALLBACK_WINDOW_MS defaultConfig
      ∧ (∀ j c, fallbackPool 0 lateCreatedBatch !! j = Some c → unreserved ∅ c →
                bestDiff ≤ timeDiff (targetTimestamp lateCreatedJob) c)
      ∧ (∀ j c, fallbackPool 0 lateCreatedBatch !! j = Some c → unreserved ∅ c →
                (j < i)%nat → bestDiff < timeDiff (targetTimestamp lateCreatedJob) c)
  | None =>
      ∀ c, c ∈ fallbackPool 0 lateCreatedBatch → unreserved ∅ c →
           FALLBACK_WINDOW_MS defaultConfig < timeDiff (targetTimestamp lateCreatedJob) c
  end.
Proof.
  apply (fallback_selects_closest defaultConfig ∅ 0 lateCreatedBatch). reflexivity.
Defined.

(** C7: in the fallback a candidate whose absolute time difference from the
    job's reference time equals [FALLBACK_WINDOW_MS] exactly is eligible: with
    it in the pool and not cached as reserved a candidate is selected, and it
    is the one selected when every other unreserved candidate is outside the
    window.  A selected candidate is never further than [FALLBACK_WINDOW_MS]
    from the reference time. *)
Theorem fallback_window_boundary (cfg : Config) (reserved : gset Z)
    (candidates : list VideoMessageInfo) (job : PendingJobInfo) :
  (∀ i c,
     candidates !! i = Some c →
     unreserved reserved c →
     timeDiff (targetTimestamp job) c = FALLBACK_WINDOW_MS cfg →
     is_Some (selectFallback cfg reserved candidates job)
     ∧ ((∀ j c', j ≠ i → candidates !! j = Some c' → unreserved reserved c' →
                 FALLBACK_WINDOW_MS cfg < timeDiff (targetTimestamp job) c') →
        selectFallback cfg reserved candidates job
        = Some (i, c, FALLBACK_WINDOW_MS cfg)))
  ∧ (∀ i c d,
       selectFallback cfg reserved candidates job = Some (i, c, d) →
       timeDiff (targetTimestamp job) c ≤ FALLBACK_WINDOW_MS cfg).
Proof.
  pose proof (selectFallback_bestOf cfg reserved candidates job) as Hbest.
  split.
  - intros i c Hi Hun Hdiff.
    destruct (selectFallback cfg reserved candidates job) as [[[k s] d]|];
      simpl in Hbest.
    + destruct Hbest as (Hk & Hd & [Hs Hw] & Hmin & Hfirst).
      split; [by eexists|]. intros Hothers.
      destruct (decide (k = i)) as [->|Hne].
      * rewrite Hi in Hk. injection Hk as <-. by rewrite Hd, Hdiff.
      * specialize (Hothers k s Hne Hk Hs). lia.
    + destruct (Hbest c); [by eapply list_elem_of_lookup_2|]. split; [done|lia].
  - intros i c d Hsel. rewrite Hsel in Hbest. simpl in Hbest.
    by destruct Hbest as (_ & _ & [_ ?] & _).
Qed.

Lemma fallback_window_boundary_witness :
  selectFallback defaultConfig ∅ [pastBoundary; atBoundary] boundaryJob
  = Some (1%nat, atBoundary, FALLBACK_WINDOW_MS defaultConfig)
  ∧ timeDiff (targetTimestamp boundaryJob) atBoundary ≤ FALLBACK_WINDOW_MS defaultConfig.
Proof.
  destruct (fallback_window_boundary defaultConfig ∅ [pastBoundary; atBoundary] boundaryJob)
    as [Hat Hnever].
  assert (selectFallback defaultConfig ∅ [pastBoundary; atBoundary] boundaryJob
          = Some (1%nat, atBoundary, FALLBACK_WINDOW_MS defaultConfig)) as Hsel.
  { apply (Hat 1%nat atBoundary); [reflexivity|apply not_elem_of_empty|reflexivity|].
    intros [|[|j]] c' Hj Hc' _; [|done|done].
    injection Hc' as <-. by vm_compute. }
  split; [exact Hsel|]. exact (Hnever _ _ _ Hsel).
Defined.

Example fallback_past_boundary_not_selected :
  selectFallback defaultConfig ∅ [pastBoundary] boundaryJob = None.
Proof. reflexivity. Qed.

(** ** The threshold of the fallback *)

Lemma fallbackReady_spec (cfg : Config) (job : PendingJobInfo) :
  fallbackReady cfg job = true ↔ FALLBACK_POLLS_THRESHOLD cfg ≤ pollCount job.
Proof. unfold fallbackReady. rewrite Z.geb_le. done. Qed.

(** C2 as stated fails: a pending job whose [pollCount] is
    [FALLBACK_POLLS_THRESHOLD - 1] at the start of a cycle is fallback-ready
    in that same cycle, because the count is incremented before it is
    compared; with an unmarked video in the batch the job is resolved by
    timestamp in that cycle. *)
Lemma threshold_boundary_counterexample :
  let s := exampleState [nearlyReadyJob] 5000 in
  pollCount nearlyReadyJob = FALLBACK_POLLS_THRESHOLD defaultConfig - 1
  ∧ fst (collectFallbackReadyJobs defaultConfig s) = Normal [bumpPollCount nearlyReadyJob]
  ∧ ∃ result,
      trace (snd (pollOnce defaultConfig (quiet [unmarkedVideo]) (set_store [quiet true] s)))
      = [Resolved (promise nearlyReadyJob) result;
         Claimed 31 (jobId nearlyReadyJob) ByTimestamp (Some true);
         Fetched [unmarkedVideo]]
      ∧ res_matchingMethod result = ByTimestamp.
Proof.
  split; [reflexivity|]. split; [reflexivity|].
  eexists. split; [by vm_compute|reflexivity].
Qed.

(** C2 (amended): [collectFallbackReadyJobs] first adds one to the
    [pollCount] of every pending job and then compares, so a job is
    fallback-ready in a cycle exactly when its [pollCount] at the start of the
    cycle is at least [FALLBACK_POLLS_THRESHOLD - 1].  A job that starts the
    cycle with [FALLBACK_POLLS_THRESHOLD - 2] is not ready in it and leaves the
    check with [FALLBACK_POLLS_THRESHOLD - 1]; a job that starts a cycle with
    [FALLBACK_POLLS_THRESHOLD - 1] is ready in that cycle. *)
Theorem fallback_threshold_boundary (cfg : Config) (s : State) (job : PendingJobInfo) :
  job ∈ pendingJobs s →
  ∃ ready,
    collectFallbackReadyJobs cfg s
    = (Normal ready, set_pendingJobs (map bumpPollCount (pendingJobs s)) s)
    ∧ bumpPollCount job ∈ map bumpPollCount (pendingJobs s)
    ∧ pollCount (bumpPollCount job) = pollCount job + 1
    ∧ (bumpPollCount job ∈ ready ↔ FALLBACK_POLLS_THRESHOLD cfg - 1 ≤ pollCount job)
    ∧ (pollCount job = FALLBACK_POLLS_THRESHOLD cfg - 2 → bumpPollCount job ∉ ready)
    ∧ (pollCount job = FALLBACK_POLLS_THRESHOLD cfg - 1 → bumpPollCount job ∈ ready).
Proof.
  intros Hjob. eexists. split; [reflexivity|].
  assert (bumpPollCount job ∈ map bumpPollCount (pendingJobs s)) as Hin.
  { by apply (list_elem_of_fmap_2 bumpPollCount). }
  assert (bumpPollCount job ∈ List.filter (fallbackReady cfg) (map bumpPollCount (pendingJobs s))
          ↔ FALLBACK_POLLS_THRESHOLD cfg - 1 ≤ pollCount job) as Hready.
  { rewrite list_elem_of_In, filter_In, <- list_elem_of_In, fallbackReady_spec.
    simpl. split; [intros [_ ?]; lia|]. intros ?. split; [done|lia]. }
  split_and!; [done|done|done| |].
  - intros Hp. rewrite Hready. lia.
  - intros Hp. rewrite Hready. lia.
Qed.

Lemma fallback_threshold_boundary_witness :
  ∃ ready,
    collectFallbackReadyJobs defaultConfig (exampleState [nearlyReadyJob] 5000)
    = (Normal ready,
       set_pendingJobs (map bumpPollCount [nearlyReadyJob]) (exampleState [nearlyReadyJob] 5000))
    ∧ bumpPollCount nearlyReadyJob ∈ ready.
Proof.
  destruct (fallback_threshold_boundary defaultConfig (exampleState [nearlyReadyJob] 5000)
              nearlyReadyJob) as (ready & Heq & _ & _ & _ & _ & Hready).
  { apply list_elem_of_singleton. reflexivity. }
  exists ready. split; [exact Heq|]. apply Hready. reflexivity.
Defined.

(** ** One assignment attempt *)

Lemma bind_run {A B} (m : Async A) (f : A → Async B) (s : State) :
  (m ≫= f) s
  = match m s with
    | (Normal a, s') => f a s'
    | (Thrown, s') => (Thrown, s')
    end.
Proof. reflexivity. Qed.

Section attempt.
Context (job : PendingJobInfo) (info : VideoMessageInfo) (method : MatchingMethod).

(** The id is cached as reserved: nothing happens. *)
Lemma attemptAssignment_cached (s : State) :
  msg_id (info_message info) ∈ reservedMessageIds s →
  attemptAssignment job info method s = (Normal tt, s).
Proof.
  intros Hin. unfold attemptAssignment. rewrite bind_run. unfold gets.
  by rewrite bool_decide_eq_true_2.
Qed.

(** The store rejects the call: the attempt throws with the registry and the
    cache as the background left them. *)
Lemma attemptAssignment_rejected (s : State) (w : Await bool) (rest : list (Await bool)) :
  msg_id (info_message info) ∉ reservedMessageIds s →
  store s = w :: rest →
  answer w = None →
  attemptAssignment job info method s
  = (Thrown, emit (Claimed (msg_id (info_message info)) (jobId job) method None) (afterAwait w rest s)).
Proof.
  intros Hin Hstore Hw. unfold attemptAssignment. rewrite bind_run. unfold gets.
  rewrite bool_decide_eq_false_2 by done. rewrite bind_run.
  unfold reserveSyntaxMessageId. by rewrite Hstore, Hw.
Qed.

Lemma attemptAssignment_no_answer (s : State) :
  msg_id (info_message info) ∉ reservedMessageIds s →
  store s = [] →
  attemptAssignment job info method s
  = (Thrown, emit (Claimed (msg_id (info_message info)) (jobId job) method None) s).
Proof.
  intros Hin Hstore. unfold attemptAssignment. rewrite bind_run. unfold gets.
  rewrite bool_decide_eq_false_2 by done. rewrite bind_run.
  unfold reserveSyntaxMessageId. by rewrite Hstore.
Qed.

(** The claim is lost: the id is cached, nothing else changes. *)
Lemma attemptAssignment_lost (s : State) (w : Await bool) (rest : list (Await bool)) :
  msg_id (info_message info) ∉ reservedMessageIds s →
  store s = w :: rest →
  answer w = Some false →
  attemptAssignment job info method s
  = (Normal tt,
     addReserved (msg_id (info_message info))
       (emit (Claimed (msg_id (info_message info)) (jobId job) method (Some false)) (afterAwait w rest s))).
Proof.
  intros Hin Hstore Hw. unfold attemptAssignment. rewrite bind_run. unfold gets.
  rewrite bool_decide_eq_false_2 by done. rewrite bind_run.
  unfold reserveSyntaxMessageId. by rewrite Hstore, Hw.
Qed.

(** The claim is won: the id is cached, the entry stored under the job's id
    is deleted and the job is resolved. *)
Lemma attemptAssignment_won (s : State) (w : Await bool) (rest : list (Await bool)) :
  msg_id (info_message info) ∉ reservedMessageIds s →
  store s = w :: rest →
  answer w = Some true →
  attemptAssignment job info method s
  = (Normal tt,
     let s1 := dropPending (jobId job)
                 (addReserved (msg_id (info_message info))
                    (emit (Claimed (msg_id (info_message info)) (jobId job) method (Some true))
                       (afterAwait w rest s))) in
     emit (Resolved (promise job) (resultFor info method s1)) s1).
Proof.
  intros Hin Hstore Hw. unfold attemptAssignment. rewrite bind_run. unfold gets.
  rewrite bool_decide_eq_false_2 by done. rewrite bind_run.
  unfold reserveSyntaxMessageId. by rewrite Hstore, Hw.
Qed.
End attempt.

(** ** What the background leaves alone *)

Lemma Map_get_set_ne (k : jsstring) (j : PendingJobInfo) (m : list PendingJobInfo) :
  jobId j ≠ k → Map_get k (Map_set j m) = Map_get k m.
Proof.
  intros Hne. induction m as [|x m IH]; simpl.
  - by rewrite decide_False.
  - destruct (decide (jobId x = jobId j)) as [Hx|Hx]; simpl.
    + rewrite decide_False by done. by rewrite decide_False by congruence.
    + destruct (decide (jobId x = k)); [done|apply IH].
Qed.

Lemma background_trace (b : Background) (s : State) : trace (background b s) = trace s.
Proof.
  destruct b; simpl; try done.
  unfold waitForVideoViaPoller, ensurePolling. simpl.
  destruct (clientReady s); [|done]. by destruct (pollerRunning s).
Qed.

Lemma background_store (b : Background) (s : State) : store (background b s) = store s.
Proof.
  destruct b; simpl; try done.
  unfold waitForVideoViaPoller, ensurePolling. simpl.
  destruct (clientReady s); [|done]. by destruct (pollerRunning s).
Qed.

Lemma background_total (b : Background) (s : State) :
  totalMessagesScanned (background b s) = totalMessagesScanned s.
Proof.
  destruct b; simpl; try done.
  unfold waitForVideoViaPoller, ensurePolling. simpl.
  destruct (clientReady s); [|done]. by destruct (pollerRunning s).
Qed.

Lemma background_reserved (b : Background) (s : State) :
  reservedMessageIds s ⊆ reservedMessageIds (background b s).
Proof.
  destruct b; simpl; try done.
  - unfold waitForVideoViaPoller, ensurePolling. simpl.
    destruct (clientReady s); [|done]. by destruct (pollerRunning s).
  - apply union_subseteq_r.
Qed.

Lemma background_pending_other (k : jsstring) (b : Background) (s : State) :
  ¬ registers k b →
  Map_get k (pendingJobs (background b s)) = Map_get k (pendingJobs s).
Proof.
  destruct b as [|req| |]; simpl; try done. intros Hne.
  unfold waitForVideoViaPoller, ensurePolling. simpl.
  destruct (clientReady s); [|done].
  destruct (pollerRunning s); simpl; by apply Map_get_set_ne.
Qed.

Lemma backgrounds_trace (bs : list Background) (s : State) :
  trace (backgrounds bs s) = trace s.
Proof.
  revert s. induction bs as [|b bs IH]; intros s; simpl; [done|].
  by rewrite IH, background_trace.
Qed.

Lemma backgrounds_store (bs : list Background) (s : State) :
  store (backgrounds bs s) = store s.
Proof.
  revert s. induction bs as [|b bs IH]; intros s; simpl; [done|].
  by rewrite IH, background_store.
Qed.

Lemma backgrounds_total (bs : list Background) (s : State) :
  totalMessagesScanned (backgrounds bs s) = totalMessagesScanned s.
Proof.
  revert s. induction bs as [|b bs IH]; intros s; simpl; [done|].
  by rewrite IH, background_total.
Qed.

Lemma backgrounds_reserved (bs : list Background) (s : State) :
  reservedMessageIds s ⊆ reservedMessageIds (backgrounds bs s).
Proof.
  revert s. induction bs as [|b bs IH]; intros s; simpl; [done|].
  etrans; [apply (background_reserved b)|apply IH].
Qed.

Lemma backgrounds_pending_other (k : jsstring) (bs : list Background) (s : State) :
  Forall (λ b, ¬ registers k b) bs →
  Map_get k (pendingJobs (backgrounds bs s)) = Map_get k (pendingJobs s).
Proof.
  revert s. induction bs as [|b bs IH]; intros s Hbs; simpl; [done|].
  apply Forall_cons in Hbs as [Hb Hbs].
  by rewrite IH, background_pending_other.
Qed.

(** The answers of the store play no part in what the background does. *)
Lemma background_set_store (b : Background) (v : list (Await bool)) (s : State) :
  background b (set_store v s) = set_store v (background b s).
Proof.
  destruct b; simpl; try done.
  unfold waitForVideoViaPoller, ensurePolling. simpl.
  destruct (clientReady s); [|done]. by destruct (pollerRunning s).
Qed.

Lemma backgrounds_set_store (bs : list Background) (v : list (Await bool)) (s : State) :
  backgrounds bs (set_store v s) = set_store v (backgrounds bs s).
Proof.
  revert s. induction bs as [|b bs IH]; intros s; simpl; [done|].
  by rewrite background_set_store, IH.
Qed.

(** C6: when the claim for a proposed binding comes back lost, the attempt
    completes, the message id is in the reserved-id cache, the trace gains the
    claim and no settlement, and the registry is the one the tasks that ran
    during the call left: the attempt deletes nothing, and when no such task
    registered a job under the same id the entry of the job is what it was. *)
Theorem lost_claim_leaves_job_pending (job : PendingJobInfo) (info : VideoMessageInfo)
    (method : MatchingMethod) (s : State) (w : Await bool) (rest : list (Await bool)) :
  msg_id (info_message info) ∉ reservedMessageIds s →
  store s = w :: rest →
  answer w = Some false →
  fst (attemptAssignment job info method s) = Normal tt
  ∧ msg_id (info_message info)
    ∈ reservedMessageIds (snd (attemptAssignment job info method s))
  ∧ trace (snd (attemptAssignment job info method s))
    = Claimed (msg_id (info_message info)) (jobId job) method (Some false) :: trace s
  ∧ settledPromises (trace (snd (attemptAssignment job info method s)))
    = settledPromises (trace s)
  ∧ pendingJobs (snd (attemptAssignment job info method s))
    = pendingJobs (backgrounds (during w) s)
  ∧ (Forall (λ b, ¬ registers (jobId job) b) (during w) →
     Map_get (jobId job) (pendingJobs (snd (attemptAssignment job info method s)))
     = Map_get (jobId job) (pendingJobs s)).
Proof.
  intros Hfree Hstore Hlost.
  rewrite (attemptAssignment_lost job info method s w rest Hfree Hstore Hlost).
  unfold afterAwait. rewrite backgrounds_set_store. simpl.
  split_and!; [done|set_solver| | |done|].
  - by rewrite backgrounds_trace.
  - by rewrite backgrounds_trace.
  - apply backgrounds_pending_other.
Qed.

Lemma lost_claim_leaves_job_pending_witness :
  let s := set_store [quiet false] (exampleState [nearlyReadyJob] 5000) in
  let info := videoMessageInfo 0 unmarkedVideo in
  fst (attemptAssignment nearlyReadyJob info ByTimestamp s) = Normal tt
  ∧ msg_id (info_message info)
    ∈ reservedMessageIds (snd (attemptAssignment nearlyReadyJob info ByTimestamp s))
  ∧ trace (snd (attemptAssignment nearlyReadyJob info ByTimestamp s))
    = Claimed (msg_id (info_message info)) (jobId nearlyReadyJob) ByTimestamp (Some false)
      :: trace s
  ∧ settledPromises (trace (snd (attemptAssignment nearlyReadyJob info ByTimestamp s)))
    = settledPromises (trace s)
  ∧ pendingJobs (snd (attemptAssignment nearlyReadyJob info ByTimestamp s))
    = pendingJobs (backgrounds [] s)
  ∧ (Forall (λ b, ¬ registers (jobId nearlyReadyJob) b) [] →
     Map_get (jobId nearlyReadyJob)
       (pendingJobs (snd (attemptAssignment nearlyReadyJob info ByTimestamp s)))
     = Map_get (jobId nearlyReadyJob) (pendingJobs s)).
Proof.
  apply (lost_claim_leaves_job_pending nearlyReadyJob (videoMessageInfo 0 unmarkedVideo)
           ByTimestamp (set_store [quiet false] (exampleState [nearlyReadyJob] 5000))
           (quiet false) []).
  - apply not_elem_of_empty.
  - reflexivity.
  - reflexivity.
Defined.

(** ** The registry *)

Lemma Map_delete_elem (k : jsstring) (m : list PendingJobInfo) (x : PendingJobInfo) :
  x ∈ Map_delete k m ↔ x ∈ m ∧ jobId x ≠ k.
Proof.
  induction m as [|y m IH]; simpl.
  - split; [by intros ?%elem_of_nil|by intros [?%elem_of_nil _]].
  - destruct (decide (jobId y = k)) as [Hy|Hy].
    + rewrite IH, elem_of_cons. split.
      * intros [? ?]. split; [by right|done].
      * intros [[->|?] ?]; [done|by split].
    + rewrite !elem_of_cons, IH. split.
      * intros [->|[? ?]]; [by split; [left|]|by split; [right|]].
      * intros [[->|?] ?]; [by left|right; by split].
Qed.

Lemma Map_delete_sublist (k : jsstring) (m : list PendingJobInfo) :
  sublist (Map_delete k m) m.
Proof.
  induction m as [|y m IH]; simpl; [constructor|].
  destruct (decide (jobId y = k)); by constructor.
Qed.

Lemma Map_delete_get (k : jsstring) (m : list PendingJobInfo) :
  Map_get k (Map_delete k m) = None.
Proof.
  induction m as [|y m IH]; simpl; [done|].
  destruct (decide (jobId y = k)); [done|]. simpl. by rewrite decide_False.
Qed.

Lemma Map_delete_get_ne (k k' : jsstring) (m : list PendingJobInfo) :
  k ≠ k' → Map_get k' (Map_delete k m) = Map_get k' m.
Proof.
  intros Hne. induction m as [|y m IH]; simpl; [done|].
  destruct (decide (jobId y = k)) as [Hy|Hy]; simpl.
  - rewrite decide_False by congruence. done.
  - by rewrite IH.
Qed.

Lemma Map_get_elem (k : jsstring) (m : list PendingJobInfo) (j : PendingJobInfo) :
  Map_get k m = Some j → j ∈ m ∧ jobId j = k.
Proof.
  induction m as [|y m IH]; simpl; [done|].
  destruct (decide (jobId y = k)).
  - intros [= ->]. split; [by left|done].
  - intros [? ?]%IH. split; [by right|done].
Qed.

Lemma Map_get_NoDup (m : list PendingJobInfo) (j : PendingJobInfo) :
  NoDup (map jobId m) → j ∈ m → Map_get (jobId j) m = Some j.
Proof.
  induction m as [|y m IH]; simpl; [by intros _ ?%elem_of_nil|].
  intros [Hy Hm]%NoDup_cons [->|Hj]%elem_of_cons.
  - by rewrite decide_True.
  - rewrite decide_False; [by apply IH|].
    intros Heq. apply Hy. rewrite Heq. apply list_elem_of_In, in_map.
    by apply list_elem_of_In.
Qed.

Lemma Map_set_elem (j : PendingJobInfo) (m : list PendingJobInfo) (x : PendingJobInfo) :
  x ∈ Map_set j m → x = j ∨ x ∈ m.
Proof.
  induction m as [|y m IH]; simpl.
  - intros ->%list_elem_of_singleton. by left.
  - destruct (decide (jobId y = jobId j)).
    + intros [->|?]%elem_of_cons; [by left|right; by right].
    + intros [->|[->|?]%IH]%elem_of_cons; [right; by left|by left|right; by right].
Qed.

Lemma Map_set_ids (j : PendingJobInfo) (m : list PendingJobInfo) :
  NoDup (map jobId m) → NoDup (map jobId (Map_set j m)).
Proof.
  induction m as [|y m IH]; simpl.
  - intros _. apply NoDup_singleton.
  - intros [Hy Hm]%NoDup_cons. destruct (decide (jobId y = jobId j)) as [Heq|Hne]; simpl.
    + apply NoDup_cons. by rewrite <- Heq.
    + apply NoDup_cons. split; [|by apply IH].
      intros Hin. apply list_elem_of_In, in_map_iff in Hin as (x & Hx & Hin).
      apply list_elem_of_In, Map_set_elem in Hin as [->|Hin]; [done|].
      apply Hy. rewrite <- Hx. by apply list_elem_of_In, in_map, list_elem_of_In.
Qed.

Lemma Map_set_promises (j : PendingJobInfo) (m : list PendingJobInfo) :
  NoDup (map promise m) →
  (∀ x, x ∈ m → promise x ≠ promise j) →
  NoDup (map promise (Map_set j m)).
Proof.
  induction m as [|y m IH]; simpl.
  - intros _ _. apply NoDup_singleton.
  - intros [Hy Hm]%NoDup_cons Hj.
    destruct (decide (jobId y = jobId j)) as [Heq|Hne]; simpl.
    + apply NoDup_cons. split; [|done].
      intros Hin. apply list_elem_of_In, in_map_iff in Hin as (x & Hx & Hin).
      apply (Hj x); [right; by apply list_elem_of_In|done].
    + apply NoDup_cons. split.
      * intros Hin. apply list_elem_of_In, in_map_iff in Hin as (x & Hx & Hin).
        apply list_elem_of_In, Map_set_elem in Hin as [->|Hin].
        -- apply (Hj y); [by left|done].
        -- apply Hy. rewrite <- Hx. by apply list_elem_of_In, in_map, list_elem_of_In.
      * apply IH; [done|]. intros x Hx. apply Hj. by right.
Qed.

Lemma sublist_map {A B} (f : A → B) (l1 l2 : list A) :
  sublist l1 l2 → sublist (map f l1) (map f l2).
Proof. induction 1; simpl; by constructor. Qed.

Lemma filter_sublist {A} (f : A → bool) (l : list A) : sublist (List.filter f l) l.
Proof.
  induction l as [|x l IH]; simpl; [constructor|].
  destruct (f x); by constructor.
Qed.

Lemma map_bumpPollCount_jobId (m : list PendingJobInfo) :
  map jobId (map bumpPollCount m) = map jobId m.
Proof. induction m as [|x m IH]; simpl; [done|]. by rewrite IH. Qed.

Lemma map_bumpPollCount_promise (m : list PendingJobInfo) :
  map promise (map bumpPollCount m) = map promise m.
Proof. induction m as [|x m IH]; simpl; [done|]. by rewrite IH. Qed.

Lemma elem_of_map_bumpPollCount (m : list PendingJobInfo) (x : PendingJobInfo) :
  x ∈ map bumpPollCount m ↔ ∃ y, y ∈ m ∧ x = bumpPollCount y.
Proof.
  rewrite list_elem_of_In, in_map_iff. split.
  - intros (y & <- & ?). exists y. by rewrite list_elem_of_In.
  - intros (y & ? & ->). exists y. by rewrite <- list_elem_of_In.
Qed.

(** ** Readings of the trace, one effect at a time *)

Lemma settledPromises_settle (e : Effect) (t : list Effect) (p : nat) :
  settledPromises [e] = [p] → settledPromises (e :: t) = p :: settledPromises t.
Proof. destruct e; simpl; intros [= <-] || intros [=]; done. Qed.

(** ** Changes that leave an invariant alone *)

Lemma InvSettle_frame (s s' : State) :
  sublist (pendingJobs s') (pendingJobs s) →
  (nextPromise s ≤ nextPromise s')%nat →
  settledPromises (trace s') = settledPromises (trace s) →
  InvSettle s → InvSettle s'.
Proof.
  intros Hsub Hnext Htrace [Hids Hpr Hpc Hsc Hso Hpu].
  assert (∀ j, j ∈ pendingJobs s' → j ∈ pendingJobs s) as Hin.
  { intros j Hj. by eapply elem_of_sublist. }
  split; rewrite ?Htrace.
  - eapply sublist_NoDup; [exact Hids|]. by apply sublist_map.
  - eapply sublist_NoDup; [exact Hpr|]. by apply sublist_map.
  - intros j Hj. specialize (Hpc j (Hin j Hj)). lia.
  - intros p Hp. specialize (Hsc p Hp). lia.
  - done.
  - intros j Hj. by apply Hpu, Hin.
Qed.

Lemma Fresh_frame (job : PendingJobInfo) (s s' : State) :
  sublist (pendingJobs s') (pendingJobs s) →
  (nextPromise s ≤ nextPromise s')%nat →
  settledPromises (trace s') = settledPromises (trace s) →
  Fresh job s → Fresh job s'.
Proof.
  intros Hsub Hnext Htrace [Hu Hc He]. split; rewrite ?Htrace; [done|lia|].
  intros j Hj. apply He. by eapply elem_of_sublist.
Qed.

Lemma InvClaim_frame (s s' : State) :
  reservedMessageIds s ⊆ reservedMessageIds s' →
  answeredClaimIds (trace s') = answeredClaimIds (trace s) →
  resolvedMessageIds (trace s') = resolvedMessageIds (trace s) →
  InvClaim s → InvClaim s'.
Proof.
  intros Hres Ha Hr [Hac Hao Hrc Hro]. split; rewrite ?Ha, ?Hr; [|done| |done].
  - intros id Hid. by apply Hres, Hac.
  - intros id Hid. by apply Hres, Hrc.
Qed.

Lemma InvLoop_frame (s s' : State) :
  loops s' = loops s → pollerRunning s' = pollerRunning s → InvLoop s → InvLoop s'.
Proof. intros Hl Hp [H1 H2]. split; rewrite Hl, ?Hp; done. Qed.

(** ** Settling a job *)

(** Deleting the entry under the job's id and settling its promise. *)
Lemma settle_InvSettle (e : Effect) (job : PendingJobInfo) (s : State) :
  settledPromises [e] = [promise job] →
  InvSettle s → Fresh job s →
  InvSettle (emit e (dropPending (jobId job) s)).
Proof.
  intros He [Hids Hpr Hpc Hsc Hso Hpu] [Hu Hc Hent].
  split; cbn [emit dropPending set_pendingJobs trace pendingJobs nextPromise];
    rewrite ?(settledPromises_settle e _ _ He).
  - eapply sublist_NoDup; [exact Hids|]. apply sublist_map, Map_delete_sublist.
  - eapply sublist_NoDup; [exact Hpr|]. apply sublist_map, Map_delete_sublist.
  - intros j [Hj _]%Map_delete_elem. by apply Hpc.
  - intros p [->|Hp]%elem_of_cons; [done|by apply Hsc].
  - by apply NoDup_cons.
  - intros j [Hj Hne]%Map_delete_elem [Heq|Hin]%elem_of_cons.
    + by apply Hne, Hent.
    + by apply (Hpu j).
Qed.

Lemma settle_Fresh (e : Effect) (job r : PendingJobInfo) (s : State) :
  settledPromises [e] = [promise job] →
  promise r ≠ promise job →
  Fresh r s →
  Fresh r (emit e (dropPending (jobId job) s)).
Proof.
  intros He Hne [Hu Hc Hent].
  split; cbn [emit dropPending set_pendingJobs trace pendingJobs nextPromise];
    rewrite ?(settledPromises_settle e _ _ He).
  - intros [?|?]%elem_of_cons; done.
  - done.
  - intros j [Hj _]%Map_delete_elem. by apply Hent.
Qed.

Lemma elem_of_map_2 {A B} (f : A → B) (l : list A) (x : A) : x ∈ l → f x ∈ map f l.
Proof. rewrite !list_elem_of_In. apply in_map. Qed.

Lemma NoDup_map_inj {A B} (f : A → B) (l : list A) (x y : A) :
  NoDup (map f l) → x ∈ l → y ∈ l → f x = f y → x = y.
Proof.
  induction l as [|a l IH]; simpl; [by intros _ ?%elem_of_nil|].
  intros [Ha Hl]%NoDup_cons [->|Hx]%elem_of_cons [->|Hy]%elem_of_cons Heq.
  - done.
  - destruct Ha. rewrite Heq. by apply elem_of_map_2.
  - destruct Ha. rewrite <- Heq. by apply elem_of_map_2.
  - by apply IH.
Qed.

(** A pending job may still be settled. *)
Lemma pending_Fresh (job : PendingJobInfo) (s : State) :
  InvSettle s → job ∈ pendingJobs s → Fresh job s.
Proof.
  intros [Hids Hpr Hpc Hsc Hso Hpu] Hjob. split; [by apply Hpu|by apply Hpc|].
  intros j Hj Heq. f_equal. by apply (NoDup_map_inj promise (pendingJobs s)).
Qed.

Lemma InvCount_frame (s s' : State) :
  totalMessagesScanned s' = totalMessagesScanned s →
  fetchedCount (trace s') = fetchedCount (trace s) →
  (totalsCumulative (trace s) → totalsCumulative (trace s')) →
  InvCount s → InvCount s'.
Proof. intros Ht Hf Hc [H1 H2]. split; [congruence|by apply Hc]. Qed.

(** ** The background keeps the invariants *)

Lemma ensurePolling_InvLoop (s : State) : InvLoop s → InvLoop (ensurePolling s).
Proof.
  intros [H1 H2]. unfold ensurePolling.
  destruct (pollerRunning s) eqn:Hp; [split; [done|congruence]|].
  split; simpl; [rewrite H2; [lia|done]|done].
Qed.

Lemma ensurePolling_fields (s : State) :
  pendingJobs (ensurePolling s) = pendingJobs s
  ∧ nextPromise (ensurePolling s) = nextPromise s
  ∧ trace (ensurePolling s) = trace s
  ∧ reservedMessageIds (ensurePolling s) = reservedMessageIds s
  ∧ totalMessagesScanned (ensurePolling s) = totalMessagesScanned s.
Proof. unfold ensurePolling. by destruct (pollerRunning s). Qed.

(** Storing a job with a promise of its own. *)
Lemma register_InvSettle (job : PendingJobInfo) (s : State) :
  promise job = nextPromise s →
  InvSettle s →
  InvSettle (set_pendingJobs (Map_set job (pendingJobs s))
               (set_nextPromise (S (nextPromise s)) s)).
Proof.
  intros Hp [Hids Hpr Hpc Hsc Hso Hpu]. split; simpl.
  - by apply Map_set_ids.
  - apply Map_set_promises; [done|]. intros x Hx. specialize (Hpc x Hx). lia.
  - intros j [->|Hj]%Map_set_elem; [lia|]. specialize (Hpc j Hj). lia.
  - intros p Hpin. specialize (Hsc p Hpin). lia.
  - done.
  - intros j [->|Hj]%Map_set_elem; [|by apply Hpu].
    intros Hin. specialize (Hsc _ Hin). lia.
Qed.

Lemma register_Fresh (job r : PendingJobInfo) (s : State) :
  promise job = nextPromise s →
  Fresh r s →
  Fresh r (set_pendingJobs (Map_set job (pendingJobs s))
             (set_nextPromise (S (nextPromise s)) s)).
Proof.
  intros Hp [Hu Hc Hent]. split; simpl; [done|lia|].
  intros j [->|Hj]%Map_set_elem Heq; [lia|by apply Hent].
Qed.

Lemma background_InvSettle (b : Background) (s : State) :
  InvSettle s → InvSettle (background b s).
Proof.
  intros Hs. destruct b as [|req|ids|ms]; simpl.
  - by apply (InvSettle_frame s).
  - unfold waitForVideoViaPoller. destruct (clientReady s); [|done].
    match goal with |- InvSettle (ensurePolling ?s2) =>
      destruct (ensurePolling_fields s2) as (Hpe & Hne & Hte & _);
      apply (InvSettle_frame s2); [by rewrite Hpe|by rewrite Hne|by rewrite Hte|]
    end.
    by apply register_InvSettle.
  - by apply (InvSettle_frame s).
  - by apply (InvSettle_frame s).
Qed.

Lemma background_Fresh (r : PendingJobInfo) (b : Background) (s : State) :
  Fresh r s → Fresh r (background b s).
Proof.
  intros Hs. destruct b as [|req|ids|ms]; simpl.
  - by apply (Fresh_frame r s).
  - unfold waitForVideoViaPoller. destruct (clientReady s); [|done].
    match goal with |- Fresh r (ensurePolling ?s2) =>
      destruct (ensurePolling_fields s2) as (Hpe & Hne & Hte & _);
      apply (Fresh_frame r s2); [by rewrite Hpe|by rewrite Hne|by rewrite Hte|]
    end.
    by apply register_Fresh.
  - by apply (Fresh_frame r s).
  - by apply (Fresh_frame r s).
Qed.

Lemma background_InvClaim (b : Background) (s : State) :
  InvClaim s → InvClaim (background b s).
Proof.
  apply InvClaim_frame; [apply background_reserved| |]; by rewrite background_trace.
Qed.

Lemma background_InvCount (b : Background) (s : State) :
  InvCount s → InvCount (background b s).
Proof.
  apply InvCount_frame; [apply background_total| |]; by rewrite background_trace.
Qed.

Lemma background_InvLoop (b : Background) (s : State) :
  InvLoop s → InvLoop (background b s).
Proof.
  intros Hs. destruct b as [|req|ids|ms]; simpl; try by apply (InvLoop_frame s).
  unfold waitForVideoViaPoller. destruct (clientReady s); [|done].
  apply ensurePolling_InvLoop. by apply (InvLoop_frame s).
Qed.

Lemma background_Inv (b : Background) (s : State) : Inv s → Inv (background b s).
Proof.
  intros [? ? ? ?]. split;
    [by apply background_InvSettle|by apply background_InvClaim
    |by apply background_InvCount|by apply background_InvLoop].
Qed.

Lemma set_store_Inv (v : list (Await bool)) (s : State) : Inv s → Inv (set_store v s).
Proof.
  intros [? ? ? ?]. split.
  - by apply (InvSettle_frame s).
  - by apply (InvClaim_frame s).
  - by apply (InvCount_frame s).
  - by apply (InvLoop_frame s).
Qed.

Lemma afterBackground_Inv (s s1 : State) : afterBackground s s1 → Inv s → Inv s1.
Proof.
  intros (bs & v & ->) Hs. apply (set_store_Inv v) in Hs.
  revert Hs. generalize (set_store v s). clear s.
  induction bs as [|b bs IH]; intros s Hs; simpl; [done|].
  by apply IH, background_Inv.
Qed.

Lemma afterBackground_Fresh (r : PendingJobInfo) (s s1 : State) :
  afterBackground s s1 → Fresh r s → Fresh r s1.
Proof.
  intros (bs & v & ->) Hs.
  assert (Fresh r (set_store v s)) as Hs' by by apply (Fresh_frame r s).
  revert Hs'. generalize (set_store v s). clear s Hs.
  induction bs as [|b bs IH]; intros s Hs; simpl; [done|].
  by apply IH, background_Fresh.
Qed.

Lemma afterBackground_fields (s s1 : State) :
  afterBackground s s1 →
  trace s1 = trace s
  ∧ totalMessagesScanned s1 = totalMessagesScanned s
  ∧ reservedMessageIds s ⊆ reservedMessageIds s1.
Proof.
  intros (bs & v & ->). rewrite backgrounds_trace, backgrounds_total.
  split_and!; [done|done|]. apply (backgrounds_reserved bs (set_store v s)).
Qed.

Lemma afterBackground_refl (s : State) : afterBackground s s.
Proof. exists [], (store s). by destruct s. Qed.

(** ** An assignment attempt keeps the invariants *)

(** The four ways an attempt ends. *)
Lemma attemptAssignment_cases (job : PendingJobInfo) (info : VideoMessageInfo)
    (method : MatchingMethod) (s : State) :
  attemptAssignment job info method s = (Normal tt, s)
  ∨ ((msg_id (info_message info) ∉ reservedMessageIds s)
     ∧ (∃ s1, afterBackground s s1
       ∧ (attemptAssignment job info method s
          = (Thrown, emit (Claimed (msg_id (info_message info)) (jobId job) method None) s1)
          ∨ attemptAssignment job info method s
            = (Normal tt,
               addReserved (msg_id (info_message info))
                 (emit (Claimed (msg_id (info_message info)) (jobId job) method (Some false))
                    s1))
          ∨ attemptAssignment job info method s
            = (Normal tt,
               let s2 := dropPending (jobId job)
                           (addReserved (msg_id (info_message info))
                              (emit (Claimed (msg_id (info_message info)) (jobId job)
                                       method (Some true)) s1)) in
               emit (Resolved (promise job) (resultFor info method s2)) s2)))).
Proof.
  destruct (decide (msg_id (info_message info) ∈ reservedMessageIds s)) as [Hin|Hout].
  { left. by apply attemptAssignment_cached. }
  right. split; [done|].
  destruct (store s) as [|w rest] eqn:Hstore.
  { exists s. split; [apply afterBackground_refl|]. left.
    by apply attemptAssignment_no_answer. }
  exists (afterAwait w rest s). split; [by exists (during w), rest|].
  destruct (answer w) as [[|]|] eqn:Hw.
  - right; right. by apply attemptAssignment_won.
  - right; left. by apply attemptAssignment_lost.
  - left. by apply attemptAssignment_rejected.
Qed.

Lemma attemptAssignment_InvSettle (job : PendingJobInfo) (info : VideoMessageInfo)
    (method : MatchingMethod) (s : State) :
  Inv s → Fresh job s →
  InvSettle (snd (attemptAssignment job info method s)).
Proof.
  intros Hs Hf.
  destruct (attemptAssignment_cases job info method s)
    as [-> | (Hout & s1 & Hbg & [-> | [-> | ->]])]; [by destruct Hs|..];
    pose proof (afterBackground_Inv _ _ Hbg Hs) as [Hs1 _ _ _];
    pose proof (afterBackground_Fresh _ _ _ Hbg Hf) as Hf1; cbn [snd].
  - by apply (InvSettle_frame s1).
  - by apply (InvSettle_frame s1).
  - cbv zeta. apply settle_InvSettle; [done| |].
    + by apply (InvSettle_frame s1).
    + by apply (Fresh_frame job s1).
Qed.

Lemma attemptAssignment_Fresh (job r : PendingJobInfo) (info : VideoMessageInfo)
    (method : MatchingMethod) (s : State) :
  promise r ≠ promise job →
  Fresh r s →
  Fresh r (snd (attemptAssignment job info method s)).
Proof.
  intros Hne Hf.
  destruct (attemptAssignment_cases job info method s)
    as [-> | (Hout & s1 & Hbg & [-> | [-> | ->]])]; [done|..];
    pose proof (afterBackground_Fresh _ _ _ Hbg Hf) as Hf1; cbn [snd].
  - by apply (Fresh_frame r s1).
  - by apply (Fresh_frame r s1).
  - cbv zeta. apply settle_Fresh; [done|done|]. by apply (Fresh_frame r s1).
Qed.

Lemma claimed_InvClaim (id : Z) (k : jsstring) (method : MatchingMethod) (b : bool)
    (s s1 : State) :
  id ∉ reservedMessageIds s →
  afterBackground s s1 →
  InvClaim s →
  InvClaim (addReserved id (emit (Claimed id k method (Some b)) s1)).
Proof.
  intros Hout Hbg [Hac Hao Hrc Hro].
  destruct (afterBackground_fields _ _ Hbg) as (Ht & _ & Hres).
  split; simpl; rewrite Ht.
  - intros x [->|Hx]%elem_of_cons; [set_solver|]. specialize (Hac x Hx). set_solver.
  - apply NoDup_cons. split; [|done]. intros Hin. by apply Hout, Hac.
  - intros x Hx. specialize (Hrc x Hx). set_solver.
  - done.
Qed.

Lemma attemptAssignment_InvClaim (job : PendingJobInfo) (info : VideoMessageInfo)
    (method : MatchingMethod) (s : State) :
  InvClaim s → InvClaim (snd (attemptAssignment job info method s)).
Proof.
  intros Hs.
  destruct (attemptAssignment_cases job info method s)
    as [-> | (Hout & s1 & Hbg & [-> | [-> | ->]])]; [done|..]; cbn [snd].
  - destruct (afterBackground_fields _ _ Hbg) as (Ht & _ & Hres).
    apply (InvClaim_frame s); [done|simpl; by rewrite Ht..|done].
  - by apply (claimed_InvClaim _ _ _ _ s).
  - cbv zeta.
    pose proof (claimed_InvClaim _ (jobId job) method true _ _ Hout Hbg Hs)
      as [Hac Hao Hrc Hro].
    destruct (afterBackground_fields _ _ Hbg) as (Ht & _ & Hres).
    destruct Hs as [_ _ Hrc0 _].
    split; simpl in *; rewrite ?Ht in *.
    + done.
    + done.
    + intros x [->|Hx]%elem_of_cons; [set_solver|by apply Hrc].
    + apply NoDup_cons. split; [|done]. intros Hin. by apply Hout, Hrc0.
Qed.

Lemma attemptAssignment_InvCount (job : PendingJobInfo) (info : VideoMessageInfo)
    (method : MatchingMethod) (s : State) :
  InvCount s → InvCount (snd (attemptAssignment job info method s)).
Proof.
  intros Hs.
  destruct (attemptAssignment_cases job info method s)
    as [-> | (Hout & s1 & Hbg & [-> | [-> | ->]])]; [done|..]; cbn [snd];
    destruct (afterBackground_fields _ _ Hbg) as (Ht & Htot & _);
    destruct Hs as [H1 H2]; split; simpl; rewrite ?Ht, ?Htot; done.
Qed.

Lemma afterBackground_InvLoop_fields (s s1 : State) :
  afterBackground s s1 → InvLoop s → InvLoop s1.
Proof.
  intros (bs & v & ->) Hs.
  assert (InvLoop (set_store v s)) as Hs' by by apply (InvLoop_frame s).
  revert Hs'. generalize (set_store v s). clear s Hs.
  induction bs as [|b bs IH]; intros s Hs; simpl; [done|].
  by apply IH, background_InvLoop.
Qed.

Lemma attemptAssignment_InvLoop (job : PendingJobInfo) (info : VideoMessageInfo)
    (method : MatchingMethod) (s : State) :
  InvLoop s → InvLoop (snd (attemptAssignment job info method s)).
Proof.
  intros Hs.
  destruct (attemptAssignment_cases job info method s)
    as [-> | (Hout & s1 & Hbg & [-> | [-> | ->]])]; [done|..]; cbn [snd];
    pose proof (afterBackground_InvLoop_fields _ _ Hbg Hs) as Hs1;
    by apply (InvLoop_frame s1).
Qed.

Lemma attemptAssignment_Inv (job : PendingJobInfo) (info : VideoMessageInfo)
    (method : MatchingMethod) (s : State) :
  Inv s → Fresh job s → Inv (snd (attemptAssignment job info method s)).
Proof.
  intros Hs Hf. split.
  - by apply attemptAssignment_InvSettle.
  - apply attemptAssignment_InvClaim. by destruct Hs.
  - apply attemptAssignment_InvCount. by destruct Hs.
  - apply attemptAssignment_InvLoop. by destruct Hs.
Qed.

(** ** The phases of a cycle keep the invariants *)

Lemma bind_snd_inv {A B} (I : State → Prop) (m : Async A) (f : A → Async B) (s : State) :
  I (snd (m s)) →
  (∀ a s', m s = (Normal a, s') → I s' → I (snd (f a s'))) →
  I (snd ((m ≫= f) s)).
Proof.
  intros Hm Hf. rewrite bind_run. destruct (m s) as [[a|] s']; [|done].
  by apply Hf.
Qed.

Lemma matchMessagesByJobId_Inv (videoMessages : list VideoMessageInfo) (s : State) :
  Inv s → Inv (snd (matchMessagesByJobId videoMessages s)).
Proof.
  revert s. induction videoMessages as [|info rest IH]; intros s Hs; [done|].
  cbn [matchMessagesByJobId]. apply bind_snd_inv; [|intros _ s' _ Hs'; by apply IH].
  destruct (noMark info); [done|].
  destruct (info_jobIdMark info) as [mark|]; [|done].
  rewrite bind_run. unfold gets.
  destruct (Map_get mark (pendingJobs s)) as [job|] eqn:Hget; [|done].
  apply Map_get_elem in Hget as [Hin _].
  apply attemptAssignment_Inv; [done|]. apply pending_Fresh; [by destruct Hs|done].
Qed.

Lemma collect_Inv (s : State) :
  Inv s → Inv (set_pendingJobs (map bumpPollCount (pendingJobs s)) s).
Proof.
  intros [[Hids Hpr Hpc Hsc Hso Hpu] Hc Hn Hl]. split.
  - split; simpl; rewrite ?map_bumpPollCount_jobId, ?map_bumpPollCount_promise;
      try done.
    + intros j (y & Hy & ->)%elem_of_map_bumpPollCount. exact (Hpc y Hy).
    + intros j (y & Hy & ->)%elem_of_map_bumpPollCount. exact (Hpu y Hy).
  - by apply (InvClaim_frame s).
  - by apply (InvCount_frame s).
  - by apply (InvLoop_frame s).
Qed.

Lemma NoDup_map_sublist {A B} (f : A → B) (l1 l2 : list A) :
  sublist l1 l2 → NoDup (map f l2) → NoDup (map f l1).
Proof. intros Hsub Hnd. eapply sublist_NoDup; [exact Hnd|]. by apply sublist_map. Qed.

Lemma fallbackLoop_Inv (cfg : Config) (rest : list PendingJobInfo)
    (candidates : list VideoMessageInfo) (s : State) :
  Inv s →
  NoDup (map promise rest) →
  (∀ r, r ∈ rest → Fresh r s) →
  Inv (snd (fallbackLoop cfg candidates rest s)).
Proof.
  revert candidates s. induction rest as [|job rest IH]; intros candidates s Hs Hnd Hfresh;
    [done|].
  rewrite fallbackLoop_cons, bind_run. unfold gets.
  simpl in Hnd. apply NoDup_cons in Hnd as [Hjob Hnd].
  destruct (selectFallback cfg (reservedMessageIds s) candidates job)
    as [[[i selected] d]|].
  - rewrite bind_run.
    pose proof (attemptAssignment_Inv job selected ByTimestamp s Hs) as Hinv.
    destruct (attemptAssignment job selected ByTimestamp s) as [[[]|] s'] eqn:Hatt;
      simpl in Hinv.
    + apply IH; [apply Hinv, Hfresh; by left|done|].
      intros r Hr.
      pose proof (attemptAssignment_Fresh job r selected ByTimestamp s) as Hf.
      rewrite Hatt in Hf. apply Hf; [|apply Hfresh; by right].
      intros Heq. apply Hjob. rewrite <- Heq. by apply elem_of_map_2.
    + apply Hinv, Hfresh. by left.
  - apply IH; [done|done|]. intros r Hr. apply Hfresh. by right.
Qed.

Lemma processFallbackMatches_Inv (cfg : Config) (videoMessages : list VideoMessageInfo)
    (ready : list PendingJobInfo) (s : State) :
  Inv s →
  sublist ready (pendingJobs s) →
  Inv (snd (processFallbackMatches cfg videoMessages ready s)).
Proof.
  intros Hs Hsub. unfold processFallbackMatches.
  destruct ready as [|job rest] eqn:Hready; [done|].
  destruct (List.filter noMark videoMessages) as [|c cs]; [done|].
  apply fallbackLoop_Inv; [done| |].
  - destruct Hs as [[_ Hpr _ _ _ _] _ _ _]. by apply (NoDup_map_sublist _ _ _ Hsub).
  - intros r Hr. apply pending_Fresh; [by destruct Hs|]. by eapply elem_of_sublist.
Qed.

Lemma timeoutJob_Inv (job : PendingJobInfo) (s : State) :
  Inv s → Fresh job s → Inv (timeoutJob job s).
Proof.
  intros [Hst Hc Hn Hl] Hf. split.
  - by apply (settle_InvSettle (Rejected (promise job) (jobId job))).
  - by apply (InvClaim_frame s).
  - by apply (InvCount_frame s).
  - by apply (InvLoop_frame s).
Qed.

Lemma sweep_Inv (now : Z) (jobs : list PendingJobInfo) (s : State) :
  Inv s →
  NoDup (map promise jobs) →
  (∀ r, r ∈ jobs → Fresh r s) →
  Inv (sweep now jobs s).
Proof.
  revert s. induction jobs as [|job rest IH]; intros s Hs Hnd Hfresh; [done|].
  simpl in Hnd. apply NoDup_cons in Hnd as [Hjob Hnd]. cbn [sweep].
  destruct (now >? deadline job).
  - apply IH; [|done|].
    + apply timeoutJob_Inv; [done|]. apply Hfresh. by left.
    + intros r Hr. apply (settle_Fresh (Rejected (promise job) (jobId job))); [done| |].
      * intros Heq. apply Hjob. rewrite <- Heq. by apply elem_of_map_2.
      * apply Hfresh. by right.
  - apply IH; [done|done|]. intros r Hr. apply Hfresh. by right.
Qed.

Lemma checkPendingTimeouts_Inv (s : State) :
  Inv s → Inv (snd (checkPendingTimeouts s)).
Proof.
  intros Hs. apply sweep_Inv; [done|by destruct Hs as [[] _ _ _]|].
  intros r Hr. apply pending_Fresh; [by destruct Hs|done].
Qed.

Lemma backgrounds_Inv (bs : list Background) (s : State) :
  Inv s → Inv (backgrounds bs s).
Proof.
  revert s. induction bs as [|b bs IH]; intros s Hs; simpl; [done|].
  by apply IH, background_Inv.
Qed.

(** A fetched batch and the update of the counter that follows it. *)
Lemma fetched_Inv (batch : list Message) (s : State) :
  Inv s →
  Inv (set_totalMessagesScanned (totalMessagesScanned (emit (Fetched batch) s)
                                 + Z.of_nat (length batch))
         (emit (Fetched batch) s)).
Proof.
  intros [Hst Hc [Hn1 Hn2] Hl]. split.
  - by apply (InvSettle_frame s).
  - by apply (InvClaim_frame s).
  - split; simpl; [lia|done].
  - by apply (InvLoop_frame s).
Qed.

Lemma pollOnce_Inv (cfg : Config) (w : Await (list Message)) (s : State) :
  Inv s → Inv (snd (pollOnce cfg w s)).
Proof.
  intros Hs. unfold pollOnce. rewrite bind_run. unfold gets.
  destruct (clientReady s); cbn [negb]; [|done].
  rewrite bind_run. unfold getMessages.
  pose proof (backgrounds_Inv (during w) s Hs) as Hs1.
  destruct (answer w) as [batch|]; [|done].
  rewrite bind_run. unfold modify at 1. rewrite bind_run.
  pose proof (fetched_Inv batch _ Hs1) as Hs2.
  set (s2 := set_totalMessagesScanned _ _) in *.
  apply bind_snd_inv; [by apply matchMessagesByJobId_Inv|].
  intros _ s3 _ Hs3. rewrite bind_run. unfold collectFallbackReadyJobs.
  pose proof (collect_Inv s3 Hs3) as Hs4.
  apply bind_snd_inv.
  - apply processFallbackMatches_Inv; [done|]. apply filter_sublist.
  - intros _ s5 _ Hs5. by apply checkPendingTimeouts_Inv.
Qed.

(** ** Every run keeps the invariants *)

Lemma initialState_Inv : Inv initialState.
Proof.
  split; split; simpl; try done; try apply NoDup_nil_2; try lia;
    intros ? ?%elem_of_nil; done.
Qed.

Lemma pollLoopTurn_Inv (cfg : Config) (c : Cycle) (s : State) :
  Inv s → Inv (pollLoopTurn cfg c s).
Proof.
  intros Hs. unfold pollLoopTurn. destruct (loops s) as [|n] eqn:Hn; [done|].
  destruct (pendingJobs s) as [|job rest] eqn:Hp.
  - destruct Hs as [Hst Hc Hcnt [Hl1 Hl2]]. split.
    + by apply (InvSettle_frame s).
    + by apply (InvClaim_frame s).
    + by apply (InvCount_frame s).
    + split; simpl; [lia|intros _; lia].
  - by apply pollOnce_Inv, set_store_Inv.
Qed.

Lemma pollLoopCrash_Inv (s : State) : Inv s → Inv (pollLoopCrash s).
Proof.
  intros Hs. unfold pollLoopCrash. destruct (loops s) as [|n] eqn:Hn; [done|].
  destruct Hs as [Hst Hc Hcnt [Hl1 Hl2]]. split.
  - by apply (InvSettle_frame s).
  - by apply (InvClaim_frame s).
  - by apply (InvCount_frame s).
  - split; simpl; [lia|intros _; lia].
Qed.

Lemma step_Inv (cfg : Config) (e : Event) (s : State) : Inv s → Inv (step cfg e s).
Proof.
  destruct e; simpl;
    [apply background_Inv|apply pollLoopTurn_Inv|apply pollLoopCrash_Inv].
Qed.

Lemma run_Inv (cfg : Config) (events : list Event) (s : State) :
  Inv s → Inv (run cfg events s).
Proof.
  revert s. induction events as [|e rest IH]; intros s Hs; simpl; [done|].
  by apply IH, step_Inv.
Qed.

(** ** No message is claimed twice, no job is settled twice *)

(** C4: in every run of the process, whatever the batches, the answers of
    the reservation store and the registrations that happen meanwhile, no
    message id is the id of two resolutions, so at most one job ever settles
    with a given message; no message id is put to the reservation store twice
    with an answer, so no candidate is proposed to two jobs; and every id a
    job was resolved with is in the reserved-id cache, which is what stops a
    later attempt on it. *)
Theorem no_double_claim (cfg : Config) (events : list Event) :
  NoDup (resolvedMessageIds (trace (run cfg events initialState)))
  ∧ NoDup (answeredClaimIds (trace (run cfg events initialState)))
  ∧ (∀ id, id ∈ resolvedMessageIds (trace (run cfg events initialState)) →
           id ∈ reservedMessageIds (run cfg events initialState))
  ∧ (∀ id, id ∈ answeredClaimIds (trace (run cfg events initialState)) →
           id ∈ reservedMessageIds (run cfg events initialState)).
Proof.
  destruct (run_Inv cfg events initialState initialState_Inv)
    as [_ [Hac Hao Hrc Hro] _ _].
  done.
Qed.

(** C8: in every run of the process no promise is settled twice, be it by
    two resolutions, two rejections or one of each, and no job that is in the
    registry has a settled promise: a job that is settled is out of the
    registry. *)
Theorem settled_at_most_once (cfg : Config) (events : list Event) :
  NoDup (settledPromises (trace (run cfg events initialState)))
  ∧ (∀ job, job ∈ pendingJobs (run cfg events initialState) →
            promise job ∉ settledPromises (trace (run cfg events initialState))).
Proof.
  destruct (run_Inv cfg events initialState initialState_Inv)
    as [[_ _ _ _ Hso Hpu] _ _ _].
  done.
Qed.

(** ** What only grows *)

Lemma Grows_refl (s : State) : Grows s s.
Proof. split; try done. by exists []. Qed.

Lemma Grows_trans (s1 s2 s3 : State) : Grows s1 s2 → Grows s2 s3 → Grows s1 s3.
Proof.
  intros [Ht1 [n1 Hn1] Hr1 Hc1 Hp1 Hk1] [Ht2 [n2 Hn2] Hr2 Hc2 Hp2 Hk2].
  split; [lia| |set_solver|lia|lia|auto].
  exists (n2 ++ n1). by rewrite Hn2, Hn1, app_assoc.
Qed.

Lemma Grows_emit (e : Effect) (s : State) : Grows s (emit e s).
Proof. split; try done. by exists [e]. Qed.

Lemma ensurePolling_Grows (s : State) : Grows s (ensurePolling s).
Proof.
  unfold ensurePolling. destruct (pollerRunning s); [apply Grows_refl|].
  split; try done. by exists [].
Qed.

Lemma background_Grows (b : Background) (s : State) : Grows s (background b s).
Proof.
  destruct b as [|req|ids|ms]; simpl.
  - split; try done. by exists [].
  - unfold waitForVideoViaPoller. destruct (clientReady s) eqn:Hc; [|apply Grows_refl].
    eapply Grows_trans; [|apply ensurePolling_Grows].
    split; simpl; try done; [by exists []|lia].
  - split; simpl; try done; [by exists []|set_solver].
  - split; simpl; try done; [by exists []|lia].
Qed.

Lemma backgrounds_Grows (bs : list Background) (s : State) : Grows s (backgrounds bs s).
Proof.
  revert s. induction bs as [|b bs IH]; intros s; simpl; [apply Grows_refl|].
  eapply Grows_trans; [apply background_Grows|apply IH].
Qed.

Lemma set_store_Grows (v : list (Await bool)) (s : State) : Grows s (set_store v s).
Proof. split; try done. by exists []. Qed.

Lemma afterBackground_Grows (s s1 : State) : afterBackground s s1 → Grows s s1.
Proof.
  intros (bs & v & ->).
  eapply Grows_trans; [apply set_store_Grows|apply backgrounds_Grows].
Qed.

Lemma addReserved_Grows (id : Z) (s : State) : Grows s (addReserved id s).
Proof. split; simpl; try done; [by exists []|set_solver]. Qed.

Lemma dropPending_Grows (k : jsstring) (s : State) : Grows s (dropPending k s).
Proof. split; try done. by exists []. Qed.

Lemma attemptAssignment_Grows (job : PendingJobInfo) (info : VideoMessageInfo)
    (method : MatchingMethod) (s : State) :
  Grows s (snd (attemptAssignment job info method s)).
Proof.
  destruct (attemptAssignment_cases job info method s)
    as [-> | (Hout & s1 & Hbg & [-> | [-> | ->]])]; [apply Grows_refl|..]; cbn [snd];
    apply afterBackground_Grows in Hbg.
  - eapply Grows_trans; [exact Hbg|apply Grows_emit].
  - eapply Grows_trans; [exact Hbg|].
    eapply Grows_trans; [apply Grows_emit|apply addReserved_Grows].
  - cbv zeta. eapply Grows_trans; [exact Hbg|].
    eapply Grows_trans; [apply Grows_emit|].
    eapply Grows_trans; [apply addReserved_Grows|].
    eapply Grows_trans; [apply dropPending_Grows|apply Grows_emit].
Qed.

Lemma bind_Grows {A B} (m : Async A) (f : A → Async B) (s : State) :
  Grows s (snd (m s)) →
  (∀ a s', Grows s' (snd (f a s'))) →
  Grows s (snd ((m ≫= f) s)).
Proof.
  intros Hm Hf. apply (bind_snd_inv (Grows s)); [done|].
  intros a s' _ Hs'. by eapply Grows_trans.
Qed.

Lemma matchMessagesByJobId_Grows (videoMessages : list VideoMessageInfo) (s : State) :
  Grows s (snd (matchMessagesByJobId videoMessages s)).
Proof.
  revert s. induction videoMessages as [|info rest IH]; intros s; [apply Grows_refl|].
  cbn [matchMessagesByJobId]. apply bind_Grows; [|intros _ s'; apply IH].
  destruct (noMark info); [apply Grows_refl|].
  destruct (info_jobIdMark info) as [mark|]; [|apply Grows_refl].
  rewrite bind_run. unfold gets.
  destruct (Map_get mark (pendingJobs s)) as [job|]; [|apply Grows_refl].
  apply attemptAssignment_Grows.
Qed.

Lemma fallbackLoop_Grows (cfg : Config) (rest : list PendingJobInfo)
    (candidates : list VideoMessageInfo) (s : State) :
  Grows s (snd (fallbackLoop cfg candidates rest s)).
Proof.
  revert candidates s. induction rest as [|job rest IH]; intros candidates s;
    [apply Grows_refl|].
  rewrite fallbackLoop_cons, bind_run. unfold gets.
  destruct (selectFallback cfg (reservedMessageIds s) candidates job)
    as [[[i selected] d]|]; [|apply IH].
  apply bind_Grows; [apply attemptAssignment_Grows|intros _ s'; apply IH].
Qed.

Lemma processFallbackMatches_Grows (cfg : Config) (videoMessages : list VideoMessageInfo)
    (ready : list PendingJobInfo) (s : State) :
  Grows s (snd (processFallbackMatches cfg videoMessages ready s)).
Proof.
  unfold processFallbackMatches. destruct ready as [|job rest]; [apply Grows_refl|].
  destruct (List.filter noMark videoMessages) as [|c cs]; [apply Grows_refl|].
  apply fallbackLoop_Grows.
Qed.

Lemma timeoutJob_Grows (job : PendingJobInfo) (s : State) : Grows s (timeoutJob job s).
Proof.
  eapply Grows_trans; [apply (dropPending_Grows (jobId job))|apply Grows_emit].
Qed.

Lemma sweep_Grows (now : Z) (jobs : list PendingJobInfo) (s : State) :
  Grows s (sweep now jobs s).
Proof.
  revert s. induction jobs as [|job rest IH]; intros s; [apply Grows_refl|].
  cbn [sweep]. destruct (now >? deadline job); [|apply IH].
  eapply Grows_trans; [apply timeoutJob_Grows|apply IH].
Qed.

Lemma pollOnce_Grows (cfg : Config) (w : Await (list Message)) (s : State) :
  Grows s (snd (pollOnce cfg w s)).
Proof.
  unfold pollOnce. rewrite bind_run. unfold gets.
  destruct (clientReady s); cbn [negb]; [|apply Grows_refl].
  rewrite bind_run. unfold getMessages.
  pose proof (backgrounds_Grows (during w) s) as Hs1.
  destruct (answer w) as [batch|]; [|done].
  rewrite bind_run. unfold modify at 1. rewrite bind_run.
  eapply Grows_trans; [exact Hs1|].
  eapply Grows_trans; [apply (Grows_emit (Fetched batch))|].
  match goal with |- Grows ?a (snd (_ ?b)) =>
    assert (Grows a b) as Hs2 by (split; simpl; try done; [lia|by exists []]);
    eapply Grows_trans; [exact Hs2|]
  end.
  apply bind_Grows; [apply matchMessagesByJobId_Grows|].
  intros _ s3. rewrite bind_run. unfold collectFallbackReadyJobs.
  eapply Grows_trans;
    [|apply bind_Grows; [apply processFallbackMatches_Grows|intros _ s5; apply sweep_Grows]].
  split; try done. by exists [].
Qed.

Lemma step_Grows (cfg : Config) (e : Event) (s : State) : Grows s (step cfg e s).
Proof.
  destruct e as [b|c|]; simpl.
  - apply background_Grows.
  - unfold pollLoopTurn. destruct (loops s); [apply Grows_refl|].
    destruct (pendingJobs s); [split; try done; by exists []|].
    eapply Grows_trans; [apply (set_store_Grows (claims c))|apply pollOnce_Grows].
  - unfold pollLoopCrash. destruct (loops s); [apply Grows_refl|].
    split; try done. by exists [].
Qed.

Lemma run_Grows (cfg : Config) (events : list Event) (s : State) :
  Grows s (run cfg events s).
Proof.
  revert s. induction events as [|e rest IH]; intros s; simpl; [apply Grows_refl|].
  eapply Grows_trans; [apply step_Grows|apply IH].
Qed.

Lemma run_app (cfg : Config) (events more : list Event) (s : State) :
  run cfg (events ++ more) s = run cfg more (run cfg events s).
Proof.
  revert s. induction events as [|e rest IH]; intros s; simpl; [done|]. apply IH.
Qed.

Lemma no_double_claim_witness :
  NoDup (resolvedMessageIds (trace (run defaultConfig twoJobsRun initialState)))
  ∧ NoDup (answeredClaimIds (trace (run defaultConfig twoJobsRun initialState)))
  ∧ (∀ id, id ∈ resolvedMessageIds (trace (run defaultConfig twoJobsRun initialState)) →
           id ∈ reservedMessageIds (run defaultConfig twoJobsRun initialState))
  ∧ (∀ id, id ∈ answeredClaimIds (trace (run defaultConfig twoJobsRun initialState)) →
           id ∈ reservedMessageIds (run defaultConfig twoJobsRun initialState)).
Proof. exact (no_double_claim defaultConfig twoJobsRun). Defined.

Example twoJobsRun_resolutions :
  resolvedMessageIds (trace (run defaultConfig twoJobsRun initialState)) = [8; 7]
  ∧ settledPromises (trace (run defaultConfig twoJobsRun initialState)) = [0%nat; 1%nat]
  ∧ pendingJobs (run defaultConfig twoJobsRun initialState) = [].
Proof. by vm_compute. Qed.

Lemma settled_at_most_once_witness :
  NoDup (settledPromises (trace (run defaultConfig twoJobsRun initialState)))
  ∧ (∀ job, job ∈ pendingJobs (run defaultConfig twoJobsRun initialState) →
            promise job ∉ settledPromises (trace (run defaultConfig twoJobsRun initialState))).
Proof. exact (settled_at_most_once defaultConfig twoJobsRun). Defined.

(** ** The counter of scanned messages *)

Lemma totalsCumulative_split (newer older : list Effect) (p : nat) (r : MatchingResult) :
  totalsCumulative (newer ++ Resolved p r :: older) →
  res_totalMessagesScanned r = fetchedCount older.
Proof.
  induction newer as [|e newer IH]; simpl.
  - by intros [? _].
  - destruct e; try exact IH. intros [_ ?]. by apply IH.
Qed.

(** C10: in every run of the process [totalMessagesScanned] is the number of
    messages fetched by all poll cycles since the process started; the value
    delivered with any resolution is the number of messages fetched by all
    cycles up to that resolution, whichever jobs they were fetched for; and
    the counter never decreases as the run goes on. *)
Theorem totalMessagesScanned_is_process_wide (cfg : Config) (events more : list Event) :
  totalMessagesScanned (run cfg events initialState)
  = fetchedCount (trace (run cfg events initialState))
  ∧ (∀ newer older p r,
       trace (run cfg events initialState) = newer ++ Resolved p r :: older →
       res_totalMessagesScanned r = fetchedCount older)
  ∧ totalMessagesScanned (run cfg events initialState)
    ≤ totalMessagesScanned (run cfg (events ++ more) initialState).
Proof.
  destruct (run_Inv cfg events initialState initialState_Inv) as [_ _ [Htot Hcum] _].
  split_and!; [done| |].
  - intros newer older p r Heq. rewrite Heq in Hcum.
    by eapply totalsCumulative_split.
  - rewrite run_app. apply run_Grows.
Qed.

Lemma totalMessagesScanned_is_process_wide_witness :
  totalMessagesScanned (run defaultConfig twoJobsRun initialState)
  = fetchedCount (trace (run defaultConfig twoJobsRun initialState))
  ∧ (∀ newer older p r,
       trace (run defaultConfig twoJobsRun initialState) = newer ++ Resolved p r :: older →
       res_totalMessagesScanned r = fetchedCount older)
  ∧ totalMessagesScanned (run defaultConfig twoJobsRun initialState)
    ≤ totalMessagesScanned (run defaultConfig (twoJobsRun ++ []) initialState).
Proof. exact (totalMessagesScanned_is_process_wide defaultConfig twoJobsRun []). Defined.

(** Job [b1] is registered after the first cycle has fetched two messages,
    and is resolved with a count of four. *)
Example late_job_gets_the_shared_count :
  ∃ r older,
    trace (run defaultConfig twoJobsRun initialState)
    = [Resolved 0 {| res_message := exampleVideo 8 "done [JOB_ID: a1]" 3;
                     res_matchingMethod := ByJobId;
                     res_totalMessagesScanned := 4 |};
       Claimed 8 (lit "a1") ByJobId (Some true)]
      ++ Resolved 1 r :: older
    ∧ res_totalMessagesScanned r = 4
    ∧ res_message r = exampleVideo 7 "done [JOB_ID: b1]" 3.
Proof. eexists _, _. by vm_compute. Qed.

(** ** The poll loop *)


Lemma ensurePolling_idle (s : State) :
  pollerRunning s = false →
  pollerRunning (ensurePolling s) = true ∧ loops (ensurePolling s) = S (loops s).
Proof. intros H. unfold ensurePolling. by rewrite H. Qed.

(** At most one instance of the loop is alive, in every run. *)
Lemma single_poll_loop (cfg : Config) (events : list Event) :
  (loops (run cfg events initialState) ≤ 1)%nat.
Proof. by destruct (run_Inv cfg events initialState initialState_Inv) as [_ _ _ []]. Qed.

(** A registration in the idle state starts exactly one instance. *)
Lemma registration_starts_one_loop (cfg : Config) (events : list Event) (req : JobRequest) :
  pollerRunning (run cfg events initialState) = false →
  clientReady (run cfg events initialState) = true →
  loops (waitForVideoViaPoller req (run cfg events initialState)) = 1%nat
  ∧ pollerRunning (waitForVideoViaPoller req (run cfg events initialState)) = true.
Proof.
  intros Hidle Hready.
  destruct (run_Inv cfg events initialState initialState_Inv) as [_ _ _ [_ Hzero]].
  unfold waitForVideoViaPoller, ensurePolling. rewrite Hready. simpl.
  rewrite Hidle. simpl. by rewrite (Hzero Hidle).
Qed.

(** ** A job whose deadline has passed *)

Lemma bind_Normal {A B} (m : Async A) (f : A → Async B) (s : State) (b : B) :
  fst ((m ≫= f) s) = Normal b →
  ∃ a s', m s = (Normal a, s')
          ∧ fst (f a s') = Normal b
          ∧ snd ((m ≫= f) s) = snd (f a s').
Proof.
  rewrite bind_run. destruct (m s) as [[a|] s']; [|done].
  intros Hf. by exists a, s'.
Qed.

Lemma bind_Normal_post {A B} (P : State → Prop) (m : Async A) (f : A → Async B)
    (s : State) (b : B) :
  (∀ a s', m s = (Normal a, s') → fst (f a s') = Normal b → P (snd (f a s'))) →
  fst ((m ≫= f) s) = Normal b → P (snd ((m ≫= f) s)).
Proof.
  intros Hf. rewrite bind_run. destruct (m s) as [[a|] s']; [|done]. by apply Hf.
Qed.

Lemma Map_get_None_elem (k : jsstring) (m : list PendingJobInfo) (y : PendingJobInfo) :
  Map_get k m = None → y ∈ m → jobId y ≠ k.
Proof.
  induction m as [|x m IH]; simpl; [by intros _ ?%elem_of_nil|].
  destruct (decide (jobId x = k)); [done|].
  intros Hm [->|Hy]%elem_of_cons; [done|by apply IH].
Qed.

Lemma Map_delete_get_None (k k' : jsstring) (m : list PendingJobInfo) :
  Map_get k m = None → Map_get k (Map_delete k' m) = None.
Proof.
  destruct (decide (k' = k)) as [->|Hne]; [intros _; apply Map_delete_get|].
  by rewrite Map_delete_get_ne.
Qed.

Lemma Map_get_bumpPollCount (k : jsstring) (m : list PendingJobInfo) :
  Map_get k (map bumpPollCount m) = bumpPollCount <$> Map_get k m.
Proof.
  induction m as [|x m IH]; simpl; [done|].
  destruct (decide (jobId x = k)); [done|apply IH].
Qed.

Section tracking.
Context (job : PendingJobInfo) (s0 : State).

Lemma Pending_same (s s' : State) :
  Map_get (jobId job) (pendingJobs s') = Map_get (jobId job) (pendingJobs s) →
  Pending job s → Pending job s'.
Proof. intros Heq (j & Hj & ?). exists j. by rewrite Heq. Qed.

Lemma Done_grow (s s' : State) :
  Grows s s' →
  Map_get (jobId job) (pendingJobs s') = None →
  Done job s0 s → Done job s0 s'.
Proof.
  intros [_ [more Hmore] _ _ _ _] Hnone (_ & new & Hnew & Hkind).
  split; [done|]. exists (more ++ new). split; [by rewrite Hmore, Hnew, app_assoc|].
  destruct Hkind as [[r Hr]|Hr]; [left; exists r|right]; apply elem_of_app; by right.
Qed.

(** A change that leaves the entry under the job's id alone. *)
Lemma Tracked_same (s s' : State) :
  Grows s s' →
  quietStore (jobId job) (store s') →
  Map_get (jobId job) (pendingJobs s') = Map_get (jobId job) (pendingJobs s) →
  Tracked job s0 s → Tracked job s0 s'.
Proof.
  intros Hg Hq Heq [Hg0 _ Hst]. split; [by eapply Grows_trans|done|].
  destruct Hst as [Hp|Hd]; [left; by eapply Pending_same|right].
  eapply Done_grow; [done| |done]. rewrite Heq. by destruct Hd.
Qed.

Lemma afterAwait_get (w : Await bool) (rest : list (Await bool)) (s : State) :
  quietAwait (jobId job) w →
  Map_get (jobId job) (pendingJobs (afterAwait w rest s))
  = Map_get (jobId job) (pendingJobs s).
Proof.
  intros Hq. unfold afterAwait.
  by rewrite (backgrounds_pending_other _ _ (set_store rest s) Hq).
Qed.

Lemma afterAwait_store (w : Await bool) (rest : list (Await bool)) (s : State) :
  store (afterAwait w rest s) = rest.
Proof. unfold afterAwait. by rewrite backgrounds_store. Qed.

(** An attempt that returns keeps the job followed, provided the job it is
    made for, when it has the same id, is the job itself. *)
Lemma attemptAssignment_Tracked (j2 : PendingJobInfo) (info : VideoMessageInfo)
    (method : MatchingMethod) (s : State) :
  (jobId j2 = jobId job → Pending job s → promise j2 = promise job) →
  Tracked job s0 s →
  fst (attemptAssignment j2 info method s) = Normal tt →
  Tracked job s0 (snd (attemptAssignment j2 info method s)).
Proof.
  intros Hsame Htr.
  pose proof (attemptAssignment_Grows j2 info method s) as Hgrow.
  destruct (decide (msg_id (info_message info) ∈ reservedMessageIds s)) as [Hin|Hout].
  { by rewrite attemptAssignment_cached. }
  destruct (store s) as [|w rest] eqn:Hstore.
  { by rewrite attemptAssignment_no_answer. }
  pose proof (tracked_quiet _ _ _ Htr) as Hq. rewrite Hstore in Hq.
  apply Forall_cons in Hq as [Hw Hrest].
  destruct (answer w) as [[|]|] eqn:Hans.
  - (* won *)
    rewrite (attemptAssignment_won j2 info method s w rest Hout Hstore Hans) in *.
    intros _. cbn [snd] in *. cbv zeta in *.
    destruct (decide (jobId j2 = jobId job)) as [Heq|Hne].
    + destruct Htr as [Hg0 _ Hst]. split; [by eapply Grows_trans|simpl|].
      { by rewrite afterAwait_store. }
      right. destruct Hst as [Hp|Hd].
      * split; [simpl; rewrite Heq; apply Map_delete_get|].
        destruct Hg0 as [_ [new Hnew] _ _ _ _].
        eexists (_ :: _ :: new). simpl. unfold afterAwait.
        rewrite backgrounds_trace. simpl. rewrite Hnew. split; [reflexivity|].
        left. eexists. rewrite <- (Hsame Heq Hp). by left.
      * eapply Done_grow; [exact Hgrow| |done].
        simpl. rewrite Heq. apply Map_delete_get.
    + apply (Tracked_same s); [done| | |done].
      * simpl. by rewrite afterAwait_store.
      * simpl. rewrite Map_delete_get_ne by done. by apply afterAwait_get.
  - (* lost *)
    rewrite (attemptAssignment_lost j2 info method s w rest Hout Hstore Hans) in *.
    intros _. cbn [snd] in *.
    apply (Tracked_same s); [done| | |done].
    + simpl. by rewrite afterAwait_store.
    + simpl. by apply afterAwait_get.
  - by rewrite (attemptAssignment_rejected j2 info method s w rest Hout Hstore Hans).
Qed.

Lemma matchMessagesByJobId_Tracked (videoMessages : list VideoMessageInfo) (s : State) :
  Tracked job s0 s →
  fst (matchMessagesByJobId videoMessages s) = Normal tt →
  Tracked job s0 (snd (matchMessagesByJobId videoMessages s)).
Proof.
  revert s. induction videoMessages as [|info rest IH]; intros s Htr; [done|].
  cbn [matchMessagesByJobId]. intros (a & s' & Hhead & Hrest & ->)%bind_Normal.
  apply IH; [|done]. clear Hrest IH.
  destruct (noMark info); [by injection Hhead as _ <-|].
  destruct (info_jobIdMark info) as [mark|]; [|by injection Hhead as _ <-].
  rewrite bind_run in Hhead. unfold gets in Hhead.
  destruct (Map_get mark (pendingJobs s)) as [j2|] eqn:Hget;
    [|by injection Hhead as _ <-].
  replace s' with (snd (attemptAssignment j2 info ByJobId s)) by by rewrite Hhead.
  apply attemptAssignment_Tracked; [|done|by rewrite Hhead; destruct a].
  intros Heq (j & Hj & Hp & _). apply Map_get_elem in Hget as Hel. destruct Hel as [_ Hmark].
  rewrite <- Heq, Hmark, Hget in Hj. by injection Hj as ->.
Qed.

Lemma fallbackLoop_Tracked (cfg : Config) (rest : list PendingJobInfo)
    (candidates : list VideoMessageInfo) (s : State) :
  (∀ r, r ∈ rest → jobId r = jobId job → promise r = promise job) →
  Tracked job s0 s →
  fst (fallbackLoop cfg candidates rest s) = Normal tt →
  Tracked job s0 (snd (fallbackLoop cfg candidates rest s)).
Proof.
  revert candidates s. induction rest as [|j2 rest IH]; intros candidates s Hready Htr;
    [done|].
  rewrite fallbackLoop_cons, bind_run. unfold gets.
  destruct (selectFallback cfg (reservedMessageIds s) candidates j2)
    as [[[i selected] d]|].
  - intros (a & s' & Hhead & Hrest & ->)%bind_Normal.
    apply IH; [intros r Hr; apply Hready; by right| |done].
    replace s' with (snd (attemptAssignment j2 selected ByTimestamp s))
      by by rewrite Hhead.
    apply attemptAssignment_Tracked; [|done|by rewrite Hhead; destruct a].
    intros Heq _. apply Hready; [by left|done].
  - apply IH; [intros r Hr; apply Hready; by right|done].
Qed.

Lemma sweep_get_None (now : Z) (jobs : list PendingJobInfo) (s : State) (k : jsstring) :
  Map_get k (pendingJobs s) = None →
  Map_get k (pendingJobs (sweep now jobs s)) = None.
Proof.
  revert s. induction jobs as [|j rest IH]; intros s Hs; [done|]. cbn [sweep].
  apply IH. destruct (now >? deadline j); [|done]. simpl.
  by apply Map_delete_get_None.
Qed.

(** The sweep rejects every job of its list whose deadline has passed. *)
Lemma sweep_expired (now : Z) (jobs : list PendingJobInfo) (s : State) (j : PendingJobInfo) :
  j ∈ jobs →
  deadline j < now →
  Map_get (jobId j) (pendingJobs (sweep now jobs s)) = None
  ∧ ∃ new, trace (sweep now jobs s) = new ++ trace s
           ∧ Rejected (promise j) (jobId j) ∈ new.
Proof.
  revert s. induction jobs as [|x rest IH]; intros s Hj Hlate; [by apply elem_of_nil in Hj|].
  cbn [sweep]. apply elem_of_cons in Hj as [<-|Hj].
  - assert ((now >? deadline j) = true) as -> by (apply Z.gtb_lt; lia).
    split; [apply sweep_get_None; simpl; apply Map_delete_get|].
    destruct (sweep_Grows now rest (timeoutJob j s)) as [_ [more Hmore] _ _ _ _].
    exists (more ++ [Rejected (promise j) (jobId j)]).
    split; [by rewrite Hmore, <- app_assoc|].
    apply elem_of_app. right. by left.
  - destruct (IH (if now >? deadline x then timeoutJob x s else s) Hj Hlate)
      as (Hnone & new & Hnew & Hin).
    split; [done|]. destruct (now >? deadline x).
    + exists (new ++ [Rejected (promise x) (jobId x)]).
      split; [by rewrite Hnew, <- app_assoc|]. apply elem_of_app. by left.
    + by exists new.
Qed.

Lemma checkPendingTimeouts_Tracked (s : State) :
  deadline job < clock s0 →
  Tracked job s0 s →
  Done job s0 (snd (checkPendingTimeouts s)).
Proof.
  intros Hlate [Hg0 Hq Hst]. cbn [checkPendingTimeouts snd].
  destruct Hst as [(j & Hj & Hp & Hd)|Hdone].
  - apply Map_get_elem in Hj as [Hin Hk].
    destruct (sweep_expired (clock s) (pendingJobs s) s j Hin) as (Hnone & new & Hnew & Hrej).
    { destruct Hg0 as [_ _ _ Hclock _ _]. lia. }
    split; [by rewrite <- Hk|].
    destruct Hg0 as [_ [new0 Hnew0] _ _ _ _].
    exists (new ++ new0). split; [by rewrite Hnew, Hnew0, app_assoc|].
    right. apply elem_of_app. left. by rewrite <- Hk, <- Hp.
  - eapply Done_grow; [apply sweep_Grows| |done].
    apply sweep_get_None. by destruct Hdone.
Qed.
End tracking.

Lemma settledPromises_app (t1 t2 : list Effect) :
  settledPromises (t1 ++ t2) = settledPromises t1 ++ settledPromises t2.
Proof.
  induction t1 as [|e t1 IH]; simpl; [done|]. destruct e; simpl; by rewrite ?IH.
Qed.

Lemma collect_Tracked (job : PendingJobInfo) (s0 s : State) :
  Tracked job s0 s →
  Tracked job s0 (set_pendingJobs (map bumpPollCount (pendingJobs s)) s).
Proof.
  intros [Hg Hq Hst]. split; [|done|].
  - eapply Grows_trans; [exact Hg|]. split; try done. by exists [].
  - simpl. destruct Hst as [(j & Hj & Hp & Hd)|[Hnone Hnew]].
    + left. exists (bumpPollCount j). simpl.
      by rewrite Map_get_bumpPollCount, Hj.
    + right. split; [|done]. simpl. by rewrite Map_get_bumpPollCount, Hnone.
Qed.

Lemma ready_is_tracked (cfg : Config) (job : PendingJobInfo) (s0 s : State) (r : PendingJobInfo) :
  NoDup (map jobId (pendingJobs s)) →
  Tracked job s0 s →
  r ∈ List.filter (fallbackReady cfg) (map bumpPollCount (pendingJobs s)) →
  jobId r = jobId job →
  promise r = promise job.
Proof.
  intros Hnd [_ _ Hst] Hr Hid.
  apply list_elem_of_In, filter_In in Hr as [Hr _].
  apply list_elem_of_In, elem_of_map_bumpPollCount in Hr as (y & Hy & ->).
  simpl in *. pose proof (Map_get_NoDup _ _ Hnd Hy) as Hget. rewrite Hid in Hget.
  destruct Hst as [(j & Hj & Hp & _)|[Hnone _]]; [|congruence].
  rewrite Hj in Hget. by injection Hget as ->.
Qed.

(** A cycle whose fetch comes back: the counter is updated and the phases
    run on the batch. *)
Lemma pollOnce_fetched (cfg : Config) (w : Await (list Message)) (s : State)
    (batch : list Message) :
  clientReady s = true →
  answer w = Some batch →
  pollOnce cfg w s
  = let s2 := set_totalMessagesScanned
                (totalMessagesScanned (emit (Fetched batch) (backgrounds (during w) s))
                 + Z.of_nat (length batch))
                (emit (Fetched batch) (backgrounds (during w) s)) in
    let videoMessages := filterVideoMessages (clock s2) batch in
    (matchMessagesByJobId videoMessages;;
     fallbackReadyJobs ← collectFallbackReadyJobs cfg;
     processFallbackMatches cfg videoMessages fallbackReadyJobs;;
     checkPendingTimeouts) s2.
Proof.
  intros Hready Hw. unfold pollOnce. rewrite bind_run. unfold gets.
  rewrite Hready. cbn [negb]. rewrite bind_run. unfold getMessages. rewrite Hw.
  reflexivity.
Qed.

(** A cycle whose fetch fails is abandoned at once. *)
Lemma pollOnce_fetch_failed (cfg : Config) (w : Await (list Message)) (s : State) :
  clientReady s = true →
  answer w = None →
  pollOnce cfg w s = (Thrown, backgrounds (during w) s).
Proof.
  intros Hready Hw. unfold pollOnce. rewrite bind_run. unfold gets.
  rewrite Hready. cbn [negb]. rewrite bind_run. unfold getMessages. by rewrite Hw.
Qed.

(** C5 as stated fails.  A job whose deadline has passed and for which the
    batch holds a marked video is resolved with that video in phase A and is
    not rejected; when the fetch fails the cycle is abandoned before the
    sweep, and the job stays pending and unsettled; and when a job is
    registered under the same id while the cycle waits for the batch, the new
    job takes the entry and the old one is never settled. *)
Lemma timeout_determinism_counterexample :
  let s := set_store [quiet true] (exampleState [expiredJob] 5000) in
  deadline expiredJob < clock s
  ∧ pendingJobs s = [expiredJob]
  ∧ pollOnce defaultConfig (quiet [markedForExpired]) s
    = (Normal tt,
       emit (Resolved (promise expiredJob)
               {| res_message := markedForExpired;
                  res_matchingMethod := ByJobId;
                  res_totalMessagesScanned := 1 |})
         (emit (Claimed 41 (jobId expiredJob) ByJobId (Some true))
            (emit (Fetched [markedForExpired])
               (set_reservedMessageIds {[41]}
                  (set_totalMessagesScanned 1 (set_store [] (set_pendingJobs [] s)))))))
  ∧ pollOnce defaultConfig {| during := []; answer := None |} s = (Thrown, s)
  ∧ (let w := {| during := [Registration (exampleRequest "d" 4900 5000)];
                 answer := Some [] |} in
     fst (pollOnce defaultConfig w s) = Normal tt
     ∧ settledPromises (trace (snd (pollOnce defaultConfig w s))) = []
     ∧ map promise (pendingJobs (snd (pollOnce defaultConfig w s))) = [1%nat]).
Proof.
  split; [by vm_compute|]. split; [reflexivity|]. split; [by vm_compute|].
  split; [reflexivity|]. by vm_compute.
Qed.

(** C5 (amended): in a state that satisfies the invariants of every run
    ([Inv], see [run_Inv]), for a job that is pending at the start of a poll
    cycle with its deadline in the past, when the cycle runs to its end (the
    fetch and every claim come back) and no job is registered under the same
    id while the cycle waits, at the end of the cycle nothing is stored under
    the job's id and the job was settled in this cycle, once: resolved with a
    match when phase A or phase B bound it, rejected with the timeout
    failure otherwise. *)
Theorem expired_job_settles_within_cycle (cfg : Config) (w : Await (list Message))
    (s : State) (job : PendingJobInfo) :
  Inv s →
  clientReady s = true →
  job ∈ pendingJobs s →
  deadline job < clock s →
  quietAwait (jobId job) w →
  quietStore (jobId job) (store s) →
  fst (pollOnce cfg w s) = Normal tt →
  Map_get (jobId job) (pendingJobs (snd (pollOnce cfg w s))) = None
  ∧ ∃ new, trace (snd (pollOnce cfg w s)) = new ++ trace s
           ∧ ((∃ r, Resolved (promise job) r ∈ new)
              ∨ Rejected (promise job) (jobId job) ∈ new)
           ∧ NoDup (settledPromises new).
Proof.
  intros Hs Hready Hjob Hlate Hw Hq Hnormal.
  pose proof (pollOnce_Inv cfg w s Hs) as Hend.
  assert (Done job s (snd (pollOnce cfg w s))) as (Hnone & new & Hnew & Hkind).
  2:{ split; [done|]. exists new. split_and!; [done|done|].
      destruct Hend as [[_ _ _ _ Hso _] _ _ _].
      rewrite Hnew, settledPromises_app in Hso. by apply NoDup_app in Hso as [? _]. }
  clear Hend. destruct (answer w) as [batch|] eqn:Hans;
    [|by rewrite pollOnce_fetch_failed in Hnormal].
  rewrite (pollOnce_fetched cfg w s batch Hready Hans) in *. cbv zeta in *.
  pose proof (backgrounds_Inv (during w) s Hs) as Hs1.
  pose proof (fetched_Inv batch _ Hs1) as Hs2.
  assert (Tracked job s (set_totalMessagesScanned
                           (totalMessagesScanned (emit (Fetched batch) (backgrounds (during w) s))
                            + Z.of_nat (length batch))
                           (emit (Fetched batch) (backgrounds (during w) s)))) as Htr2.
  { split.
    - eapply Grows_trans; [apply (backgrounds_Grows (during w))|].
      eapply Grows_trans; [apply (Grows_emit (Fetched batch))|].
      split; simpl; try done; [lia|by exists []].
    - simpl. by rewrite backgrounds_store.
    - left. exists job. simpl. rewrite (backgrounds_pending_other _ _ _ Hw).
      split; [|done]. apply Map_get_NoDup; [by destruct Hs as [[] _ _ _]|done]. }
  set (s2 := set_totalMessagesScanned _ _) in *.
  revert Hnormal.
  apply (bind_Normal_post (Done job s)). intros a3 s3 HA.
  pose proof (matchMessagesByJobId_Inv (filterVideoMessages (clock s2) batch) s2 Hs2) as Hs3.
  pose proof (matchMessagesByJobId_Tracked job s (filterVideoMessages (clock s2) batch)
                s2 Htr2) as Htr3.
  rewrite HA in Hs3, Htr3. cbn [fst snd] in Hs3, Htr3.
  specialize (Htr3 ltac:(by destruct a3)).
  rewrite bind_run. unfold collectFallbackReadyJobs.
  pose proof (collect_Tracked job s s3 Htr3) as Htr4.
  set (s4 := set_pendingJobs _ s3) in *.
  set (ready := List.filter _ _).
  apply (bind_Normal_post (Done job s)). intros a5 s5 HB _.
  apply checkPendingTimeouts_Tracked; [done|].
  assert (Tracked job s (snd (processFallbackMatches cfg
            (filterVideoMessages (clock s2) batch) ready s4))) as Htr5.
  2:{ by rewrite HB in Htr5. }
  assert (fst (processFallbackMatches cfg (filterVideoMessages (clock s2) batch) ready s4)
          = Normal tt) as HBn by (rewrite HB; by destruct a5).
  revert HBn. unfold processFallbackMatches.
  destruct ready as [|j2 rest] eqn:Hready2; [done|].
  destruct (List.filter noMark (filterVideoMessages (clock s2) batch)) as [|c cs]; [done|].
  apply fallbackLoop_Tracked; [|done].
  intros r Hr. rewrite <- Hready2 in Hr. subst ready.
  apply (ready_is_tracked cfg job s s3); [by destruct Hs3 as [[] _ _ _]|done|done].
Qed.

Lemma expired_job_settles_within_cycle_witness :
  Map_get (jobId overdueJob)
    (pendingJobs (snd (pollOnce defaultConfig (quiet [unmarkedVideo]) overdueState))) = None
  ∧ ∃ new, trace (snd (pollOnce defaultConfig (quiet [unmarkedVideo]) overdueState))
           = new ++ trace overdueState
           ∧ ((∃ r, Resolved (promise overdueJob) r ∈ new)
              ∨ Rejected (promise overdueJob) (jobId overdueJob) ∈ new)
           ∧ NoDup (settledPromises new).
Proof.
  apply (expired_job_settles_within_cycle defaultConfig (quiet [unmarkedVideo])
           overdueState overdueJob).
  - apply run_Inv, initialState_Inv.
  - reflexivity.
  - vm_compute. by left.
  - reflexivity.
  - constructor.
  - constructor.
  - reflexivity.
Defined.

Example overdue_job_is_rejected :
  trace (snd (pollOnce defaultConfig (quiet [unmarkedVideo]) overdueState))
  = [Rejected (promise overdueJob) (jobId overdueJob); Fetched [unmarkedVideo]]
  ∧ pendingJobs (snd (pollOnce defaultConfig (quiet [unmarkedVideo]) overdueState)) = [].
Proof. by vm_compute. Qed.

(** The loop is idle after the client is stored and before any job is
    registered; the first registration starts the one instance. *)
Lemma registration_starts_one_loop_witness :
  loops (waitForVideoViaPoller (exampleRequest "a1" 900 1000)
           (run defaultConfig [Outside ClientAcquired] initialState)) = 1%nat
  ∧ pollerRunning (waitForVideoViaPoller (exampleRequest "a1" 900 1000)
                     (run defaultConfig [Outside ClientAcquired] initialState)) = true.
Proof.
  apply (registration_starts_one_loop defaultConfig [Outside ClientAcquired]); reflexivity.
Defined.

(** * Further properties of the code *)

(** ** The marker, in general *)

Lemma run_after_split (s : jsstring) : s = runNotRBracket s ++ afterRun s.
Proof.
  induction s as [|c s IH]; simpl; [done|].
  destruct (notRBracket c); simpl; [by rewrite <- IH|done].
Qed.

Lemma runNotRBracket_forallb (s : jsstring) : forallb notRBracket (runNotRBracket s) = true.
Proof.
  induction s as [|c s IH]; simpl; [done|].
  destruct (notRBracket c) eqn:Hc; simpl; [by rewrite Hc|done].
Qed.

Lemma afterRun_head (s : jsstring) :
  afterRun s = [] ∨ ∃ t, afterRun s = RBRACKET :: t.
Proof.
  induction s as [|c s IH]; simpl; [by left|].
  destruct (notRBracket c) eqn:Hc; [done|]. right. exists s.
  unfold notRBracket in Hc. destruct (N.eqb_spec c RBRACKET) as [->|]; done.
Qed.

(** What the tail of the pattern captures from a run that a [']'] closes. *)
Lemma matchTail_closed (r t : jsstring) :
  r ≠ [] →
  forallb notRBracket r = true →
  matchTail (r ++ RBRACKET :: t) = Some (captureOf r).
Proof.
  unfold matchTail. induction r as [|c r IH]; [done|]. intros _ Hnb.
  simpl in Hnb. apply andb_prop in Hnb as [Hc Hr].
  change ((c :: r) ++ RBRACKET :: t) with (c :: (r ++ RBRACKET :: t)).
  rewrite greedyStar_cons.
  assert (greedyPlus notRBracket (c :: r ++ RBRACKET :: t) closeBracket = Some (c :: r))
    as Hplus.
  { rewrite greedyPlus_run.
    change (c :: r ++ RBRACKET :: t) with ((c :: r) ++ RBRACKET :: t).
    destruct (runNotRBracket_app (c :: r) t) as [-> ->]; [by simpl; rewrite Hc, Hr|].
    reflexivity. }
  simpl captureOf. destruct (isWhiteSpace c).
  - destruct r as [|c' r'].
    + by rewrite Hplus.
    + by rewrite IH.
  - by rewrite Hplus.
Qed.

Lemma matchTail_Some (r0 g : jsstring) :
  matchTail r0 = Some g →
  runNotRBracket r0 ≠ [] ∧ g = captureOf (runNotRBracket r0).
Proof.
  intros Hm.
  destruct (runNotRBracket r0) as [|c r] eqn:Hrun.
  { assert (matchTail r0 = None) as Hn by (apply matchTail_None; by left). congruence. }
  split; [done|].
  destruct (afterRun_head r0) as [Hnil|[t Ht]].
  { assert (matchTail r0 = None) as Hn by (apply matchTail_None; by right). congruence. }
  rewrite (run_after_split r0), Hrun, Ht in Hm.
  rewrite matchTail_closed in Hm; [congruence|done|].
  rewrite <- Hrun. apply runNotRBracket_forallb.
Qed.

(** *** Trimming *)

Lemma trimStart_forallb (f : N → bool) (s : jsstring) :
  forallb f s = true → forallb f (trimStart s) = true.
Proof.
  induction s as [|c s IH]; simpl; [done|]. intros [Hc Hs]%andb_prop.
  destruct (isWhiteSpace c); [by apply IH|]. simpl. by rewrite Hc, Hs.
Qed.

Lemma forallb_reverse (f : N → bool) (s : jsstring) :
  forallb f (reverse s) = forallb f s.
Proof.
  induction s as [|c s IH]; simpl; [done|].
  rewrite reverse_cons, forallb_app, IH. simpl. rewrite andb_true_r. apply andb_comm.
Qed.

Lemma trim_forallb (f : N → bool) (s : jsstring) :
  forallb f s = true → forallb f (trim s) = true.
Proof.
  intros Hs. unfold trim, trimEnd. rewrite forallb_reverse.
  apply trimStart_forallb. rewrite forallb_reverse. by apply trimStart_forallb.
Qed.

Lemma trimStart_head (s : jsstring) :
  from_option isWhiteSpace false (head (trimStart s)) = false.
Proof.
  induction s as [|c s IH]; simpl; [done|].
  destruct (isWhiteSpace c) eqn:Hc; [done|]. simpl. done.
Qed.

Lemma trimEnd_snoc (s : jsstring) (c : N) :
  trimEnd (s ++ [c]) = if isWhiteSpace c then trimEnd s else s ++ [c].
Proof.
  unfold trimEnd. rewrite reverse_snoc. simpl.
  destruct (isWhiteSpace c); [done|]. by rewrite reverse_cons, reverse_involutive.
Qed.

Lemma trimEnd_nil : trimEnd [] = [].
Proof. reflexivity. Qed.

Lemma trimEnd_last (s : jsstring) :
  from_option isWhiteSpace false (last (trimEnd s)) = false.
Proof.
  unfold trimEnd. rewrite last_reverse. apply trimStart_head.
Qed.

Lemma trimEnd_head (s : jsstring) :
  from_option isWhiteSpace false (head s) = false →
  from_option isWhiteSpace false (head (trimEnd s)) = false.
Proof.
  induction s as [|c s IH] using rev_ind; [done|].
  rewrite trimEnd_snoc. destruct (isWhiteSpace c) eqn:Hc; [|done].
  destruct s as [|a s]; [simpl; by rewrite Hc|]. simpl. intros Ha. by apply IH.
Qed.

Lemma trim_noOuterWhiteSpace (s : jsstring) : noOuterWhiteSpace (trim s) = true.
Proof.
  unfold noOuterWhiteSpace, trim.
  rewrite trimEnd_head by apply trimStart_head. by rewrite trimEnd_last.
Qed.

Lemma trimStart_idem_trim (c : N) (s : jsstring) :
  isWhiteSpace c = true → trim (c :: s) = trim s.
Proof. intros Hc. unfold trim. simpl. by rewrite Hc. Qed.

Lemma trim_captureOf (r : jsstring) : trim (captureOf r) = trim r.
Proof.
  induction r as [|c r IH]; [done|]. simpl captureOf.
  destruct (isWhiteSpace c) eqn:Hc; [|done].
  rewrite (trimStart_idem_trim c r Hc). destruct r as [|c' r']; [|exact IH].
  unfold trim. simpl. by rewrite Hc.
Qed.

Lemma captureOf_forallb (f : N → bool) (r : jsstring) :
  forallb f r = true → forallb f (captureOf r) = true.
Proof.
  induction r as [|c r IH]; [done|]. intros Hr. simpl captureOf.
  pose proof Hr as [Hc Hr']%andb_prop.
  destruct (isWhiteSpace c).
  - destruct r as [|c' r'].
    + simpl. by rewrite Hc.
    + by apply IH.
  - done.
Qed.

(** *** What an extracted id looks like *)

Lemma regexSearch_Some (text g : jsstring) :
  regexSearch text = Some g →
  ∃ pre s, text = pre ++ s ∧ matchMarkerAt s = Some g.
Proof.
  induction text as [|c text IH].
  - done.
  - rewrite regexSearch_cons. destruct (matchMarkerAt (c :: text)) eqn:Hm.
    + intros [= ->]. by exists [], (c :: text).
    + intros (pre & s & -> & Hs)%IH. by exists (c :: pre), s.
Qed.

Lemma stripPrefix_Some (p s r : jsstring) :
  stripPrefix p s = Some r → s = p ++ r.
Proof.
  revert s. induction p as [|a p IH]; intros s; simpl; [by intros [= ->]|].
  destruct s as [|b s]; [done|]. destruct (N.eqb_spec a b) as [->|]; [|done].
  intros ->%IH. done.
Qed.

(** An extracted id never holds a [']'] and never starts or ends with white
    space: it is the trimmed text between an opening [[JOB_ID:] and the
    next [']']. *)
Theorem extracted_id_shape (text id : jsstring) :
  extractJobIdFromText text = Some id →
  forallb notRBracket id = true
  ∧ noOuterWhiteSpace id = true
  ∧ ∃ pre run post,
      text = pre ++ lit "[JOB_ID:" ++ run ++ RBRACKET :: post
      ∧ run ≠ []
      ∧ forallb notRBracket run = true
      ∧ id = trim run.
Proof.
  unfold extractJobIdFromText. destruct (regexSearch text) as [g|] eqn:Hs; [|done].
  intros [= <-]. apply regexSearch_Some in Hs as (pre & s & -> & Hm).
  unfold matchMarkerAt in Hm.
  destruct (stripPrefix (lit "[JOB_ID:") s) as [r0|] eqn:Hp; [|done].
  apply stripPrefix_Some in Hp as ->.
  apply matchTail_Some in Hm as Hrun. destruct Hrun as [Hne ->].
  pose proof (runNotRBracket_forallb r0) as Hnb.
  split_and!.
  - by apply trim_forallb, captureOf_forallb.
  - apply trim_noOuterWhiteSpace.
  - destruct (afterRun_head r0) as [Hnil|[t Ht]].
    { assert (matchTail r0 = None) as Hn by (apply matchTail_None; by right). congruence. }
    exists pre, (runNotRBracket r0), t. split_and!; [|done|done|apply trim_captureOf].
    by rewrite <- Ht, <- run_after_split.
Qed.

(** *** The marker wherever it stands *)

Lemma stripPrefix_fresh (p s t : jsstring) (x : N) :
  x ∉ p → stripPrefix p s = None → stripPrefix p (s ++ x :: t) = None.
Proof.
  revert s. induction p as [|a p IH]; intros s Hp Hs; simpl in *; [done|].
  apply not_elem_of_cons in Hp as [Ha Hp].
  destruct s as [|b s]; simpl.
  - destruct (N.eqb_spec a x); [congruence | done].
  - destruct (a =? b)%N; [by apply IH | done].
Qed.

Lemma stripPrefix_snoc_white (s : jsstring) (c : N) :
  isWhiteSpace c = true →
  stripPrefix (lit "[JOB_ID:") s = None →
  stripPrefix (lit "[JOB_ID:") (s ++ [c]) = None.
Proof.
  intros Hc. apply stripPrefix_fresh. vm_compute.
  repeat (apply not_elem_of_cons; split; [intros ->; by vm_compute in Hc|]).
  apply not_elem_of_nil.
Qed.

Lemma stripPrefix_opening (s t : jsstring) :
  s ≠ [] →
  stripPrefix (lit "[JOB_ID:") s = None →
  stripPrefix (lit "[JOB_ID:") (s ++ 91%N :: t) = None.
Proof.
  destruct s as [|b s]; [done|]. intros _.
  change (lit "[JOB_ID:") with (91%N :: lit "JOB_ID:").
  change ((b :: s) ++ 91%N :: t) with (b :: (s ++ 91%N :: t)).
  cbn [stripPrefix]. destruct (91 =? b)%N; [|done]. apply stripPrefix_fresh. vm_compute.
  repeat (apply not_elem_of_cons; split; [done|]). apply not_elem_of_nil.
Qed.

Lemma matchMarkerAt_extend_opening (s t : jsstring) :
  s ≠ [] →
  matchMarkerAt s = None →
  (∀ r, stripPrefix (lit "[JOB_ID:") s = Some r → forallb notRBracket r = false) →
  matchMarkerAt (s ++ 91%N :: t) = None.
Proof.
  unfold matchMarkerAt. intros Hne Hm Hclosed.
  destruct (stripPrefix (lit "[JOB_ID:") s) as [r|] eqn:Hs.
  - rewrite (stripPrefix_Some_app _ _ _ _ Hs).
    specialize (Hclosed r eq_refl).
    apply matchTail_None in Hm as [Hrun|Hafter].
    + apply matchTail_None. left. apply runNotRBracket_nil_app; [|done].
      intros ->. done.
    + apply afterRun_nil_forallb in Hafter. congruence.
  - by rewrite stripPrefix_opening.
Qed.

Lemma regexSearch_extend_opening (pre t : jsstring) :
  regexSearch pre = None →
  hasUnclosedMarker pre = false →
  regexSearch (pre ++ 91%N :: t) = regexSearch (91%N :: t).
Proof.
  induction pre as [|c p IH]; intros Hs Hu; [reflexivity|].
  rewrite regexSearch_cons in Hs.
  destruct (matchMarkerAt (c :: p)) eqn:Hm; [done|].
  assert (hasUnclosedMarker p = false
          ∧ ∀ r, stripPrefix (lit "[JOB_ID:") (c :: p) = Some r →
                 forallb notRBracket r = false) as [Hu' Hcl].
  { rewrite hasUnclosedMarker_cons in Hu.
    destruct (stripPrefix (lit "[JOB_ID:") (c :: p)) as [r|].
    - destruct (forallb notRBracket r) eqn:Hr; [done|].
      split; [done|]. by intros ? [= <-].
    - split; [done|]. intros; done. }
  change ((c :: p) ++ 91%N :: t) with (c :: (p ++ 91%N :: t)).
  rewrite regexSearch_cons.
  change (c :: (p ++ 91%N :: t)) with ((c :: p) ++ 91%N :: t).
  rewrite (matchMarkerAt_extend_opening (c :: p) t ltac:(done) Hm Hcl). by apply IH.
Qed.

Lemma extract_embedded (pre run post : jsstring) :
  extractJobIdFromText pre = None →
  hasUnclosedMarker pre = false →
  run ≠ [] →
  forallb notRBracket run = true →
  extractJobIdFromText (pre ++ lit "[JOB_ID:" ++ run ++ RBRACKET :: post)
  = Some (trim run).
Proof.
  intros Hnone Hclosed Hne Hnb.
  assert (regexSearch pre = None) as Hsearch.
  { unfold extractJobIdFromText in Hnone. by destruct (regexSearch pre). }
  unfold extractJobIdFromText.
  change (lit "[JOB_ID:" ++ run ++ RBRACKET :: post)
    with (91%N :: lit "JOB_ID:" ++ run ++ RBRACKET :: post).
  rewrite (regexSearch_extend_opening pre _ Hsearch Hclosed).
  change (91%N :: lit "JOB_ID:" ++ run ++ RBRACKET :: post)
    with (lit "[JOB_ID:" ++ run ++ RBRACKET :: post).
  rewrite (regexSearch_here (lit "[JOB_ID:" ++ run ++ RBRACKET :: post) (captureOf run)).
  - by rewrite trim_captureOf.
  - unfold matchMarkerAt. rewrite stripPrefix_app. by apply matchTail_closed.
Qed.

(** In a text whose part before the marker holds no marker and no unclosed
    opening, the id extracted is the trimmed text between [[JOB_ID:] and the
    next [']'], whatever follows. *)
Theorem embedded_marker_is_extracted (pre run post : jsstring) :
  extractJobIdFromText pre = None →
  hasUnclosedMarker pre = false →
  run ≠ [] →
  forallb notRBracket run = true →
  extractJobIdFromText (pre ++ lit "[JOB_ID:" ++ run ++ RBRACKET :: post)
  = Some (trim run).
Proof. apply extract_embedded. Qed.

Lemma embedded_marker_is_extracted_witness :
  extractJobIdFromText
    (lit "ready [JOB_ID:]: " ++ lit "[JOB_ID:" ++ lit "  a1 " ++ RBRACKET :: lit " and [JOB_ID: b2]")
  = Some (trim (lit "  a1 ")).
Proof. apply embedded_marker_is_extracted; reflexivity || (by vm_compute). Defined.

(** The job id read back from the outbound content is the id without its
    outer white space, for every id without [']'], the empty id included. *)
Theorem marker_roundtrip_trims (prompt jobId : jsstring) :
  extractJobIdFromText prompt = None →
  hasUnclosedMarker prompt = false →
  forallb notRBracket jobId = true →
  extractJobIdFromText (addJobIdToPrompt prompt jobId) = Some (trim jobId).
Proof.
  intros Hnone Hclosed Hnb.
  assert (regexSearch prompt = None) as Hsearch.
  { unfold extractJobIdFromText in Hnone. by destruct (regexSearch prompt). }
  unfold extractJobIdFromText, addJobIdToPrompt. cbv zeta.
  change (prompt ++ [LF; LF] ++ ?m) with (prompt ++ LF :: LF :: m).
  rewrite (regexSearch_extend prompt _ Hsearch Hclosed).
  rewrite !regexSearch_cons.
  change (matchMarkerAt (LF :: LF :: ?m)) with (@None jsstring).
  change (matchMarkerAt (LF :: ?m)) with (@None jsstring). cbv iota.
  rewrite (regexSearch_here (lit "[JOB_ID: " ++ jobId ++ lit "]")
             (captureOf (32%N :: jobId))).
  - rewrite trim_captureOf. reflexivity.
  - change (lit "[JOB_ID: " ++ jobId ++ lit "]")
      with (lit "[JOB_ID:" ++ (32%N :: jobId) ++ RBRACKET :: []).
    unfold matchMarkerAt. rewrite stripPrefix_app. apply matchTail_closed; [done|].
    simpl. by rewrite Hnb.
Qed.

Lemma marker_roundtrip_trims_witness :
  extractJobIdFromText (addJobIdToPrompt (lit "a cat") (lit " job 7  "))
  = Some (trim (lit " job 7  ")).
Proof. apply marker_roundtrip_trims; reflexivity. Defined.

Lemma extracted_id_shape_witness :
  forallb notRBracket (lit "a1") = true
  ∧ noOuterWhiteSpace (lit "a1") = true
  ∧ ∃ pre run post,
      lit "video [JOB_ID:  a1 ] ok" = pre ++ lit "[JOB_ID:" ++ run ++ RBRACKET :: post
      ∧ run ≠ []
      ∧ forallb notRBracket run = true
      ∧ lit "a1" = trim run.
Proof. apply (extracted_id_shape (lit "video [JOB_ID:  a1 ] ok")). reflexivity. Defined.

(** *** Trimming the text changes nothing for the marker *)

Lemma matchTail_eq (r0 : jsstring) :
  matchTail r0
  = match afterRun r0 with
    | [] => None
    | _ :: _ =>
        match runNotRBracket r0 with
        | [] => None
        | r => Some (captureOf r)
        end
    end.
Proof.
  destruct (afterRun_head r0) as [Hnil|[t Ht]].
  - rewrite Hnil. apply matchTail_None. by right.
  - rewrite Ht. destruct (runNotRBracket r0) as [|c r] eqn:Hrun.
    + apply matchTail_None. by left.
    + rewrite (run_after_split r0) at 1. rewrite Hrun, Ht.
      apply matchTail_closed; [done|]. rewrite <- Hrun. apply runNotRBracket_forallb.
Qed.

Lemma afterRun_snoc (r0 : jsstring) (c : N) :
  notRBracket c = true →
  afterRun (r0 ++ [c]) = match afterRun r0 with [] => [] | a => a ++ [c] end.
Proof.
  intros Hc. induction r0 as [|x r IH]; simpl; [by rewrite Hc|].
  destruct (notRBracket x); [exact IH|done].
Qed.

Lemma runNotRBracket_snoc (r0 : jsstring) (c : N) :
  afterRun r0 ≠ [] → runNotRBracket (r0 ++ [c]) = runNotRBracket r0.
Proof.
  induction r0 as [|x r IH]; simpl; [done|].
  destruct (notRBracket x); [|done]. intros Hne. by rewrite IH.
Qed.

Lemma matchTail_snoc (r0 : jsstring) (c : N) :
  notRBracket c = true → matchTail (r0 ++ [c]) = matchTail r0.
Proof.
  intros Hc. rewrite !matchTail_eq, (afterRun_snoc r0 c Hc).
  destruct (afterRun r0) as [|a t] eqn:Ha; [done|].
  rewrite runNotRBracket_snoc by by rewrite Ha. done.
Qed.

Lemma matchMarkerAt_snoc_white (s : jsstring) (c : N) :
  isWhiteSpace c = true → matchMarkerAt (s ++ [c]) = matchMarkerAt s.
Proof.
  intros Hc. unfold matchMarkerAt.
  destruct (stripPrefix (lit "[JOB_ID:") s) as [r0|] eqn:Hs.
  - rewrite (stripPrefix_Some_app _ _ _ _ Hs).
    by apply matchTail_snoc, isWhiteSpace_notRBracket.
  - by rewrite stripPrefix_snoc_white.
Qed.

Lemma regexSearch_snoc_white (s : jsstring) (c : N) :
  isWhiteSpace c = true → regexSearch (s ++ [c]) = regexSearch s.
Proof.
  intros Hc. induction s as [|x s IH].
  - change ([] ++ [c]) with [c]. rewrite regexSearch_cons.
    change [c] with ([] ++ [c]). by rewrite matchMarkerAt_snoc_white.
  - change ((x :: s) ++ [c]) with (x :: (s ++ [c])). rewrite !regexSearch_cons.
    change (x :: (s ++ [c])) with ((x :: s) ++ [c]).
    by rewrite matchMarkerAt_snoc_white, IH.
Qed.

Lemma regexSearch_cons_white (c : N) (s : jsstring) :
  isWhiteSpace c = true → regexSearch (c :: s) = regexSearch s.
Proof.
  intros Hc. rewrite regexSearch_cons.
  assert (matchMarkerAt (c :: s) = None) as ->; [|done].
  unfold matchMarkerAt. change (lit "[JOB_ID:") with (91%N :: lit "JOB_ID:").
  cbn [stripPrefix]. destruct (N.eqb_spec 91 c) as [<-|]; [by vm_compute in Hc|done].
Qed.

Lemma regexSearch_trimStart (s : jsstring) : regexSearch (trimStart s) = regexSearch s.
Proof.
  induction s as [|c s IH]; simpl trimStart; [done|].
  destruct (isWhiteSpace c) eqn:Hc; [|done]. by rewrite regexSearch_cons_white.
Qed.

Lemma regexSearch_trimEnd (s : jsstring) : regexSearch (trimEnd s) = regexSearch s.
Proof.
  induction s as [|c s IH] using rev_ind; [done|].
  rewrite trimEnd_snoc. destruct (isWhiteSpace c) eqn:Hc; [|done].
  by rewrite regexSearch_snoc_white.
Qed.

Lemma regexSearch_trim (s : jsstring) : regexSearch (trim s) = regexSearch s.
Proof. unfold trim. by rewrite regexSearch_trimEnd, regexSearch_trimStart. Qed.

(** White space around a text plays no part in the extraction. *)
Theorem extractJobIdFromText_trim (s : jsstring) :
  extractJobIdFromText (trim s) = extractJobIdFromText s.
Proof. unfold extractJobIdFromText. by rewrite regexSearch_trim. Qed.

(** *** From an inbound message to its mark *)

(** The text of a message that has a body: the body, and the caption, when
    there is one, after a space. *)
Lemma getMessageFullText_body (m : Message) (body : jsstring) :
  msg_message m = Some body →
  ∃ post, getMessageFullText m = trim (body ++ post).
Proof.
  intros Hb. unfold getMessageFullText. rewrite Hb.
  destruct (msg_media m) as [media|]; [|exists []; simpl; by rewrite app_nil_r].
  destruct (media_caption media) as [cap|[t|]|]; simpl.
  - by exists (lit " " ++ cap).
  - by exists (lit " " ++ t).
  - by exists (lit " ").
  - exists []. by rewrite app_nil_r.
Qed.

Lemma hasUnclosedMarker_extend (prompt t : jsstring) :
  hasUnclosedMarker prompt = false →
  hasUnclosedMarker (prompt ++ LF :: t) = hasUnclosedMarker (LF :: t).
Proof.
  induction prompt as [|c p IH]; [done|]. rewrite hasUnclosedMarker_cons.
  change ((c :: p) ++ LF :: t) with (c :: (p ++ LF :: t)).
  rewrite hasUnclosedMarker_cons.
  change (c :: (p ++ LF :: t)) with ((c :: p) ++ LF :: t).
  destruct (stripPrefix (lit "[JOB_ID:") (c :: p)) as [r|] eqn:Hs.
  - rewrite (stripPrefix_Some_app _ _ _ _ Hs).
    destruct (forallb notRBracket r) eqn:Hr; [done|].
    rewrite forallb_app, Hr. simpl. apply IH.
  - rewrite stripPrefix_LF; [apply IH|vm_compute|done].
    repeat (apply not_elem_of_cons; split; [done|]). apply not_elem_of_nil.
Qed.

Lemma videoMessageInfo_echo (now : Z) (m : Message) (prompt jobId : jsstring) :
  msg_message m = Some (addJobIdToPrompt prompt jobId) →
  extractJobIdFromText prompt = None →
  hasUnclosedMarker prompt = false →
  forallb notRBracket jobId = true →
  info_jobIdMark (videoMessageInfo now m) = Some (trim jobId).
Proof.
  intros Hbody Hnone Hclosed Hnb. simpl.
  destruct (getMessageFullText_body m _ Hbody) as [post ->].
  unfold extractJobIdFromText at 1. rewrite regexSearch_trim.
  change (extractJobIdFromText (addJobIdToPrompt prompt jobId ++ post)
          = Some (trim jobId)).
  unfold addJobIdToPrompt. cbv zeta.
  replace ((prompt ++ [LF; LF] ++ lit "[JOB_ID: " ++ jobId ++ lit "]") ++ post)
    with ((prompt ++ [LF; LF]) ++ lit "[JOB_ID:" ++ (32%N :: jobId) ++ RBRACKET :: post).
  2:{ change (lit "[JOB_ID: ") with (lit "[JOB_ID:" ++ [32%N]).
      change (lit "]") with [RBRACKET]. rewrite <- !app_assoc. simpl. done. }
  assert (regexSearch prompt = None) as Hsearch.
  { unfold extractJobIdFromText in Hnone. by destruct (regexSearch prompt). }
  rewrite extract_embedded; [done| | |done|by simpl; rewrite Hnb].
  - unfold extractJobIdFromText.
    change (prompt ++ [LF; LF]) with (prompt ++ LF :: [LF]).
    by rewrite (regexSearch_extend prompt _ Hsearch Hclosed).
  - change (prompt ++ [LF; LF]) with (prompt ++ LF :: [LF]).
    by rewrite hasUnclosedMarker_extend.
Qed.

(** A message whose body is the outbound content of a job is marked for that
    job, whatever its caption and whatever white space surrounds the id. *)
Theorem echoed_prompt_is_marked (now : Z) (m : Message) (prompt jobId : jsstring) :
  msg_message m = Some (addJobIdToPrompt prompt jobId) →
  extractJobIdFromText prompt = None →
  hasUnclosedMarker prompt = false →
  forallb notRBracket jobId = true →
  info_jobIdMark (videoMessageInfo now m) = Some (trim jobId).
Proof. apply videoMessageInfo_echo. Qed.

Lemma echoed_prompt_is_marked_witness :
  info_jobIdMark
    (videoMessageInfo 0
       {| msg_id := 5;
          msg_message := Some (addJobIdToPrompt (lit "a cat") (lit "a1"));
          msg_media :=
            Some {| media_kind := MessageMediaDocument (Some (Document [DocumentAttributeVideo]));
                    media_caption := CaptionString (lit "enjoy") |};
          msg_date := DateSeconds 3 |})
  = Some (trim (lit "a1")).
Proof. apply (echoed_prompt_is_marked 0 _ (lit "a cat") (lit "a1")); reflexivity. Defined.

(** ** Registering a job *)

Lemma Map_get_set_eq (j : PendingJobInfo) (m : list PendingJobInfo) :
  Map_get (jobId j) (Map_set j m) = Some j.
Proof.
  induction m as [|x m IH]; simpl.
  - by rewrite decide_True.
  - destruct (decide (jobId x = jobId j)) as [Hx|Hx]; simpl.
    + by rewrite decide_True.
    + by rewrite decide_False.
Qed.

Lemma Map_set_length (j : PendingJobInfo) (m : list PendingJobInfo) :
  length (Map_set j m)
  = match Map_get (jobId j) m with
    | Some _ => length m
    | None => S (length m)
    end.
Proof.
  induction m as [|x m IH]; simpl; [done|].
  destruct (decide (jobId x = jobId j)); simpl; [done|]. rewrite IH.
  by destruct (Map_get (jobId j) m).
Qed.

(** With the client set, [waitForVideoViaPoller] stores under the id of the
    request a job that has not been polled, is due [DEFAULT_TIMEOUT_MS] after
    the registration and holds the next promise; the entries under other
    ids stay, and the registry grows by one exactly when the id was not in
    use. *)
Theorem registration_stores_job (req : JobRequest) (s : State) :
  clientReady s = true →
  Map_get (req_jobId req) (pendingJobs (waitForVideoViaPoller req s))
  = Some {| jobId := req_jobId req;
            requestMessageId := req_requestMessageId req;
            jobCreatedAt := req_jobCreatedAt req;
            sentAt := req_sentAt req;
            deadline := clock s + DEFAULT_TIMEOUT_MS;
            pollCount := 0;
            promise := nextPromise s |}
  ∧ (∀ k, k ≠ req_jobId req →
          Map_get k (pendingJobs (waitForVideoViaPoller req s))
          = Map_get k (pendingJobs s))
  ∧ length (pendingJobs (waitForVideoViaPoller req s))
    = match Map_get (req_jobId req) (pendingJobs s) with
      | Some _ => length (pendingJobs s)
      | None => S (length (pendingJobs s))
      end
  ∧ nextPromise (waitForVideoViaPoller req s) = S (nextPromise s).
Proof.
  intros Hready. unfold waitForVideoViaPoller. rewrite Hready.
  match goal with |- context [ensurePolling ?s2] =>
    destruct (ensurePolling_fields s2) as (-> & -> & _)
  end. simpl.
  split_and!.
  - apply (Map_get_set_eq {| jobId := req_jobId req |}).
  - intros k Hk. by apply Map_get_set_ne.
  - apply (Map_set_length {| jobId := req_jobId req |}).
  - done.
Qed.

Lemma registration_stores_job_witness :
  let s := exampleState [nearlyReadyJob] 5000 in
  let req := exampleRequest "c" 4900 5000 in
  Map_get (req_jobId req) (pendingJobs (waitForVideoViaPoller req s))
  = Some {| jobId := req_jobId req;
            requestMessageId := req_requestMessageId req;
            jobCreatedAt := req_jobCreatedAt req;
            sentAt := req_sentAt req;
            deadline := clock s + DEFAULT_TIMEOUT_MS;
            pollCount := 0;
            promise := nextPromise s |}
  ∧ (∀ k, k ≠ req_jobId req →
          Map_get k (pendingJobs (waitForVideoViaPoller req s))
          = Map_get k (pendingJobs s))
  ∧ length (pendingJobs (waitForVideoViaPoller req s))
    = match Map_get (req_jobId req) (pendingJobs s) with
      | Some _ => length (pendingJobs s)
      | None => S (length (pendingJobs s))
      end
  ∧ nextPromise (waitForVideoViaPoller req s) = S (nextPromise s).
Proof.
  apply (registration_stores_job (exampleRequest "c" 4900 5000)
           (exampleState [nearlyReadyJob] 5000)).
  reflexivity.
Defined.

(** ** The sweep, as a whole *)

Lemma Map_delete_absent (k : jsstring) (m : list PendingJobInfo) :
  k ∉ map jobId m → Map_delete k m = m.
Proof.
  induction m as [|x m IH]; simpl; [done|].
  intros [Hx Hm]%not_elem_of_cons. rewrite decide_False by done. by rewrite IH.
Qed.

Lemma Map_delete_app (k : jsstring) (m1 m2 : list PendingJobInfo) :
  Map_delete k (m1 ++ m2) = Map_delete k m1 ++ Map_delete k m2.
Proof.
  induction m1 as [|x m IH]; simpl; [done|].
  destruct (decide (jobId x = k)); simpl; by rewrite IH.
Qed.

Lemma Map_delete_unique (kept rest : list PendingJobInfo) (job : PendingJobInfo) :
  NoDup (map jobId (kept ++ job :: rest)) →
  Map_delete (jobId job) (kept ++ job :: rest) = kept ++ rest.
Proof.
  rewrite map_app. simpl. intros (Hk & Hdisj & [Hjob Hrest]%NoDup_cons)%NoDup_app.
  rewrite Map_delete_app. simpl. rewrite decide_True by done.
  rewrite !Map_delete_absent; [done|done|].
  intros Hin. apply (Hdisj _ Hin). by left.
Qed.

Lemma sweep_spec (now : Z) (rest kept : list PendingJobInfo) (s : State) :
  pendingJobs s = kept ++ rest →
  NoDup (map jobId (kept ++ rest)) →
  pendingJobs (sweep now rest s)
  = kept ++ List.filter (λ j, negb (overdue now j)) rest
  ∧ trace (sweep now rest s)
    = reverse (map rejection (List.filter (overdue now) rest)) ++ trace s
  ∧ reservedMessageIds (sweep now rest s) = reservedMessageIds s
  ∧ totalMessagesScanned (sweep now rest s) = totalMessagesScanned s.
Proof.
  revert kept s. induction rest as [|job rest IH]; intros kept s Hp Hnd.
  { simpl. by rewrite Hp. }
  cbn [sweep]. simpl List.filter. unfold overdue at 1 3.
  change (now >? deadline job) with (overdue now job).
  destruct (overdue now job) eqn:Ho; simpl negb; cbv iota.
  - destruct (IH kept (timeoutJob job s)) as (H1 & H2 & H3 & H4).
    { simpl. rewrite Hp. by apply Map_delete_unique. }
    { rewrite map_app in *. simpl in Hnd.
      apply NoDup_app in Hnd as (? & Hdisj & [? ?]%NoDup_cons).
      apply NoDup_app. split_and!; [done| |done].
      intros x Hx Hin. apply (Hdisj x Hx). by right. }
    rewrite H1, H2, H3, H4. split_and!; [done| |done|done].
    simpl. by rewrite reverse_cons, <- app_assoc.
  - destruct (IH (kept ++ [job]) s) as (H1 & H2 & H3 & H4).
    { by rewrite <- app_assoc. }
    { by rewrite <- app_assoc. }
    rewrite H1, H2, H3, H4. by rewrite <- app_assoc.
Qed.

(** [checkPendingTimeouts] never throws; it removes from the registry
    exactly the jobs whose deadline lies before the time of the sweep, in
    registry order, rejects each of them once, and touches neither the cache
    nor the counter. *)
Theorem checkPendingTimeouts_spec (s : State) :
  NoDup (map jobId (pendingJobs s)) →
  fst (checkPendingTimeouts s) = Normal tt
  ∧ pendingJobs (snd (checkPendingTimeouts s))
    = List.filter (λ j, negb (overdue (clock s) j)) (pendingJobs s)
  ∧ trace (snd (checkPendingTimeouts s))
    = reverse (map rejection (List.filter (overdue (clock s)) (pendingJobs s))) ++ trace s
  ∧ reservedMessageIds (snd (checkPendingTimeouts s)) = reservedMessageIds s
  ∧ totalMessagesScanned (snd (checkPendingTimeouts s)) = totalMessagesScanned s.
Proof.
  intros Hnd. split; [done|]. cbn [checkPendingTimeouts snd].
  by apply (sweep_spec (clock s) (pendingJobs s) [] s).
Qed.

Lemma checkPendingTimeouts_spec_witness :
  let s := exampleState [expiredJob; exampleJob "e" 900 1000 9000 0 1] 5000 in
  fst (checkPendingTimeouts s) = Normal tt
  ∧ pendingJobs (snd (checkPendingTimeouts s))
    = List.filter (λ j, negb (overdue (clock s) j)) (pendingJobs s)
  ∧ trace (snd (checkPendingTimeouts s))
    = reverse (map rejection (List.filter (overdue (clock s)) (pendingJobs s))) ++ trace s
  ∧ reservedMessageIds (snd (checkPendingTimeouts s)) = reservedMessageIds s
  ∧ totalMessagesScanned (snd (checkPendingTimeouts s)) = totalMessagesScanned s.
Proof.
  apply (checkPendingTimeouts_spec
           (exampleState [expiredJob; exampleJob "e" 900 1000 9000 0 1] 5000)).
  apply (bool_decide_unpack _). vm_compute. reflexivity.
Defined.

(** ** Properties kept by the phases of a cycle *)

Section preservation.
Context (cfg : Config) (I : State → Prop).

Lemma backgrounds_preserves (bs : list Background) (s : State) :
  (∀ b s', I s' → I (background b s')) →
  I s → I (backgrounds bs s).
Proof.
  intros Hb. revert s. induction bs as [|b bs IH]; intros s Hs; simpl; [done|].
  by apply IH, Hb.
Qed.

Lemma afterBackground_preserves (s s1 : State) :
  (∀ b s', I s' → I (background b s')) →
  (∀ v s', I s' → I (set_store v s')) →
  afterBackground s s1 → I s → I s1.
Proof.
  intros Hb Hv (bs & v & ->) Hs. apply backgrounds_preserves; [done|]. by apply Hv.
Qed.

(** Phase A keeps what its attempts keep; an attempt is made for a video
    of the list with a non-empty marker, and for the job the registry holds
    under that marker at that point. *)
Lemma matchMessagesByJobId_preserves (videoMessages : list VideoMessageInfo) :
  (∀ s info mark job,
     I s → info ∈ videoMessages → noMark info = false →
     info_jobIdMark info = Some mark → Map_get mark (pendingJobs s) = Some job →
     I (snd (attemptAssignment job info ByJobId s))) →
  ∀ s, I s → I (snd (matchMessagesByJobId videoMessages s)).
Proof.
  induction videoMessages as [|info rest IH]; intros HA s Hs; [done|].
  cbn [matchMessagesByJobId]. apply bind_snd_inv.
  - destruct (noMark info) eqn:Hno; [done|].
    destruct (info_jobIdMark info) as [mark|] eqn:Hmark; [|done].
    rewrite bind_run. unfold gets.
    destruct (Map_get mark (pendingJobs s)) as [job|] eqn:Hget; [|done].
    apply (HA s info mark job); try done. by left.
  - intros _ s' _ Hs'. apply IH; [|done].
    intros s0 info0 mark job H0 Hin. apply HA; [done|by right].
Qed.

(** Phase B keeps what its attempts keep; an attempt is made for a job of
    the list and a candidate that is eligible for it at that point. *)
Lemma fallbackLoop_preserves (fallbackJobs : list PendingJobInfo) :
  ∀ candidates : list VideoMessageInfo,
  (∀ s job info,
     I s → job ∈ fallbackJobs → info ∈ candidates →
     eligible (FALLBACK_WINDOW_MS cfg) (reservedMessageIds s) (targetTimestamp job) info →
     I (snd (attemptAssignment job info ByTimestamp s))) →
  ∀ s, I s → I (snd (fallbackLoop cfg candidates fallbackJobs s)).
Proof.
  induction fallbackJobs as [|job rest IH]; intros candidates HB s Hs; [done|].
  rewrite fallbackLoop_cons, bind_run. unfold gets.
  pose proof (selectFallback_bestOf cfg (reservedMessageIds s) candidates job) as Hbest.
  destruct (selectFallback cfg (reservedMessageIds s) candidates job)
    as [[[i selected] d]|].
  - destruct Hbest as (Hi & _ & Hel & _).
    apply bind_snd_inv.
    + apply HB; [done|by left| |done]. by eapply list_elem_of_lookup_2.
    + intros _ s' _ Hs'. apply IH; [|done].
      intros s0 job0 info0 H0 Hjob Hinfo. apply HB; [done|by right|].
      eapply elem_of_sublist; [exact Hinfo|]. apply sublist_delete.
  - apply IH; [|done].
    intros s0 job0 info0 H0 Hjob. apply HB; [done|by right].
Qed.

Lemma processFallbackMatches_preserves (videoMessages : list VideoMessageInfo)
    (fallbackJobs : list PendingJobInfo) :
  (∀ s job info,
     I s → job ∈ fallbackJobs → info ∈ videoMessages → noMark info = true →
     eligible (FALLBACK_WINDOW_MS cfg) (reservedMessageIds s) (targetTimestamp job) info →
     I (snd (attemptAssignment job info ByTimestamp s))) →
  ∀ s, I s → I (snd (processFallbackMatches cfg videoMessages fallbackJobs s)).
Proof.
  intros HB s Hs. unfold processFallbackMatches.
  destruct fallbackJobs as [|job rest] eqn:Hjobs; [done|].
  destruct (List.filter noMark videoMessages) as [|c cs] eqn:Hc; [done|].
  apply fallbackLoop_preserves; [|done].
  intros s0 job0 info0 H0 Hjob Hinfo. rewrite <- Hc in Hinfo.
  apply list_elem_of_In, filter_In in Hinfo as [Hin Hno].
  apply HB; try done. by apply list_elem_of_In.
Qed.

(** The sweep keeps what its rejections keep; a job is rejected when its
    deadline lies before the time the sweep began, which is still the time
    of the state. *)
Lemma sweep_preserves (now : Z) (jobs : list PendingJobInfo) :
  (∀ s job,
     I s → clock s = now → job ∈ jobs → deadline job < now →
     I (timeoutJob job s)) →
  ∀ s, clock s = now → I s → I (sweep now jobs s).
Proof.
  induction jobs as [|job rest IH]; intros HT s Hnow Hs; [done|].
  cbn [sweep].
  assert (∀ s0 job0, I s0 → clock s0 = now → job0 ∈ rest → deadline job0 < now →
                     I (timeoutJob job0 s0)) as HT'.
  { intros s0 job0 H0 Hc Hin. apply HT; [done|done|by right]. }
  destruct (now >? deadline job) eqn:Hd.
  - apply IH; [done|done|]. apply HT; [done|done|by left|lia].
  - by apply IH.
Qed.

Lemma checkPendingTimeouts_preserves (s : State) :
  (∀ s' job,
     I s' → clock s' = clock s → job ∈ pendingJobs s → deadline job < clock s →
     I (timeoutJob job s')) →
  I s → I (snd (checkPendingTimeouts s)).
Proof. intros HT Hs. by apply sweep_preserves. Qed.

(** *** Properties kept by every step of the process *)

(** [J] is what [I] knows of every pending job. *)
Context (J : PendingJobInfo → Prop).
Hypothesis I_pending : ∀ s x, I s → x ∈ pendingJobs s → J x.
Hypothesis I_background : ∀ b s, I s → I (background b s).
Hypothesis I_store : ∀ v s, I s → I (set_store v s).
Hypothesis I_fetched :
  ∀ batch s, I s →
    I (set_totalMessagesScanned
         (totalMessagesScanned (emit (Fetched batch) s) + Z.of_nat (length batch))
         (emit (Fetched batch) s)).
Hypothesis I_marked :
  ∀ now batch info mark job s,
    I s → info ∈ filterVideoMessages now batch → noMark info = false →
    info_jobIdMark info = Some mark → Map_get mark (pendingJobs s) = Some job →
    I (snd (attemptAssignment job info ByJobId s)).
Hypothesis I_fallback :
  ∀ now batch info job s,
    I s → J job → fallbackReady cfg job = true →
    info ∈ filterVideoMessages now batch → noMark info = true →
    eligible (FALLBACK_WINDOW_MS cfg) (reservedMessageIds s) (targetTimestamp job) info →
    I (snd (attemptAssignment job info ByTimestamp s)).
Hypothesis I_counted :
  ∀ s, I s → I (set_pendingJobs (map bumpPollCount (pendingJobs s)) s).
Hypothesis I_timeout :
  ∀ job s, I s → J job → deadline job < clock s → I (timeoutJob job s).
Hypothesis I_poller : ∀ v n s, I s → I (set_poller v n s).

Lemma pollOnce_preserves_sites (w : Await (list Message)) (s : State) :
  I s → I (snd (pollOnce cfg w s)).
Proof.
  intros Hs. unfold pollOnce. rewrite bind_run. unfold gets.
  destruct (clientReady s); cbn [negb]; [|done].
  rewrite bind_run. unfold getMessages.
  pose proof (backgrounds_preserves (during w) s I_background Hs) as Hs1.
  destruct (answer w) as [batch|]; [|done].
  rewrite bind_run. unfold modify at 1. rewrite bind_run.
  pose proof (I_fetched batch _ Hs1) as Hs2.
  set (s2 := set_totalMessagesScanned _ _) in *.
  apply bind_snd_inv.
  { apply matchMessagesByJobId_preserves; [|done].
    intros s0 info mark job H0 Hin Hno Hmark Hget.
    by apply (I_marked (clock s2) batch info mark). }
  intros _ s3 _ Hs3. rewrite bind_run. unfold collectFallbackReadyJobs.
  pose proof (I_counted s3 Hs3) as Hs4.
  apply bind_snd_inv.
  - apply processFallbackMatches_preserves; [|done].
    intros s0 job info H0 Hjob Hin Hno Hel.
    apply list_elem_of_In, filter_In in Hjob as [Hjob%list_elem_of_In Hr].
    apply (I_fallback (clock s2) batch); try done.
    by apply (I_pending _ _ Hs4).
  - intros _ s5 _ Hs5. apply checkPendingTimeouts_preserves; [|done].
    intros s' job H' Hc Hin Hd. apply I_timeout; [done| |lia].
    by apply (I_pending s5).
Qed.

Lemma step_preserves_sites (e : Event) (s : State) : I s → I (step cfg e s).
Proof.
  intros Hs. destruct e as [b|c|]; simpl.
  - by apply I_background.
  - unfold pollLoopTurn. destruct (loops s) as [|n]; [done|].
    destruct (pendingJobs s) as [|job rest].
    + by apply I_poller.
    + by apply pollOnce_preserves_sites, I_store.
  - unfold pollLoopCrash. destruct (loops s) as [|n]; [done|]. by apply I_poller.
Qed.

Lemma run_preserves_sites (events : list Event) (s : State) :
  I s → I (run cfg events s).
Proof.
  revert s. induction events as [|e rest IH]; intros s Hs; simpl; [done|].
  by apply IH, step_preserves_sites.
Qed.
End preservation.

(** The same, for a property whose attempts need nothing of the video. *)
Lemma pollOnce_preserves (cfg : Config) (I : State → Prop) (J : PendingJobInfo → Prop) :
  (∀ s x, I s → x ∈ pendingJobs s → J x) →
  (∀ b s, I s → I (background b s)) →
  (∀ batch s, I s →
     I (set_totalMessagesScanned
          (totalMessagesScanned (emit (Fetched batch) s) + Z.of_nat (length batch))
          (emit (Fetched batch) s))) →
  (∀ job info method s, I s → J job → I (snd (attemptAssignment job info method s))) →
  (∀ s, I s → I (set_pendingJobs (map bumpPollCount (pendingJobs s)) s)) →
  (∀ job s, I s → J job → deadline job < clock s → I (timeoutJob job s)) →
  ∀ (w : Await (list Message)) (s : State), I s → I (snd (pollOnce cfg w s)).
Proof.
  intros Hp Hb Hf Ha Hc Ht. apply (pollOnce_preserves_sites cfg I J); try done.
  - intros now batch info mark job s H0 _ _ _ [Hin _]%Map_get_elem.
    apply Ha; [done|]. by apply (Hp s).
  - intros now batch info job s H0 Hjob _ _ _ _. by apply Ha.
Qed.

Lemma run_preserves (cfg : Config) (I : State → Prop) (J : PendingJobInfo → Prop) :
  (∀ s x, I s → x ∈ pendingJobs s → J x) →
  (∀ b s, I s → I (background b s)) →
  (∀ v s, I s → I (set_store v s)) →
  (∀ batch s, I s →
     I (set_totalMessagesScanned
          (totalMessagesScanned (emit (Fetched batch) s) + Z.of_nat (length batch))
          (emit (Fetched batch) s))) →
  (∀ job info method s, I s → J job → I (snd (attemptAssignment job info method s))) →
  (∀ s, I s → I (set_pendingJobs (map bumpPollCount (pendingJobs s)) s)) →
  (∀ job s, I s → J job → deadline job < clock s → I (timeoutJob job s)) →
  (∀ v n s, I s → I (set_poller v n s)) →
  ∀ (events : list Event) (s : State), I s → I (run cfg events s).
Proof.
  intros Hp Hb Hv Hf Ha Hc Ht Hl. apply (run_preserves_sites cfg I J); try done.
  - intros now batch info mark job s H0 _ _ _ [Hin _]%Map_get_elem.
    apply Ha; [done|]. by apply (Hp s).
  - intros now batch info job s H0 Hjob _ _ _ _. by apply Ha.
Qed.

(** ** The registry across the background *)

Lemma background_pending_new (b : Background) (s : State) (x : PendingJobInfo) :
  x ∈ pendingJobs (background b s) →
  x ∈ pendingJobs s ∨ (nextPromise s ≤ promise x)%nat.
Proof.
  destruct b as [|req|ids|ms]; simpl; try by left.
  unfold waitForVideoViaPoller. destruct (clientReady s); [|by left].
  match goal with |- context [ensurePolling ?s2] =>
    destruct (ensurePolling_fields s2) as (-> & _)
  end. simpl.
  intros [-> | Hx]%Map_set_elem; [right; simpl; lia|by left].
Qed.

Lemma backgrounds_pending_new (bs : list Background) (s : State) (x : PendingJobInfo) :
  x ∈ pendingJobs (backgrounds bs s) →
  x ∈ pendingJobs s ∨ (nextPromise s ≤ promise x)%nat.
Proof.
  revert s. induction bs as [|b bs IH]; intros s; simpl; [by left|].
  intros [[Hx | Hx]%background_pending_new | Hx]%IH; [by left|by right|].
  right. pose proof (grows_promise _ _ (background_Grows b s)). lia.
Qed.

Lemma afterBackground_pending_new (s s1 : State) (x : PendingJobInfo) :
  afterBackground s s1 →
  x ∈ pendingJobs s1 →
  x ∈ pendingJobs s ∨ (nextPromise s ≤ promise x)%nat.
Proof. intros (bs & v & ->) Hx. by apply backgrounds_pending_new in Hx. Qed.

(** What is known of a promise stays known while the registry only loses
    entries or gains entries with newer promises. *)
Lemma About_frame (p : nat) (P : PendingJobInfo → Prop) (s s' : State) :
  (nextPromise s ≤ nextPromise s')%nat →
  (∀ x, x ∈ pendingJobs s' → x ∈ pendingJobs s ∨ (nextPromise s ≤ promise x)%nat) →
  About p P s → About p P s'.
Proof.
  intros Hn Hp [Hc Hx]. split; [lia|].
  intros x [Hin | Hnew]%Hp Heq; [by apply Hx|lia].
Qed.

Lemma About_background (p : nat) (P : PendingJobInfo → Prop) (b : Background) (s : State) :
  About p P s → About p P (background b s).
Proof.
  apply About_frame; [apply (grows_promise _ _ (background_Grows b s))|].
  intros x. apply background_pending_new.
Qed.

Lemma About_afterBackground (p : nat) (P : PendingJobInfo → Prop) (s s1 : State) :
  afterBackground s s1 → About p P s → About p P s1.
Proof.
  intros Hbg. apply About_frame; [apply (grows_promise _ _ (afterBackground_Grows _ _ Hbg))|].
  intros x. by apply afterBackground_pending_new.
Qed.

Lemma About_same (p : nat) (P : PendingJobInfo → Prop) (s s' : State) :
  nextPromise s' = nextPromise s →
  sublist (pendingJobs s') (pendingJobs s) →
  About p P s → About p P s'.
Proof.
  intros Hn Hsub. apply About_frame; [lia|].
  intros x Hx. left. by eapply elem_of_sublist.
Qed.

Lemma About_counted (p : nat) (P Q : PendingJobInfo → Prop) (s : State) :
  (∀ x, P x → Q (bumpPollCount x)) →
  About p P s → About p Q (set_pendingJobs (map bumpPollCount (pendingJobs s)) s).
Proof.
  intros HPQ [Hc Hx]. split; [done|]. simpl.
  intros x (y & Hy & ->)%elem_of_map_bumpPollCount Heq. apply HPQ. by apply Hx.
Qed.

(** The states an attempt can end in keep what is known of a promise. *)
Lemma About_attemptAssignment (p : nat) (P : PendingJobInfo → Prop)
    (job : PendingJobInfo) (info : VideoMessageInfo) (method : MatchingMethod) (s : State) :
  About p P s → About p P (snd (attemptAssignment job info method s)).
Proof.
  intros Hs.
  destruct (attemptAssignment_cases job info method s)
    as [-> | (Hout & s1 & Hbg & [-> | [-> | ->]])]; [done|..]; cbn [snd];
    apply (About_afterBackground p P) in Hbg; try done.
  - by apply (About_same p P s1).
  - by apply (About_same p P s1).
  - apply (About_same p P s1); [done| |done]. simpl. apply Map_delete_sublist.
Qed.

Lemma About_timeoutJob (p : nat) (P : PendingJobInfo → Prop) (job : PendingJobInfo)
    (s : State) :
  About p P s → About p P (timeoutJob job s).
Proof. apply About_same; [done|]. simpl. apply Map_delete_sublist. Qed.

(** ** The effects since a point of the run *)

Lemma Since_refl (Q : Effect → Prop) (s : State) : Since (trace s) Q s.
Proof. by exists []. Qed.

Lemma Since_same (t0 : list Effect) (Q : Effect → Prop) (s s' : State) :
  trace s' = trace s → Since t0 Q s → Since t0 Q s'.
Proof. intros Ht (new & Hnew & HQ). exists new. by rewrite Ht. Qed.

Lemma Since_app (t0 : list Effect) (Q : Effect → Prop) (s s' : State)
    (more : list Effect) :
  trace s' = more ++ trace s → Forall Q more → Since t0 Q s → Since t0 Q s'.
Proof.
  intros Ht Hmore (new & Hnew & HQ). exists (more ++ new).
  split; [by rewrite Ht, Hnew, app_assoc|by apply Forall_app].
Qed.

Lemma Since_mono (t0 : list Effect) (Q Q' : Effect → Prop) (s : State) :
  (∀ e, Q e → Q' e) → Since t0 Q s → Since t0 Q' s.
Proof.
  intros HQ (new & Hnew & Hall). exists new. split; [done|].
  by eapply Forall_impl.
Qed.

Lemma Since_background (t0 : list Effect) (Q : Effect → Prop) (b : Background)
    (s : State) :
  Since t0 Q s → Since t0 Q (background b s).
Proof. apply Since_same, background_trace. Qed.

(** What one call of [attemptAssignment] adds to the trace: calls to the
    store for this video and this job and, at most, the resolution of this
    job with this video; and nothing when the video is cached as reserved. *)
Lemma attemptAssignment_effects (job : PendingJobInfo) (info : VideoMessageInfo)
    (method : MatchingMethod) (s : State) :
  ∃ new, trace (snd (attemptAssignment job info method s)) = new ++ trace s
         ∧ Forall (attemptEffect job info method) new
         ∧ (msg_id (info_message info) ∈ reservedMessageIds s → new = []).
Proof.
  destruct (attemptAssignment_cases job info method s)
    as [-> | (Hout & s1 & Hbg & [-> | [-> | ->]])]; cbn [snd].
  { by exists []. }
  all: apply afterBackground_fields in Hbg as (Ht & _ & _); simpl; rewrite Ht.
  - exists [Claimed (msg_id (info_message info)) (jobId job) method None].
    split_and!; [done|by repeat constructor|done].
  - exists [Claimed (msg_id (info_message info)) (jobId job) method (Some false)].
    split_and!; [done|by repeat constructor|done].
  - eexists [Resolved (promise job) _;
             Claimed (msg_id (info_message info)) (jobId job) method (Some true)].
    split_and!; [done|by repeat constructor|done].
Qed.

Lemma Since_attemptAssignment (t0 : list Effect) (Q : Effect → Prop)
    (job : PendingJobInfo) (info : VideoMessageInfo) (method : MatchingMethod)
    (s : State) :
  (msg_id (info_message info) ∉ reservedMessageIds s →
   ∀ e, attemptEffect job info method e → Q e) →
  Since t0 Q s → Since t0 Q (snd (attemptAssignment job info method s)).
Proof.
  intros HQ.
  destruct (attemptAssignment_effects job info method s) as (new & Hnew & Hall & Hc).
  apply (Since_app t0 Q s _ new); [done|].
  destruct (decide (msg_id (info_message info) ∈ reservedMessageIds s)) as [Hin|Hout].
  - by rewrite (Hc Hin).
  - eapply Forall_impl; [exact Hall|]. by apply HQ.
Qed.

Lemma Since_timeoutJob (t0 : list Effect) (Q : Effect → Prop) (job : PendingJobInfo)
    (s : State) :
  Q (Rejected (promise job) (jobId job)) → Since t0 Q s → Since t0 Q (timeoutJob job s).
Proof.
  intros HQ. apply (Since_app t0 Q s _ [Rejected (promise job) (jobId job)]); [done|].
  by constructor.
Qed.

Lemma Since_fetched (t0 : list Effect) (Q : Effect → Prop) (batch : list Message)
    (s : State) :
  Q (Fetched batch) →
  Since t0 Q s →
  Since t0 Q (set_totalMessagesScanned
                (totalMessagesScanned (emit (Fetched batch) s) + Z.of_nat (length batch))
                (emit (Fetched batch) s)).
Proof.
  intros HQ. apply (Since_app t0 Q s _ [Fetched batch]); [done|]. by constructor.
Qed.

Lemma not_settled_since (p : nat) (new : list Effect) :
  Forall (λ e, ¬ settles p e) new → p ∉ settledPromises new.
Proof.
  induction 1 as [|e new He Hall IH]; simpl; [by intros ?%elem_of_nil|].
  destruct e; simpl in *; try done.
  - intros [->|?]%elem_of_cons; [by apply He|done].
  - intros [->|?]%elem_of_cons; [by apply He|done].
Qed.

(** ** A job replaced under its id *)

Lemma Abandoned_run (cfg : Config) (p : nat) (t0 : list Effect) (events : list Event)
    (s : State) :
  Abandoned p t0 s → Abandoned p t0 (run cfg events s).
Proof.
  apply (run_preserves cfg (Abandoned p t0) (λ x, promise x ≠ p)).
  - intros s0 x [[_ Hx] _] Hin Heq. by apply (Hx x).
  - intros b s0 [Ha Hs]. split; [by apply About_background|by apply Since_background].
  - intros v s0 [Ha Hs]. split; [by apply (About_same _ _ s0)|by apply (Since_same _ _ s0)].
  - intros batch s0 [Ha Hs].
    split; [by apply (About_same _ _ s0)|apply Since_fetched; [by intros []|done]].
  - intros job info method s0 [Ha Hs] Hjob.
    split; [by apply About_attemptAssignment|].
    apply Since_attemptAssignment; [|done].
    intros _ [| | |] He; simpl in *; intuition congruence.
  - intros s0 [Ha Hs].
    split; [by apply (About_counted p (λ _, False) (λ _, False) s0)
           |by apply (Since_same _ _ s0)].
  - intros job s0 [Ha Hs] Hjob _. split; [by apply About_timeoutJob|].
    apply Since_timeoutJob; [|done]. simpl. congruence.
  - intros v n s0 [Ha Hs]. split; [by apply (About_same _ _ s0)|by apply (Since_same _ _ s0)].
Qed.

Lemma Map_set_elem_other (j : PendingJobInfo) (m : list PendingJobInfo)
    (x : PendingJobInfo) :
  NoDup (map jobId m) →
  x ∈ Map_set j m → x = j ∨ (x ∈ m ∧ jobId x ≠ jobId j).
Proof.
  induction m as [|y m IH]; simpl.
  - intros _ ->%list_elem_of_singleton. by left.
  - intros [Hy Hm]%NoDup_cons. destruct (decide (jobId y = jobId j)) as [Heq|Hne].
    + intros [->|Hx]%elem_of_cons; [by left|]. right. split; [by right|].
      intros Hxj. apply Hy. rewrite Heq, <- Hxj. by apply elem_of_map_2.
    + intros [->|Hx]%elem_of_cons; [right; split; [by left|done]|].
      destruct (IH Hm Hx) as [->|[? ?]]; [by left|right; split; [by right|done]].
Qed.

(** A job whose id is registered again between two steps of the process,
    that is while no poll cycle is under way (the loop waits in its [delay]
    or is not running), is dropped from the registry without being settled,
    and no later step of the process settles it: its promise stays pending
    for ever.  A registration that arrives while a cycle awaits
    [getMessages] is treated below; one that arrives while a cycle awaits
    [reserveSyntaxMessageId] is not covered, and there the earlier job can
    still be resolved ([job_replaced_during_claim_is_resolved]). *)
Theorem replaced_job_is_never_settled (cfg : Config) (req : JobRequest)
    (job : PendingJobInfo) (events : list Event) (s : State) :
  Inv s →
  clientReady s = true →
  Map_get (req_jobId req) (pendingJobs s) = Some job →
  (promise job ∉ settledPromises
                   (trace (run cfg (Outside (Registration req) :: events) s)))
  ∧ ∀ x, x ∈ pendingJobs (run cfg (Outside (Registration req) :: events) s) →
         promise x ≠ promise job.
Proof.
  intros Hs Hready Hget. apply Map_get_elem in Hget as [Hin Hid].
  destruct Hs as [[Hids Hpr Hpc Hsc Hso Hpu] _ _ _].
  cbn [run step background].
  assert (Abandoned (promise job) (trace s) (waitForVideoViaPoller req s)) as Hab.
  { unfold waitForVideoViaPoller. rewrite Hready.
    match goal with |- context [ensurePolling ?s2] =>
      destruct (ensurePolling_fields s2) as (Hp & Hn & Ht & _)
    end.
    split; [split|].
    - rewrite Hn. simpl. specialize (Hpc job Hin). lia.
    - rewrite Hp. simpl. intros x Hx Heq.
      apply Map_set_elem_other in Hx as [-> | [Hx Hne]]; [|simpl in Hne|done].
      + simpl in Heq. specialize (Hpc job Hin). lia.
      + apply Hne. rewrite <- Hid. f_equal.
        eapply (NoDup_map_inj promise); eauto.
    - exists []. by rewrite Ht. }
  apply (Abandoned_run cfg _ _ events) in Hab as [[_ Hx] (new & Hnew & Hall)].
  split.
  - rewrite Hnew, settledPromises_app. intros [Hnew'|Hold]%elem_of_app.
    + by apply (not_settled_since _ _ Hall).
    + by apply (Hpu job).
  - intros x Hin' Heq. by apply (Hx x).
Qed.

Lemma replaced_job_is_never_settled_witness :
  let req := exampleRequest "d" 2000 2100 in
  let events := [LoopTurn {| fetch := quiet [unmarkedVideo]; claims := [] |}] in
  (promise overdueJob ∉ settledPromises
     (trace (run defaultConfig (Outside (Registration req) :: events) overdueState)))
  ∧ ∀ x, x ∈ pendingJobs (run defaultConfig (Outside (Registration req) :: events)
                            overdueState) →
         promise x ≠ promise overdueJob.
Proof.
  apply (replaced_job_is_never_settled defaultConfig (exampleRequest "d" 2000 2100)
           overdueJob [LoopTurn {| fetch := quiet [unmarkedVideo]; claims := [] |}]
           overdueState).
  - apply run_Inv, initialState_Inv.
  - reflexivity.
  - reflexivity.
Defined.

(** ** A message cached as reserved *)

Lemma Untouched_run (cfg : Config) (id : Z) (t0 : list Effect) (events : list Event)
    (s : State) :
  Untouched id t0 s → Untouched id t0 (run cfg events s).
Proof.
  apply (run_preserves cfg (Untouched id t0) (λ _, True)).
  - done.
  - intros b s0 [Hin Hs]. split; [|by apply Since_background].
    by apply (background_reserved b s0).
  - intros v s0 [Hin Hs]. split; [done|by apply (Since_same _ _ s0)].
  - intros batch s0 [Hin Hs]. split; [done|]. by apply Since_fetched.
  - intros job info method s0 [Hin Hs] _. split.
    + by apply (grows_reserved _ _ (attemptAssignment_Grows job info method s0)).
    + apply Since_attemptAssignment; [|done].
      intros Hout [| | |] He; simpl in *; try done.
      * destruct He as (-> & _). intros Heq. by rewrite Heq in Hout.
      * destruct He as (_ & -> & _). intros Heq. by rewrite Heq in Hout.
  - intros s0 [Hin Hs]. split; [done|by apply (Since_same _ _ s0)].
  - intros job s0 [Hin Hs] _ _. split; [done|]. by apply Since_timeoutJob.
  - intros v n s0 [Hin Hs]. split; [done|by apply (Since_same _ _ s0)].
Qed.

(** A message id that is in the cache of reserved ids between two steps of
    the process, whether it came from the store when the cache was loaded
    or from an earlier claim, is left alone from then on: no later step of
    the process asks the store for it or resolves a job with it.  An id
    that enters the cache while a cycle awaits [getMessages] is treated
    below; [attemptAssignment] tests the cache before it awaits the store
    and not after, so an id that enters the cache while its own claim is
    awaited is not covered, and a job is still resolved with it
    ([message_cached_during_claim_is_resolved]). *)
Theorem cached_message_is_never_claimed (cfg : Config) (id : Z) (events : list Event)
    (s : State) :
  id ∈ reservedMessageIds s →
  ∃ new, trace (run cfg events s) = new ++ trace s ∧ Forall (notAbout id) new.
Proof.
  intros Hin.
  destruct (Untouched_run cfg id (trace s) events s) as [_ Hnew]; [|done].
  split; [done|apply Since_refl].
Qed.

Lemma cached_message_is_never_claimed_witness :
  let s := ensureAssignmentsCache [31] overdueState in
  let events := [LoopTurn {| fetch := quiet [unmarkedVideo]; claims := [quiet true] |}] in
  ∃ new, trace (run defaultConfig events s) = new ++ trace s ∧ Forall (notAbout 31) new.
Proof.
  apply (cached_message_is_never_claimed defaultConfig 31
           [LoopTurn {| fetch := quiet [unmarkedVideo]; claims := [quiet true] |}]
           (ensureAssignmentsCache [31] overdueState)).
  vm_compute. set_solver.
Defined.

(** ** While the batch is awaited *)

Lemma backgrounds_app (bs1 bs2 : list Background) (s : State) :
  backgrounds (bs1 ++ bs2) s = backgrounds bs2 (backgrounds bs1 s).
Proof. revert s. induction bs1 as [|b bs1 IH]; intros s; simpl; [done|apply IH]. Qed.

(** A cycle seen from a point of its await of [getMessages]: what has
    happened of the background so far is part of the state, the rest is
    still to come. *)
Lemma pollOnce_during_app (cfg : Config) (w : Await (list Message))
    (bs1 bs2 : list Background) (s : State) :
  clientReady s = true →
  during w = bs1 ++ bs2 →
  pollOnce cfg w s
  = pollOnce cfg {| during := bs2; answer := answer w |} (backgrounds bs1 s).
Proof.
  intros Hready Hd.
  pose proof (grows_client _ _ (backgrounds_Grows bs1 s) Hready) as Hready1.
  destruct (answer w) as [batch|] eqn:Hw.
  - rewrite (pollOnce_fetched cfg w s batch Hready Hw).
    rewrite (pollOnce_fetched cfg {| during := bs2; answer := Some batch |}
               (backgrounds bs1 s) batch Hready1 eq_refl).
    simpl during. by rewrite Hd, backgrounds_app.
  - rewrite (pollOnce_fetch_failed cfg w s Hready Hw).
    rewrite (pollOnce_fetch_failed cfg {| during := bs2; answer := None |}
               (backgrounds bs1 s) Hready1 eq_refl).
    simpl during. by rewrite Hd, backgrounds_app.
Qed.

Lemma pollLoopTurn_during_app (cfg : Config) (c : Cycle) (bs1 bs2 : list Background)
    (s : State) :
  loops s = 1%nat →
  pendingJobs s ≠ [] →
  clientReady s = true →
  during (fetch c) = bs1 ++ bs2 →
  pollLoopTurn cfg c s
  = snd (pollOnce cfg {| during := bs2; answer := answer (fetch c) |}
           (backgrounds bs1 (set_store (claims c) s))).
Proof.
  intros Hl Hp Hready Hd. unfold pollLoopTurn. rewrite Hl.
  destruct (pendingJobs s) as [|job rest]; [done|].
  by rewrite (pollOnce_during_app cfg (fetch c) bs1 bs2).
Qed.

Lemma registration_Abandoned (req : JobRequest) (job : PendingJobInfo) (s : State) :
  Inv s →
  clientReady s = true →
  Map_get (req_jobId req) (pendingJobs s) = Some job →
  Abandoned (promise job) (trace s) (waitForVideoViaPoller req s).
Proof.
  intros [[Hids Hpr Hpc Hsc Hso Hpu] _ _ _] Hready [Hin Hid]%Map_get_elem.
  unfold waitForVideoViaPoller. rewrite Hready.
  match goal with |- context [ensurePolling ?s2] =>
    destruct (ensurePolling_fields s2) as (Hp & Hn & Ht & _)
  end.
  split; [split|].
  - rewrite Hn. simpl. specialize (Hpc job Hin). lia.
  - rewrite Hp. simpl. intros x Hx Heq.
    apply Map_set_elem_other in Hx as [-> | [Hx Hne]]; [|simpl in Hne|done].
    + simpl in Heq. specialize (Hpc job Hin). lia.
    + apply Hne. rewrite <- Hid. f_equal.
      eapply (NoDup_map_inj promise); eauto.
  - exists []. by rewrite Ht.
Qed.

Lemma Abandoned_pollOnce (cfg : Config) (p : nat) (t0 : list Effect)
    (w : Await (list Message)) (s : State) :
  Abandoned p t0 s → Abandoned p t0 (snd (pollOnce cfg w s)).
Proof.
  apply (pollOnce_preserves cfg (Abandoned p t0) (λ x, promise x ≠ p)).
  - intros s0 x [[_ Hx] _] Hin Heq. by apply (Hx x).
  - intros b s0 [Ha Hs]. split; [by apply About_background|by apply Since_background].
  - intros batch s0 [Ha Hs].
    split; [by apply (About_same _ _ s0)|apply Since_fetched; [by intros []|done]].
  - intros job info method s0 [Ha Hs] Hjob.
    split; [by apply About_attemptAssignment|].
    apply Since_attemptAssignment; [|done].
    intros _ [| | |] He; simpl in *; intuition congruence.
  - intros s0 [Ha Hs].
    split; [by apply (About_counted p (λ _, False) (λ _, False) s0)
           |by apply (Since_same _ _ s0)].
  - intros job s0 [Ha Hs] Hjob _. split; [by apply About_timeoutJob|].
    apply Since_timeoutJob; [|done]. simpl. congruence.
Qed.

(** The same while a cycle awaits [getMessages]: a job whose id is
    registered again during that await is dropped from the registry without
    being settled, and neither the rest of the cycle nor any later step of
    the process settles it.  The turn is one that runs a cycle: an instance
    of the loop is alive, a job is pending and the client is set. *)
Theorem job_replaced_during_fetch_is_never_settled (cfg : Config) (c : Cycle)
    (bs1 bs2 : list Background) (req : JobRequest) (job : PendingJobInfo)
    (events : list Event) (s : State) :
  Inv s →
  loops s = 1%nat →
  pendingJobs s ≠ [] →
  clientReady s = true →
  during (fetch c) = bs1 ++ Registration req :: bs2 →
  Map_get (req_jobId req) (pendingJobs (backgrounds bs1 (set_store (claims c) s)))
  = Some job →
  (promise job ∉ settledPromises (trace (run cfg (LoopTurn c :: events) s)))
  ∧ ∀ x, x ∈ pendingJobs (run cfg (LoopTurn c :: events) s) →
         promise x ≠ promise job.
Proof.
  intros Hs Hl Hp Hready Hd Hget. cbn [run step].
  rewrite (pollLoopTurn_during_app cfg c (bs1 ++ [Registration req]) bs2 s Hl Hp Hready)
    by (by rewrite <- app_assoc).
  rewrite backgrounds_app. cbn [backgrounds background].
  set (s1 := backgrounds bs1 (set_store (claims c) s)) in *.
  assert (Inv s1) as Hs1 by (by apply backgrounds_Inv, set_store_Inv).
  assert (clientReady s1 = true) as Hready1.
  { by apply (grows_client _ _ (backgrounds_Grows bs1 (set_store (claims c) s))). }
  assert (trace s1 = trace s) as Ht1 by (unfold s1; by rewrite backgrounds_trace).
  pose proof (registration_Abandoned req job s1 Hs1 Hready1 Hget) as Hab.
  apply (Abandoned_pollOnce cfg _ _ {| during := bs2; answer := answer (fetch c) |})
    in Hab.
  apply (Abandoned_run cfg _ _ events) in Hab as [[_ Hx] (new & Hnew & Hall)].
  apply Map_get_elem in Hget as [Hin _].
  split.
  - rewrite Hnew, settledPromises_app. intros [Hnew'|Hold]%elem_of_app.
    + by apply (not_settled_since _ _ Hall).
    + destruct Hs1 as [[_ _ _ _ _ Hpu] _ _ _]. by apply (Hpu job).
  - intros x Hin' Heq. by apply (Hx x).
Qed.

Lemma job_replaced_during_fetch_is_never_settled_witness :
  (promise overdueJob
   ∉ settledPromises
       (trace (run defaultConfig
                 [LoopTurn (markedTurn [Registration (exampleRequest "d" 2000 2100)]
                              (quiet true))]
                 registeredState)))
  ∧ ∀ x, x ∈ pendingJobs
               (run defaultConfig
                  [LoopTurn (markedTurn [Registration (exampleRequest "d" 2000 2100)]
                               (quiet true))]
                  registeredState) →
         promise x ≠ promise overdueJob.
Proof.
  apply (job_replaced_during_fetch_is_never_settled defaultConfig
           (markedTurn [Registration (exampleRequest "d" 2000 2100)] (quiet true))
           [] [] (exampleRequest "d" 2000 2100) overdueJob [] registeredState).
  - apply run_Inv, initialState_Inv.
  - reflexivity.
  - done.
  - reflexivity.
  - reflexivity.
  - reflexivity.
Defined.

(** While a cycle awaits [reserveSyntaxMessageId] for a job, it holds the
    job: registered again during that await, the earlier job (promise 0) is
    resolved all the same when the claim is granted, and it is the entry of
    the later job (promise 1) that is deleted, unsettled. *)
Example job_replaced_during_claim_is_resolved :
  settledPromises
    (trace (run defaultConfig
              [LoopTurn (markedTurn []
                           {| during := [Registration (exampleRequest "d" 2000 2100)];
                              answer := Some true |})]
              registeredState))
  = [0%nat]
  ∧ pendingJobs
      (run defaultConfig
         [LoopTurn (markedTurn []
                      {| during := [Registration (exampleRequest "d" 2000 2100)];
                         answer := Some true |})]
         registeredState)
    = []
  ∧ nextPromise
      (run defaultConfig
         [LoopTurn (markedTurn []
                      {| during := [Registration (exampleRequest "d" 2000 2100)];
                         answer := Some true |})]
         registeredState)
    = 2%nat.
Proof. by vm_compute. Qed.

Lemma Untouched_pollOnce (cfg : Config) (id : Z) (t0 : list Effect)
    (w : Await (list Message)) (s : State) :
  Untouched id t0 s → Untouched id t0 (snd (pollOnce cfg w s)).
Proof.
  apply (pollOnce_preserves cfg (Untouched id t0) (λ _, True)).
  - done.
  - intros b s0 [Hin Hs]. split; [|by apply Since_background].
    by apply (background_reserved b s0).
  - intros batch s0 [Hin Hs]. split; [done|]. by apply Since_fetched.
  - intros job info method s0 [Hin Hs] _. split.
    + by apply (grows_reserved _ _ (attemptAssignment_Grows job info method s0)).
    + apply Since_attemptAssignment; [|done].
      intros Hout [| | |] He; simpl in *; try done.
      * destruct He as (-> & _). intros Heq. by rewrite Heq in Hout.
      * destruct He as (_ & -> & _). intros Heq. by rewrite Heq in Hout.
  - intros s0 [Hin Hs]. split; [done|by apply (Since_same _ _ s0)].
  - intros job s0 [Hin Hs] _ _. split; [done|]. by apply Since_timeoutJob.
Qed.

(** The same while a cycle awaits [getMessages]: a message id that the
    load of the cache adds during that await is asked for and resolved with
    neither by the rest of the cycle nor by any later step of the process.
    The turn is one that runs a cycle: an instance of the loop is alive, a
    job is pending and the client is set. *)
Theorem message_cached_during_fetch_is_never_claimed (cfg : Config) (c : Cycle)
    (bs1 bs2 : list Background) (ids : list Z) (id : Z) (events : list Event)
    (s : State) :
  loops s = 1%nat →
  pendingJobs s ≠ [] →
  clientReady s = true →
  during (fetch c) = bs1 ++ CacheWarmed ids :: bs2 →
  id ∈ ids →
  ∃ new, trace (run cfg (LoopTurn c :: events) s) = new ++ trace s
         ∧ Forall (notAbout id) new.
Proof.
  intros Hl Hp Hready Hd Hid. cbn [run step].
  rewrite (pollLoopTurn_during_app cfg c (bs1 ++ [CacheWarmed ids]) bs2 s Hl Hp Hready)
    by (by rewrite <- app_assoc).
  rewrite backgrounds_app. cbn [backgrounds background].
  set (s1 := backgrounds bs1 (set_store (claims c) s)).
  assert (trace s1 = trace s) as Ht1 by (unfold s1; by rewrite backgrounds_trace).
  assert (Untouched id (trace s) (ensureAssignmentsCache ids s1)) as Hun.
  { split; [|exists []; by rewrite <- Ht1].
    simpl. apply elem_of_union_l. by apply elem_of_list_to_set. }
  apply (Untouched_pollOnce cfg _ _ {| during := bs2; answer := answer (fetch c) |})
    in Hun.
  by apply (Untouched_run cfg _ _ events) in Hun as [_ Hnew].
Qed.

Lemma message_cached_during_fetch_is_never_claimed_witness :
  ∃ new, trace (run defaultConfig [LoopTurn (markedTurn [CacheWarmed [7]] (quiet true))]
                  registeredState)
         = new ++ trace registeredState
         ∧ Forall (notAbout 7) new.
Proof.
  apply (message_cached_during_fetch_is_never_claimed defaultConfig
           (markedTurn [CacheWarmed [7]] (quiet true)) [] [] [7] 7 [] registeredState).
  - reflexivity.
  - done.
  - reflexivity.
  - reflexivity.
  - by apply list_elem_of_singleton.
Defined.

(** While a cycle awaits [reserveSyntaxMessageId] for a message, the cache
    is not looked at again: loaded into the cache during that await, the
    message 7 is resolved with all the same when the claim is granted. *)
Example message_cached_during_claim_is_resolved :
  resolvedMessageIds
    (trace (run defaultConfig
              [LoopTurn (markedTurn [] {| during := [CacheWarmed [7]];
                                          answer := Some true |})]
              registeredState))
  = [7].
Proof. by vm_compute. Qed.

(** ** Timeouts are never early *)

Lemma NotEarly_step (p : nat) (d : Z) (t0 : list Effect) (s s' : State) :
  Grows s s' →
  About p (λ x, deadline x = d) s' →
  (Since t0 (λ e, ∀ k, e ≠ Rejected p k) s →
   d < clock s' ∨ Since t0 (λ e, ∀ k, e ≠ Rejected p k) s') →
  NotEarly p d t0 s → NotEarly p d t0 s'.
Proof.
  intros Hg Ha Hstep [_ [Hlate | Hs]]; (split; [done|]); [|by apply Hstep].
  left. pose proof (grows_clock _ _ Hg). lia.
Qed.

Lemma NotEarly_run (cfg : Config) (p : nat) (d : Z) (t0 : list Effect)
    (events : list Event) (s : State) :
  NotEarly p d t0 s → NotEarly p d t0 (run cfg events s).
Proof.
  apply (run_preserves cfg (NotEarly p d t0) (λ x, promise x = p → deadline x = d)).
  - intros s0 x [[_ Hx] _] Hin. by apply Hx.
  - intros b s0 Hs. apply (NotEarly_step p d t0 s0); [apply background_Grows| |..|done].
    + apply About_background. by destruct Hs.
    + intros H. right. by apply Since_background.
  - intros v s0 Hs. apply (NotEarly_step p d t0 s0); [apply set_store_Grows| |..|done].
    + apply (About_same _ _ s0); [done|done|by destruct Hs].
    + intros H. right. by apply (Since_same _ _ s0).
  - intros batch s0 Hs.
    apply (NotEarly_step p d t0 s0); [|apply (About_same _ _ s0); [done|done|by destruct Hs]| |done].
    + split; simpl; try done; [lia|by exists [Fetched batch]].
    + intros H. right. by apply Since_fetched.
  - intros job info method s0 Hs _.
    apply (NotEarly_step p d t0 s0); [apply attemptAssignment_Grows| | |done].
    + apply About_attemptAssignment. by destruct Hs.
    + intros H. right. apply Since_attemptAssignment; [|done].
      by intros _ [| | |] He k.
  - intros s0 Hs. apply (NotEarly_step p d t0 s0); [| | |done].
    + split; try done. by exists [].
    + apply (About_counted p (λ x, deadline x = d) (λ x, deadline x = d) s0); [done|].
      by destruct Hs.
    + intros H. right. by apply (Since_same _ _ s0).
  - intros job s0 Hs Hjob Hd.
    apply (NotEarly_step p d t0 s0); [apply timeoutJob_Grows| | |done].
    + apply About_timeoutJob. by destruct Hs.
    + intros H. destruct (decide (promise job = p)) as [Hp|Hp].
      * left. rewrite <- (Hjob Hp). done.
      * right. apply Since_timeoutJob; [|done]. intros k [= ? _]. done.
  - intros v n s0 Hs. apply (NotEarly_step p d t0 s0); [| | |done].
    + split; try done. by exists [].
    + apply (About_same _ _ s0); [done|done|by destruct Hs].
    + intros H. right. by apply (Since_same _ _ s0).
Qed.

Lemma settles_settledPromises (p : nat) (e : Effect) (t : list Effect) :
  e ∈ t → settles p e → p ∈ settledPromises t.
Proof.
  induction t as [|e' t IH]; [by intros ?%elem_of_nil|].
  intros [->|Hin]%elem_of_cons He.
  - destruct e'; simpl in *; try done; subst; by left.
  - specialize (IH Hin He). destruct e'; simpl; try done; by right.
Qed.

(** A job is rejected for its timeout only after its deadline: whenever the
    trace of a run holds the rejection of a job that was pending, the clock
    has passed the deadline the job was registered with. *)
Theorem timeout_is_never_early (cfg : Config) (job : PendingJobInfo)
    (events : list Event) (s : State) (k : jsstring) :
  Inv s →
  job ∈ pendingJobs s →
  Rejected (promise job) k ∈ trace (run cfg events s) →
  deadline job < clock (run cfg events s).
Proof.
  intros [[Hids Hpr Hpc Hsc Hso Hpu] _ _ _] Hin Hrej.
  destruct (NotEarly_run cfg (promise job) (deadline job) (trace s) events s)
    as [_ [Hlate | (new & Hnew & Hall)]]; [|done|].
  { split; [split|right; apply Since_refl].
    - by apply Hpc.
    - intros x Hx Heq. f_equal. by eapply (NoDup_map_inj promise). }
  rewrite Hnew in Hrej. apply elem_of_app in Hrej as [Hrej | Hrej].
  - rewrite Forall_forall in Hall. by destruct (Hall _ Hrej k).
  - destruct (Hpu job Hin). by apply (settles_settledPromises _ _ _ Hrej).
Qed.

Lemma timeout_is_never_early_witness :
  let events := [LoopTurn {| fetch := quiet [unmarkedVideo]; claims := [] |}] in
  deadline overdueJob < clock (run defaultConfig events overdueState).
Proof.
  apply (timeout_is_never_early defaultConfig overdueJob
           [LoopTurn {| fetch := quiet [unmarkedVideo]; claims := [] |}]
           overdueState (jobId overdueJob)).
  - apply run_Inv, initialState_Inv.
  - vm_compute. by left.
  - vm_compute. by left.
Defined.

(** ** A cycle, phase by phase *)

(** A property [I] that the collection turns into [I']: a cycle that
    completes ends in [I'], and a cycle that is abandoned ends in [I] or in
    [I']. *)
Lemma pollOnce_preserves_counting (cfg : Config) (I I' : State → Prop)
    (J' : PendingJobInfo → Prop) (w : Await (list Message)) (s : State) :
  (∀ b s0, I s0 → I (background b s0)) →
  (∀ batch s0, I s0 →
     I (set_totalMessagesScanned
          (totalMessagesScanned (emit (Fetched batch) s0) + Z.of_nat (length batch))
          (emit (Fetched batch) s0))) →
  (∀ s0 job info, I s0 → job ∈ pendingJobs s0 →
     I (snd (attemptAssignment job info ByJobId s0))) →
  (∀ s0, I s0 → I' (set_pendingJobs (map bumpPollCount (pendingJobs s0)) s0)) →
  (∀ s0 x, I' s0 → x ∈ pendingJobs s0 → J' x) →
  (∀ s0 job info, I' s0 → J' job → fallbackReady cfg job = true →
     I' (snd (attemptAssignment job info ByTimestamp s0))) →
  (∀ s0 job, I' s0 → J' job → deadline job < clock s0 → I' (timeoutJob job s0)) →
  clientReady s = true →
  I s →
  I' (snd (pollOnce cfg w s))
  ∨ (fst (pollOnce cfg w s) = Thrown ∧ I (snd (pollOnce cfg w s))).
Proof.
  intros Hbg Hfetched HA Hcollect HJ HB HT Hready Hs.
  pose proof (backgrounds_preserves I (during w) s Hbg Hs) as Hs1.
  destruct (answer w) as [batch|] eqn:Hw;
    [|right; by rewrite (pollOnce_fetch_failed cfg w s Hready Hw)].
  rewrite (pollOnce_fetched cfg w s batch Hready Hw). cbv zeta.
  pose proof (Hfetched batch _ Hs1) as Hs2.
  set (s2 := set_totalMessagesScanned _ _) in *.
  rewrite bind_run.
  assert (I (snd (matchMessagesByJobId (filterVideoMessages (clock s2) batch) s2))) as Hs3.
  { apply matchMessagesByJobId_preserves; [|done].
    intros s0 info mark job H0 _ _ _ [Hin _]%Map_get_elem. by apply HA. }
  destruct (matchMessagesByJobId (filterVideoMessages (clock s2) batch) s2)
    as [[[]|] s3]; [|by right].
  left. cbn [snd] in Hs3. rewrite bind_run. unfold collectFallbackReadyJobs.
  pose proof (Hcollect s3 Hs3) as Hs4.
  apply bind_snd_inv.
  - apply processFallbackMatches_preserves; [|done].
    intros s0 job info H0 Hjob _ _ _.
    apply list_elem_of_In, filter_In in Hjob as [Hjob%list_elem_of_In Hr].
    apply HB; [done| |done]. by apply (HJ _ _ Hs4).
  - intros _ s5 _ Hs5. apply checkPendingTimeouts_preserves; [|done].
    intros s' job H' Hc Hin Hd. apply HT; [done| |lia]. by apply (HJ s5).
Qed.

(** ** The poll count *)

(** Every completed cycle counts a pending job once: a job that is still
    pending after a cycle has been counted once more when the cycle ran to
    its end, and at most once more when the cycle was abandoned. *)
Theorem pollCount_counts_cycles (cfg : Config) (w : Await (list Message)) (s : State)
    (job x : PendingJobInfo) :
  Inv s →
  clientReady s = true →
  job ∈ pendingJobs s →
  x ∈ pendingJobs (snd (pollOnce cfg w s)) →
  promise x = promise job →
  (fst (pollOnce cfg w s) = Normal tt → pollCount x = pollCount job + 1)
  ∧ (pollCount x = pollCount job ∨ pollCount x = pollCount job + 1).
Proof.
  intros [[Hids Hpr Hpc Hsc Hso Hpu] _ _ _] Hready Hin Hx Heq.
  assert (About (promise job) (λ y, pollCount y = pollCount job) s) as Hs.
  { split; [by apply Hpc|]. intros y Hy Hp. f_equal. by eapply (NoDup_map_inj promise). }
  destruct (pollOnce_preserves_counting cfg
              (About (promise job) (λ y, pollCount y = pollCount job))
              (About (promise job) (λ y, pollCount y = pollCount job + 1))
              (λ _, True) w s) as [[_ Hend] | [Hthrown [_ Hend]]]; try done.
  - intros b s0. apply About_background.
  - intros batch s0. by apply About_same.
  - intros s0 j info H0 _. by apply About_attemptAssignment.
  - intros s0. apply About_counted. intros y Hy. simpl. by rewrite Hy.
  - intros s0 j info H0 _ _. by apply About_attemptAssignment.
  - intros s0 j H0 _ _. by apply About_timeoutJob.
  - specialize (Hend x Hx Heq). split; [done|by right].
  - specialize (Hend x Hx Heq). split; [by rewrite Hthrown|by left].
Qed.

Lemma pollCount_counts_cycles_witness :
  let w := quiet [exampleNote 1 "hello"] in
  (fst (pollOnce defaultConfig w registeredState) = Normal tt →
   pollCount (bumpPollCount overdueJob) = pollCount overdueJob + 1)
  ∧ (pollCount (bumpPollCount overdueJob) = pollCount overdueJob
     ∨ pollCount (bumpPollCount overdueJob) = pollCount overdueJob + 1).
Proof.
  apply (pollCount_counts_cycles defaultConfig (quiet [exampleNote 1 "hello"])
           registeredState overdueJob (bumpPollCount overdueJob)).
  - apply run_Inv, initialState_Inv.
  - reflexivity.
  - vm_compute. by left.
  - vm_compute. by left.
  - reflexivity.
Defined.

(** ** The fallback waits for the threshold *)

Lemma pollOnce_no_client (cfg : Config) (w : Await (list Message)) (s : State) :
  clientReady s = false → pollOnce cfg w s = (Normal tt, s).
Proof. intros Hc. unfold pollOnce. rewrite bind_run. unfold gets. by rewrite Hc. Qed.

Lemma turns_nonneg (events : list Event) : 0 ≤ turns events.
Proof. induction events as [|[b|c|] rest IH]; simpl; lia. Qed.

Lemma Counted_mono (p : nat) (c c' : Z) (t0 : list Effect) (s : State) :
  c ≤ c' → Counted p c t0 s → Counted p c' t0 s.
Proof.
  intros Hc [[Hn Hx] Hs]. split; [split; [done|]|done].
  intros x Hin Hp. specialize (Hx x Hin Hp). simpl in Hx. lia.
Qed.

Lemma Counted_same (p : nat) (c : Z) (t0 : list Effect) (s s' : State) :
  nextPromise s' = nextPromise s →
  pendingJobs s' = pendingJobs s →
  trace s' = trace s →
  Counted p c t0 s → Counted p c t0 s'.
Proof.
  intros Hn Hp Ht [Ha Hs].
  split; [apply (About_same _ _ s); [done|by rewrite Hp|done]|by apply (Since_same _ _ s)].
Qed.

Lemma Counted_background (p : nat) (c : Z) (t0 : list Effect) (b : Background)
    (s : State) :
  Counted p c t0 s → Counted p c t0 (background b s).
Proof. intros [Ha Hs]. split; [by apply About_background|by apply Since_background]. Qed.

Lemma Counted_pollOnce (cfg : Config) (p : nat) (c : Z) (t0 : list Effect)
    (w : Await (list Message)) (s : State) :
  c + 1 < FALLBACK_POLLS_THRESHOLD cfg →
  Counted p c t0 s → Counted p (c + 1) t0 (snd (pollOnce cfg w s)).
Proof.
  intros Hc Hs. destruct (clientReady s) eqn:Hready.
  2:{ rewrite pollOnce_no_client by done. apply (Counted_mono p c); [lia|done]. }
  destruct (pollOnce_preserves_counting cfg (Counted p c t0) (Counted p (c + 1) t0)
              (λ x, promise x = p → pollCount x ≤ c + 1) w s)
    as [Hend | [_ Hend]]; try done.
  - intros b s0. apply Counted_background.
  - intros batch s0 [Ha H0].
    split; [by apply (About_same _ _ s0)|apply Since_fetched; [done|done]].
  - intros s0 job info [Ha H0] _. split; [by apply About_attemptAssignment|].
    apply Since_attemptAssignment; [|done].
    intros _ [| | |] He r [= _ <-]. simpl in He. tauto.
  - intros s0 [Ha H0]. split; [|by apply (Since_same _ _ s0)].
    apply (About_counted p (λ x, pollCount x ≤ c) _ s0); [|done].
    intros x Hx. simpl. lia.
  - intros s0 x [[_ Hx] _] Hin. by apply Hx.
  - intros s0 job info [Ha H0] Hjob Hr. split; [by apply About_attemptAssignment|].
    apply Since_attemptAssignment; [|done].
    intros _ [| | |] He r [= -> <-]. simpl in He. destruct He as (Hp & _).
    unfold fallbackReady in Hr. specialize (Hjob (eq_sym Hp)). lia.
  - intros s0 job [Ha H0] _ _. split; [by apply About_timeoutJob|].
    apply Since_timeoutJob; [|done]. by intros r.
  - apply (Counted_mono p c); [lia|done].
Qed.

Lemma Counted_run (cfg : Config) (p : nat) (t0 : list Effect) (events : list Event) :
  ∀ (c : Z) (s : State),
  c + turns events < FALLBACK_POLLS_THRESHOLD cfg →
  Counted p c t0 s → Counted p (c + turns events) t0 (run cfg events s).
Proof.
  induction events as [|e rest IH]; intros c s Hc Hs; simpl.
  { by rewrite Z.add_0_r. }
  pose proof (turns_nonneg rest) as Hrest.
  destruct e as [b|cy|]; simpl in *.
  - apply IH; [done|]. by apply Counted_background.
  - replace (c + (1 + turns rest)) with ((c + 1) + turns rest) by lia.
    apply IH; [lia|]. unfold pollLoopTurn.
    destruct (loops s) as [|n]; [apply (Counted_mono p c); [lia|done]|].
    destruct (pendingJobs s) as [|job jobs] eqn:Hp.
    + apply (Counted_mono p c); [lia|]. apply (Counted_same p c t0 s); try done.
    + apply Counted_pollOnce; [lia|]. by apply (Counted_same p c t0 s).
  - apply IH; [done|]. unfold pollLoopCrash.
    destruct (loops s) as [|n]; [done|]. by apply (Counted_same p c t0 s).
Qed.

(** A job is bound to a video by timestamp only once it has been counted
    [FALLBACK_POLLS_THRESHOLD] times: along a run with too few turns of the
    loop for that, every resolution of the job is by its marker. *)
Theorem fallback_waits_for_threshold (cfg : Config) (job : PendingJobInfo)
    (events : list Event) (s : State) (r : MatchingResult) :
  Inv s →
  job ∈ pendingJobs s →
  pollCount job + turns events < FALLBACK_POLLS_THRESHOLD cfg →
  Resolved (promise job) r ∈ trace (run cfg events s) →
  res_matchingMethod r = ByJobId.
Proof.
  intros [[Hids Hpr Hpc Hsc Hso Hpu] _ _ _] Hin Hturns Hres.
  destruct (Counted_run cfg (promise job) (trace s) events (pollCount job) s)
    as [_ (new & Hnew & Hall)]; [done| |].
  { split; [split|apply Since_refl].
    - by apply Hpc.
    - intros x Hx Heq. simpl.
      by rewrite (NoDup_map_inj promise _ x job Hpr Hx Hin Heq). }
  rewrite Hnew in Hres. apply elem_of_app in Hres as [Hres | Hres].
  - rewrite Forall_forall in Hall. by apply (Hall _ Hres).
  - destruct (Hpu job Hin). by apply (settles_settledPromises _ _ _ Hres).
Qed.

Lemma fallback_waits_for_threshold_witness :
  res_matchingMethod
    {| res_message := exampleVideo 7 "done [JOB_ID: d]" 3;
       res_matchingMethod := ByJobId;
       res_totalMessagesScanned := 1 |} = ByJobId.
Proof.
  apply (fallback_waits_for_threshold defaultConfig overdueJob
           [LoopTurn {| fetch := quiet [exampleVideo 7 "done [JOB_ID: d]" 3];
                        claims := [quiet true] |}]
           registeredState).
  - apply run_Inv, initialState_Inv.
  - vm_compute. by left.
  - reflexivity.
  - vm_compute. by left.
Defined.

(** ** What a cycle does with its batch *)

Lemma filterVideoMessages_marker (now : Z) (messages : list Message)
    (c : VideoMessageInfo) :
  c ∈ filterVideoMessages now messages →
  info_jobIdMark c = markerOf (info_message c).
Proof.
  induction messages as [|m ms IH]; simpl; [by intros ?%elem_of_nil|].
  destruct (isVideoMessage m); [|done].
  intros [->|Hc]%elem_of_cons; [done|by apply IH].
Qed.

Lemma noMark_marker (c : VideoMessageInfo) :
  noMark c = true ↔ info_jobIdMark c = None ∨ info_jobIdMark c = Some [].
Proof.
  unfold noMark. destruct (info_jobIdMark c) as [[|x k]|]; split; intros H;
    try done; [by right|by destruct H|by left].
Qed.

Lemma attempt_cycleEffect (now : Z) (batch : list Message) (job : PendingJobInfo)
    (info : VideoMessageInfo) (method : MatchingMethod) (e : Effect) :
  info ∈ filterVideoMessages now batch →
  justifies method (jobId job) (info_message info) →
  attemptEffect job info method e → cycleEffect batch e.
Proof.
  intros [Hvideo Hin]%filterVideoMessages_elem Hj.
  destruct e as [|i k m a|p r|]; simpl; try done.
  - intros (-> & -> & ->). by exists (info_message info).
  - intros (_ & -> & ->). split_and!; [done|done|]. by exists (jobId job).
Qed.

(** Whatever a cycle does after its fetch, it does with a message of the
    batch that carries a video: the store is asked, and a job resolved, by
    job id only for the id the marker of the message names, and by
    timestamp only for a message without marker; nothing is fetched twice. *)
Theorem cycle_effects_are_justified (cfg : Config) (w : Await (list Message))
    (s : State) (batch : list Message) :
  clientReady s = true →
  answer w = Some batch →
  ∃ new, trace (snd (pollOnce cfg w s)) = new ++ Fetched batch :: trace s
         ∧ Forall (cycleEffect batch) new.
Proof.
  intros Hready Hw. rewrite (pollOnce_fetched cfg w s batch Hready Hw). cbv zeta.
  set (s2 := set_totalMessagesScanned _ _).
  assert (trace s2 = Fetched batch :: trace s) as <-.
  { unfold s2. simpl. by rewrite backgrounds_trace. }
  pose proof (Since_refl (cycleEffect batch) s2) as Hs2.
  set (now := clock s2) in *.
  apply (bind_snd_inv (Since (trace s2) (cycleEffect batch))).
  { apply matchMessagesByJobId_preserves; [|done].
    intros s1 info mark job H1 Hin Hno Hmark [_ Hid]%Map_get_elem.
    apply Since_attemptAssignment; [|done]. intros _ e.
    apply (attempt_cycleEffect now batch); [done|]. simpl.
    rewrite <- (filterVideoMessages_marker _ _ _ Hin), Hmark, Hid. split; [|done].
    intros ->. unfold noMark in Hno. by rewrite Hmark in Hno. }
  intros _ s3 _ Hs3. rewrite bind_run. unfold collectFallbackReadyJobs.
  apply bind_snd_inv.
  - apply processFallbackMatches_preserves; [|by apply (Since_same _ _ s3)].
    intros s1 job info H1 _ Hin Hno _.
    apply Since_attemptAssignment; [|done]. intros _ e.
    apply (attempt_cycleEffect now batch); [done|]. simpl.
    rewrite <- (filterVideoMessages_marker _ _ _ Hin). by apply noMark_marker.
  - intros _ s5 _ Hs5. apply checkPendingTimeouts_preserves; [|done].
    intros s' job H' _ _ _. by apply Since_timeoutJob.
Qed.

Lemma cycle_effects_are_justified_witness :
  let w := quiet [exampleVideo 7 "done [JOB_ID: d]" 3; unmarkedVideo] in
  ∃ new, trace (snd (pollOnce defaultConfig w registeredState))
         = new ++ Fetched [exampleVideo 7 "done [JOB_ID: d]" 3; unmarkedVideo]
                  :: trace registeredState
         ∧ Forall (cycleEffect [exampleVideo 7 "done [JOB_ID: d]" 3; unmarkedVideo]) new.
Proof.
  apply (cycle_effects_are_justified defaultConfig
           (quiet [exampleVideo 7 "done [JOB_ID: d]" 3; unmarkedVideo]) registeredState);
    reflexivity.
Defined.

(** ** The loop survives the errors of a cycle *)

Lemma Alive_same (s s' : State) :
  loops s' = loops s → pollerRunning s' = pollerRunning s → Alive s → Alive s'.
Proof. intros Hl Hp [? ?]. split; congruence. Qed.

Lemma Alive_background (b : Background) (s : State) : Alive s → Alive (background b s).
Proof.
  intros [Hl Hp]. destruct b as [|req|ids|ms]; simpl; try done.
  unfold waitForVideoViaPoller. destruct (clientReady s); [|done].
  unfold ensurePolling. simpl. by rewrite Hp.
Qed.

Lemma Alive_attemptAssignment (job : PendingJobInfo) (info : VideoMessageInfo)
    (method : MatchingMethod) (s : State) :
  Alive s → Alive (snd (attemptAssignment job info method s)).
Proof.
  intros Hs.
  destruct (attemptAssignment_cases job info method s)
    as [-> | (Hout & s1 & Hbg & [-> | [-> | ->]])]; [done|..]; cbn [snd];
    apply (afterBackground_preserves Alive) in Hbg;
    try done; try apply Alive_background; try (intros v s'; by apply Alive_same).
Qed.

(** While a job is pending, a turn of the loop leaves the loop alive
    whatever the fetch and the store answer, also when they fail: the errors
    of a cycle never end the loop.  With no job pending the turn ends the
    loop and clears the flag, so that the next registration starts it
    again. *)
Theorem loop_survives_cycle_errors (cfg : Config) (c : Cycle) (s : State) :
  loops s = 1%nat →
  pollerRunning s = true →
  match pendingJobs s with
  | [] => loops (pollLoopTurn cfg c s) = 0%nat
          ∧ pollerRunning (pollLoopTurn cfg c s) = false
          ∧ trace (pollLoopTurn cfg c s) = trace s
  | _ :: _ => loops (pollLoopTurn cfg c s) = 1%nat
              ∧ pollerRunning (pollLoopTurn cfg c s) = true
  end.
Proof.
  intros Hl Hp. unfold pollLoopTurn. rewrite Hl.
  destruct (pendingJobs s) as [|job rest] eqn:Hjobs; [done|].
  apply (pollOnce_preserves cfg Alive (λ _, True)); try done.
  - apply Alive_background.
  - intros job0 info method s0 H0 _. by apply Alive_attemptAssignment.
Qed.

Lemma loop_survives_cycle_errors_witness :
  let c := {| fetch := {| during := []; answer := None |}; claims := [] |} in
  match pendingJobs registeredState with
  | [] => loops (pollLoopTurn defaultConfig c registeredState) = 0%nat
          ∧ pollerRunning (pollLoopTurn defaultConfig c registeredState) = false
          ∧ trace (pollLoopTurn defaultConfig c registeredState) = trace registeredState
  | _ :: _ => loops (pollLoopTurn defaultConfig c registeredState) = 1%nat
              ∧ pollerRunning (pollLoopTurn defaultConfig c registeredState) = true
  end.
Proof.
  apply (loop_survives_cycle_errors defaultConfig
           {| fetch := {| during := []; answer := None |}; claims := [] |}
           registeredState); reflexivity.
Defined.

(** ** The flag of the loop *)








(** In [exitedRun] the loop has ended and its flag is clear; the
    registration of a second job starts it again. *)
Example exitedRun_restarts :
  loops (run defaultConfig exitedRun initialState) = 0%nat
  ∧ pollerRunning (run defaultConfig exitedRun initialState) = false
  ∧ loops (run defaultConfig
             (exitedRun ++ [Outside (Registration (exampleRequest "b1" 1900 2000))])
             initialState) = 1%nat.
Proof. by vm_compute. Qed.

(** ** What a resolution means *)

Lemma filterVideoMessages_info (now : Z) (messages : list Message)
    (c : VideoMessageInfo) :
  c ∈ filterVideoMessages now messages → c = videoMessageInfo now (info_message c).
Proof.
  induction messages as [|m ms IH]; simpl; [by intros ?%elem_of_nil|].
  destruct (isVideoMessage m); [|done].
  intros [->|Hc]%elem_of_cons; [done|by apply IH].
Qed.

Lemma targetTimestamp_bumpPollCount (x : PendingJobInfo) :
  targetTimestamp (bumpPollCount x) = targetTimestamp x.
Proof. done. Qed.

Lemma Served_run (cfg : Config) (p : nat) (k : jsstring) (target : Z)
    (t0 : list Effect) (events : list Event) (s : State) :
  Served cfg p k target t0 s → Served cfg p k target t0 (run cfg events s).
Proof.
  apply (run_preserves_sites cfg (Served cfg p k target t0)
           (λ x, promise x = p → jobId x = k ∧ targetTimestamp x = target)).
  - intros s0 x [[_ Hx] _] Hin. by apply Hx.
  - intros b s0 [Ha Hs]. split; [by apply About_background|by apply Since_background].
  - intros v s0 [Ha Hs]. split; [by apply (About_same _ _ s0)|by apply (Since_same _ _ s0)].
  - intros batch s0 [Ha Hs].
    split; [by apply (About_same _ _ s0)|apply Since_fetched; [done|done]].
  - intros now batch info mark job s0 [Ha Hs] Hin Hno Hmark [Hjob Hid]%Map_get_elem.
    split; [by apply About_attemptAssignment|].
    apply Since_attemptAssignment; [|done].
    intros _ [| |p0 r0|] He r [= -> <-]. simpl in He. destruct He as (Hp & Hm & Hmeth).
    destruct (about_pending _ _ _ Ha job Hjob (eq_sym Hp)) as [Hk _].
    destruct (filterVideoMessages_elem _ _ _ Hin) as [Hvideo _].
    unfold matches. rewrite Hm, Hmeth. split; [done|].
    by rewrite <- (filterVideoMessages_marker _ _ _ Hin), Hmark, <- Hk, Hid.
  - intros now batch info job s0 [Ha Hs] Hjob Hr Hin Hno [_ Hd].
    split; [by apply About_attemptAssignment|].
    apply Since_attemptAssignment; [|done].
    intros _ [| |p0 r0|] He r [= -> <-]. simpl in He. destruct He as (Hp & Hm & Hmeth).
    destruct (Hjob (eq_sym Hp)) as [_ Ht].
    destruct (filterVideoMessages_elem _ _ _ Hin) as [Hvideo _].
    unfold matches. rewrite Hm, Hmeth. split_and!; [done| |].
    + rewrite <- (filterVideoMessages_marker _ _ _ Hin). by apply noMark_marker.
    + exists now. rewrite <- (filterVideoMessages_info _ _ _ Hin), <- Ht. exact Hd.
  - intros s0 [Ha Hs]. split; [|by apply (Since_same _ _ s0)].
    apply (About_counted p (λ x, jobId x = k ∧ targetTimestamp x = target) _ s0);
      [|done].
    intros x Hx. by rewrite targetTimestamp_bumpPollCount.
  - intros job s0 [Ha Hs] _ _. split; [by apply About_timeoutJob|].
    apply Since_timeoutJob; [|done]. by intros r.
  - intros v n s0 [Ha Hs]. split; [by apply (About_same _ _ s0)|by apply (Since_same _ _ s0)].
Qed.

(** What the caller of a job can rely on when its promise resolves, in
    every run: the message delivered carries a video; when the method is the
    job id, the marker of the message names this very job; when the method
    is the timestamp, the message carries no marker and is dated within
    [FALLBACK_WINDOW_MS] of the time the job was sent (or created, when no
    time of sending is known). *)
Theorem resolution_matches_job (cfg : Config) (job : PendingJobInfo)
    (events : list Event) (s : State) (r : MatchingResult) :
  Inv s →
  job ∈ pendingJobs s →
  Resolved (promise job) r ∈ trace (run cfg events s) →
  matches cfg (jobId job) (targetTimestamp job) r.
Proof.
  intros [[Hids Hpr Hpc Hsc Hso Hpu] _ _ _] Hin Hres.
  destruct (Served_run cfg (promise job) (jobId job) (targetTimestamp job) (trace s)
              events s) as [_ (new & Hnew & Hall)].
  { split; [split|apply Since_refl].
    - by apply Hpc.
    - intros x Hx Heq.
      by rewrite (NoDup_map_inj promise _ x job Hpr Hx Hin Heq). }
  rewrite Hnew in Hres. apply elem_of_app in Hres as [Hres | Hres].
  - rewrite Forall_forall in Hall. by apply (Hall _ Hres).
  - destruct (Hpu job Hin). by apply (settles_settledPromises _ _ _ Hres).
Qed.

Lemma resolution_matches_job_witness :
  matches defaultConfig (jobId overdueJob) (targetTimestamp overdueJob)
    {| res_message := exampleVideo 7 "done [JOB_ID: d]" 3;
       res_matchingMethod := ByJobId;
       res_totalMessagesScanned := 1 |}.
Proof.
  apply (resolution_matches_job defaultConfig overdueJob
           [LoopTurn {| fetch := quiet [exampleVideo 7 "done [JOB_ID: d]" 3];
                        claims := [quiet true] |}]
           registeredState).
  - apply run_Inv, initialState_Inv.
  - vm_compute. by left.
  - vm_compute. by left.
Defined.

(** ** From the prompt sent to the job resolved *)

Lemma filterVideoMessages_filter (now : Z) (messages : list Message) :
  filterVideoMessages now messages
  = map (videoMessageInfo now) (List.filter isVideoMessage messages).
Proof.
  induction messages as [|m ms IH]; simpl; [done|].
  destruct (isVideoMessage m); simpl; by rewrite IH.
Qed.

Lemma sweep_trace_elem (now : Z) (jobs : list PendingJobInfo) (s : State) (e : Effect) :
  e ∈ trace s → e ∈ trace (sweep now jobs s).
Proof.
  intros He. destruct (grows_trace _ _ (sweep_Grows now jobs s)) as [new ->].
  apply elem_of_app. by right.
Qed.

(** The whole path of a job whose video echoes its prompt.  A job is
    registered under an id that the marker can carry (no [']'], no outer
    white space, not empty); the next batch holds one message with a video,
    whose body is the prompt as [addJobIdToPrompt] built it for that id; the
    message is not cached as reserved and the store grants the claim.  Then
    the cycle completes, the store is asked once, by job id, the job is
    resolved with that message and the count of all messages fetched so far,
    and nothing is left under its id. *)
Theorem echoed_video_resolves_job (cfg : Config) (s : State) (req : JobRequest)
    (prompt : jsstring) (batch : list Message) (m : Message)
    (w : Await bool) (rest : list (Await bool)) :
  clientReady s = true →
  extractJobIdFromText prompt = None →
  hasUnclosedMarker prompt = false →
  forallb notRBracket (req_jobId req) = true →
  noOuterWhiteSpace (req_jobId req) = true →
  req_jobId req ≠ [] →
  List.filter isVideoMessage batch = [m] →
  msg_message m = Some (addJobIdToPrompt prompt (req_jobId req)) →
  msg_id m ∉ reservedMessageIds s →
  answer w = Some true →
  let s1 := set_store (w :: rest) (waitForVideoViaPoller req s) in
  fst (pollOnce cfg (quiet batch) s1) = Normal tt
  ∧ Resolved (nextPromise s)
      {| res_message := m;
         res_matchingMethod := ByJobId;
         res_totalMessagesScanned := totalMessagesScanned s + Z.of_nat (length batch) |}
    ∈ trace (snd (pollOnce cfg (quiet batch) s1))
  ∧ Claimed (msg_id m) (req_jobId req) ByJobId (Some true)
    ∈ trace (snd (pollOnce cfg (quiet batch) s1))
  ∧ Map_get (req_jobId req) (pendingJobs (snd (pollOnce cfg (quiet batch) s1))) = None
  ∧ msg_id m ∈ reservedMessageIds (snd (pollOnce cfg (quiet batch) s1)).
Proof.
  intros Hready Hnone Hclosed Hnb Hws Hne Hvideo Hbody Hfree Hw s1.
  assert (trim (req_jobId req) = req_jobId req) as Htrim.
  { unfold noOuterWhiteSpace in Hws. apply andb_prop in Hws as [Hh Hl].
    apply trim_id; intros c Hc; rewrite Hc in *; simpl in *; by destruct (isWhiteSpace c). }
  pose (job := {| jobId := req_jobId req;
                  requestMessageId := req_requestMessageId req;
                  jobCreatedAt := req_jobCreatedAt req;
                  sentAt := req_sentAt req;
                  deadline := clock s + DEFAULT_TIMEOUT_MS;
                  pollCount := 0;
                  promise := nextPromise s |}).
  assert (pendingJobs s1 = Map_set job (pendingJobs s)
          ∧ reservedMessageIds s1 = reservedMessageIds s
          ∧ totalMessagesScanned s1 = totalMessagesScanned s
          ∧ clientReady s1 = true
          ∧ store s1 = w :: rest) as (Hp1 & Hr1 & Ht1 & Hc1 & Hst1).
  { unfold s1, waitForVideoViaPoller. rewrite Hready. unfold ensurePolling. simpl.
    by destruct (pollerRunning s). }
  clearbody s1.
  assert (∃ s3,
            (Resolved (nextPromise s)
               {| res_message := m; res_matchingMethod := ByJobId;
                  res_totalMessagesScanned :=
                    totalMessagesScanned s + Z.of_nat (length batch) |}
             ∈ trace s3)
            ∧ Claimed (msg_id m) (req_jobId req) ByJobId (Some true) ∈ trace s3
            ∧ Map_get (req_jobId req) (pendingJobs s3) = None
            ∧ msg_id m ∈ reservedMessageIds s3
            ∧ pollOnce cfg (quiet batch) s1
              = checkPendingTimeouts
                  (set_pendingJobs (map bumpPollCount (pendingJobs s3)) s3))
    as (s3 & Hres & Hcl & Hgone & Hcached & ->).
  { rewrite (pollOnce_fetched cfg (quiet batch) s1 batch Hc1 eq_refl). cbv zeta.
    simpl during. cbn [backgrounds].
    set (s2 := set_totalMessagesScanned _ _).
    set (info := videoMessageInfo (clock s2) m).
    rewrite filterVideoMessages_filter, Hvideo. cbn [map]. fold info.
    assert (info_jobIdMark info = Some (req_jobId req)) as Hmark.
    { unfold info. rewrite (videoMessageInfo_echo _ m prompt (req_jobId req)); try done.
      by rewrite Htrim. }
    assert (noMark info = false) as Hno.
    { unfold noMark. rewrite Hmark. by destruct (req_jobId req). }
    assert (Map_get (req_jobId req) (pendingJobs s2) = Some job) as Hget.
    { unfold s2. simpl. rewrite Hp1. apply (Map_get_set_eq job). }
    assert (msg_id (info_message info) ∉ reservedMessageIds s2) as Hfree2.
    { unfold s2. simpl. rewrite Hr1. exact Hfree. }
    assert (store s2 = w :: rest) as Hst2 by done.
    rewrite bind_run. cbn [matchMessagesByJobId]. rewrite Hno, Hmark.
    rewrite !bind_run. unfold gets at 1. rewrite Hget.
    rewrite (attemptAssignment_won job info ByJobId s2 w rest Hfree2 Hst2 Hw).
    cbv zeta. set (s3 := emit _ _). exists s3.
    split_and!.
    - unfold s3. apply elem_of_cons. left. unfold resultFor. simpl. unfold afterAwait.
      rewrite backgrounds_total. simpl. by rewrite Ht1.
    - unfold s3. simpl. right. by left.
    - unfold s3. simpl. apply Map_delete_get.
    - unfold s3. simpl. apply elem_of_union_l. by apply elem_of_singleton.
    - clearbody s3. cbn [mret Async_ret]. unfold collectFallbackReadyJobs.
      rewrite bind_run.
      assert (∀ ready, processFallbackMatches cfg [info] ready
                       = λ s0, (Normal tt, s0)) as Hphase.
      { intros ready. unfold processFallbackMatches. simpl. rewrite Hno.
        by destruct ready. }
      by rewrite bind_run, Hphase. }
  unfold checkPendingTimeouts. cbn [fst snd].
  split_and!; [done|by apply sweep_trace_elem|by apply sweep_trace_elem| |].
  - apply sweep_get_None. simpl. by rewrite Map_get_bumpPollCount, Hgone.
  - by apply (grows_reserved _ _ (sweep_Grows _ _ _)).
Qed.

Lemma echoed_video_resolves_job_witness :
  let s := run defaultConfig [Outside ClientAcquired] initialState in
  let req := exampleRequest "a1" 900 1000 in
  let m := echoVideo 5 (lit "a cat") (lit "a1") in
  let batch := [exampleNote 1 "hello"; m] in
  let s1 := set_store [quiet true] (waitForVideoViaPoller req s) in
  fst (pollOnce defaultConfig (quiet batch) s1) = Normal tt
  ∧ Resolved (nextPromise s)
      {| res_message := m;
         res_matchingMethod := ByJobId;
         res_totalMessagesScanned := totalMessagesScanned s + Z.of_nat (length batch) |}
    ∈ trace (snd (pollOnce defaultConfig (quiet batch) s1))
  ∧ Claimed (msg_id m) (req_jobId req) ByJobId (Some true)
    ∈ trace (snd (pollOnce defaultConfig (quiet batch) s1))
  ∧ Map_get (req_jobId req) (pendingJobs (snd (pollOnce defaultConfig (quiet batch) s1)))
    = None
  ∧ msg_id m ∈ reservedMessageIds (snd (pollOnce defaultConfig (quiet batch) s1)).
Proof.
  apply (echoed_video_resolves_job defaultConfig
           (run defaultConfig [Outside ClientAcquired] initialState)
           (exampleRequest "a1" 900 1000) (lit "a cat")
           [exampleNote 1 "hello"; echoVideo 5 (lit "a cat") (lit "a1")]
           (echoVideo 5 (lit "a cat") (lit "a1")) (quiet true) []);
    try reflexivity.
  - done.
  - apply not_elem_of_empty.
Defined.

(** ** The download of the matched video *)

Section download.
Import Download.

Lemma tryFileMode_ok (o : Answers) (filePath : jsstring) (files files' : Files) :
  tryFileMode o filePath files = inl files' →
  is_Some (came (fileMode o))
  ∧ files' = settle o (went (fileMode o) files)
  ∧ is_Some (files' !! filePath).
Proof.
  unfold tryFileMode. destruct (came (fileMode o)); [|done].
  destruct (settle o (went (fileMode o) files) !! filePath) eqn:Hf; [|done].
  intros [= <-]. by rewrite Hf.
Qed.

Lemma tryBufferMode_ok (o : Answers) (filePath : jsstring) (files files' : Files) :
  tryBufferMode o filePath files = inr files' →
  ∃ buffer, came (bufferMode o) = Some (Some buffer) ∧ buffer ≠ []
            ∧ writeThrows o = false
            ∧ files' = <[filePath := buffer]> (went (bufferMode o) files).
Proof.
  unfold tryBufferMode. destruct (came (bufferMode o)) as [[[|b buffer]|]|]; try done.
  destruct (writeThrows o); [done|]. intros [= <-]. by exists (b :: buffer).
Qed.

Lemma checkAndReturn_buffer (filePath : jsstring) (reqId : Z) (matched : MatchingResult)
    (files : Files) (buffer : list N) :
  buffer ≠ [] →
  ∃ r, checkAndReturn filePath reqId matched (<[filePath := buffer]> files)
       = inr (r, <[filePath := buffer]> files).
Proof.
  intros Hb. unfold checkAndReturn. rewrite lookup_insert_eq.
  destruct buffer; [done|]. by eexists.
Qed.

(** When the function returns, the file it names exists and is not empty,
    and the result carries the path, the id of the request, and the
    message, the method and the count of the match. *)
Theorem download_returns_existing_file (o : Answers) (filePath : jsstring) (reqId : Z)
    (matched : MatchingResult) (files files' : Files) (r : SyntxResult) :
  download o filePath reqId matched files = inr (r, files') →
  (∃ bytes, files' !! filePath = Some bytes ∧ bytes ≠ [])
  ∧ r = {| localPath := filePath;
           requestMessageId := reqId;
           videoMessageId := msg_id (res_message matched);
           matchingMethod := res_matchingMethod matched;
           totalMessagesScanned := res_totalMessagesScanned matched |}.
Proof.
  assert (∀ fs, checkAndReturn filePath reqId matched fs = inr (r, files') →
                (∃ bytes, files' !! filePath = Some bytes ∧ bytes ≠ [])
                ∧ r = {| localPath := filePath;
                         requestMessageId := reqId;
                         videoMessageId := msg_id (res_message matched);
                         matchingMethod := res_matchingMethod matched;
                         totalMessagesScanned := res_totalMessagesScanned matched |})
    as Hcheck.
  { intros fs. unfold checkAndReturn.
    destruct (fs !! filePath) as [[|b bytes]|] eqn:Hf; try done.
    intros [= <- <-]. split; [|done]. by exists (b :: bytes). }
  unfold download. destruct (tryFileMode o filePath files) as [fs|fs]; [apply Hcheck|].
  destruct (tryBufferMode o filePath fs) as [reason|fs']; [done|apply Hcheck].
Qed.

Lemma download_returns_existing_file_witness :
  (∃ bytes, (<[lit "downloads/a1.mp4" := [1; 2; 3]%N]> ∅ : Files) !! lit "downloads/a1.mp4"
            = Some bytes ∧ bytes ≠ [])
  ∧ exampleResult
    = {| localPath := lit "downloads/a1.mp4";
         requestMessageId := 11;
         videoMessageId := msg_id (res_message exampleMatch);
         matchingMethod := res_matchingMethod exampleMatch;
         totalMessagesScanned := res_totalMessagesScanned exampleMatch |}.
Proof.
  apply (download_returns_existing_file fileModeThrows (lit "downloads/a1.mp4") 11
           exampleMatch ∅).
  reflexivity.
Defined.

(** The buffer mode is a fallback for a file that is missing, not for a file
    that is empty: the function fails with the empty-file error exactly when
    the file mode came back and left an empty file, and then it does not
    look at what the buffer mode would give. *)
Theorem empty_file_is_not_retried (o : Answers) (filePath p : jsstring) (reqId : Z)
    (matched : MatchingResult) (files : Files) :
  download o filePath reqId matched files = inl (DownloadedFileIsEmpty p)
  ↔ p = filePath
    ∧ is_Some (came (fileMode o))
    ∧ settle o (went (fileMode o) files) !! filePath = Some [].
Proof.
  unfold download. split.
  - destruct (tryFileMode o filePath files) as [fs|fs] eqn:Hfile.
    + apply tryFileMode_ok in Hfile as (Hcame & -> & _).
      unfold checkAndReturn.
      destruct (settle o (went (fileMode o) files) !! filePath) as [[|b bytes]|];
        try done. by intros [= ->].
    + destruct (tryBufferMode o filePath fs) as [reason|fs'] eqn:Hbuf; [done|].
      apply tryBufferMode_ok in Hbuf as (buffer & _ & Hne & _ & ->).
      destruct (checkAndReturn_buffer filePath reqId matched
                  (went (bufferMode o) fs) buffer Hne) as [r ->]. done.
  - intros (-> & [u Hcame] & Hempty). unfold tryFileMode. rewrite Hcame, Hempty.
    unfold checkAndReturn. by rewrite Hempty.
Qed.

(** [statSync] is only reached for a path that exists: the function never
    fails for a missing file. *)
Theorem download_never_stats_missing_file (o : Answers) (filePath : jsstring)
    (reqId : Z) (matched : MatchingResult) (files : Files) :
  match download o filePath reqId matched files with
  | inl NoSuchFile => False
  | _ => True
  end.
Proof.
  unfold download. destruct (tryFileMode o filePath files) as [fs|fs] eqn:Hfile.
  - apply tryFileMode_ok in Hfile as (_ & _ & [bytes Hf]).
    unfold checkAndReturn. rewrite Hf. by destruct bytes.
  - destruct (tryBufferMode o filePath fs) as [reason|fs'] eqn:Hbuf; [done|].
    apply tryBufferMode_ok in Hbuf as (buffer & _ & Hne & _ & ->).
    destruct (checkAndReturn_buffer filePath reqId matched
                (went (bufferMode o) fs) buffer Hne) as [r ->]. done.
Qed.

(** When the file mode fails, by an error or by leaving no file, the
    outcome is that of the buffer mode: a buffer with bytes that is written
    becomes the file and the function returns; anything else is the
    failure that names the message. *)
Theorem buffer_mode_decides (o : Answers) (filePath : jsstring) (reqId : Z)
    (matched : MatchingResult) (files fs : Files) :
  tryFileMode o filePath files = inr fs →
  match came (bufferMode o) with
  | Some (Some (b :: buffer)) =>
      if writeThrows o
      then download o filePath reqId matched files
           = inl (FailedToDownload (msg_id (res_message matched)) OtherReason)
      else ∃ r, download o filePath reqId matched files
                = inr (r, <[filePath := b :: buffer]> (went (bufferMode o) fs))
  | Some _ =>
      download o filePath reqId matched files
      = inl (FailedToDownload (msg_id (res_message matched)) BufferIsEmpty)
  | None =>
      download o filePath reqId matched files
      = inl (FailedToDownload (msg_id (res_message matched)) OtherReason)
  end.
Proof.
  intros Hfile. unfold download. rewrite Hfile. unfold tryBufferMode.
  destruct (came (bufferMode o)) as [[[|b buffer]|]|]; try done.
  destruct (writeThrows o); [done|].
  by apply checkAndReturn_buffer.
Qed.

Lemma buffer_mode_decides_witness :
  ∃ r, download fileModeThrows (lit "downloads/a1.mp4") 11 exampleMatch ∅
       = inr (r, <[lit "downloads/a1.mp4" := [1; 2; 3]%N]> ∅).
Proof.
  apply (buffer_mode_decides fileModeThrows (lit "downloads/a1.mp4") 11 exampleMatch ∅ ∅).
  reflexivity.
Defined.

End download.
